(** * A private blockchain kept in an array: model of [src/blockchain.js]

    The development embeds the [Blockchain] class of [blockchain.js]: the
    chain array and its height, the promise-returning methods, and the
    promise reactions they register.  Promise callbacks run as microtasks,
    after the synchronous code that registered them, and several methods hand
    out an array that their callbacks still fill; the model therefore keeps
    the arrays and promises in a store and the pending callbacks in a queue. *)

From Stdlib Require Import ZArith Ascii String DecimalString List Lia Bool.
From stdpp Require Import base list strings.
Import ListNotations.
Open Scope Z_scope.

(** ** Strings *)

Definition dquote : string := String (ascii_of_nat 34) EmptyString.
Definition backslash : string := String (ascii_of_nat 92) EmptyString.

Fixpoint string_length (s : string) : nat :=
  match s with
  | EmptyString => O
  | String _ r => S (string_length r)
  end.

(** [s.slice(0, -k)] : all but the last [k] characters. *)
Definition slice_0_neg (k : nat) (s : string) : string :=
  String.substring 0 (string_length s - k) s.

(** [n.toString()] for an integer-valued number. *)
Definition Z_toString (n : Z) : string :=
  DecimalString.NilZero.string_of_int (Z.to_int n).

(** [s.split(':')] *)
Fixpoint split_colon_aux (s : string) (cur : string) : list string :=
  match s with
  | EmptyString => [cur]
  | String c r =>
      if Ascii.eqb c ":"%char then cur :: split_colon_aux r EmptyString
      else split_colon_aux r (cur +:+ String c EmptyString)
  end.

Definition split_colon (s : string) : list string := split_colon_aux s EmptyString.

(** ** [parseInt]

    A string is kept as the bytes of its UTF-8 encoding, which is also what
    [crypto-js] hashes.  [None] stands for [NaN].  The number is an exact
    integer; the loss of precision of a double beyond 2^53 is not
    modelled. *)

Definition byte_is (n : nat) (c : ascii) : bool := Nat.eqb (nat_of_ascii c) n.

(** The white space and line terminators of one byte: TAB, LF, VT, FF, CR
    and the space. *)
Definition is_js_space (c : ascii) : bool :=
  let n := nat_of_ascii c in
  (Nat.eqb n 32 || Nat.eqb n 9 || Nat.eqb n 10 || Nat.eqb n 11 || Nat.eqb n 12 || Nat.eqb n 13)%bool.

(** Of two bytes: U+00A0, the no-break space. *)
Definition is_js_space2 (a b : ascii) : bool := byte_is 194 a && byte_is 160 b.

(** Of three bytes: U+1680, U+2000 to U+200A, U+2028, U+2029, U+202F,
    U+205F, U+3000 and U+FEFF. *)
Definition is_js_space3 (a b c : ascii) : bool :=
  let n := nat_of_ascii c in
  (byte_is 225 a && byte_is 154 b && byte_is 128 c)
  || (byte_is 226 a && byte_is 128 b
      && ((Nat.leb 128 n && Nat.leb n 138) || Nat.eqb n 168 || Nat.eqb n 169 || Nat.eqb n 175))
  || (byte_is 226 a && byte_is 129 b && byte_is 159 c)
  || (byte_is 227 a && byte_is 128 b && byte_is 128 c)
  || (byte_is 239 a && byte_is 187 b && byte_is 191 c).

(** The string without the white space and line terminators it starts
    with. *)
Fixpoint skip_spaces (s : string) : string :=
  match s with
  | String a r1 =>
      if is_js_space a then skip_spaces r1
      else
        match r1 with
        | String b r2 =>
            if is_js_space2 a b then skip_spaces r2
            else
              match r2 with
              | String c r3 => if is_js_space3 a b c then skip_spaces r3 else s
              | EmptyString => s
              end
        | EmptyString => s
        end
  | EmptyString => s
  end.

Definition digit_value (radix : Z) (c : ascii) : option Z :=
  let n := Z.of_nat (nat_of_ascii c) in
  let v := if (48 <=? n) && (n <=? 57) then Some (n - 48)
           else if (97 <=? n) && (n <=? 122) then Some (n - 87)
           else if (65 <=? n) && (n <=? 90) then Some (n - 55)
           else None in
  match v with
  | Some d => if d <? radix then Some d else None
  | None => None
  end.

Fixpoint parse_digits (radix : Z) (s : string) (acc : option Z) : option Z :=
  match s with
  | EmptyString => acc
  | String c r =>
      match digit_value radix c with
      | Some d => parse_digits radix r (Some (match acc with Some a => a * radix + d | None => d end))
      | None => acc
      end
  end.

Definition parseInt_unsigned (s : string) : option Z :=
  match s with
  | String "0"%char (String x r) =>
      if Ascii.eqb x "x"%char || Ascii.eqb x "X"%char
      then parse_digits 16 r None
      else parse_digits 10 s None
  | _ => parse_digits 10 s None
  end.

Definition parseInt (s : string) : option Z :=
  match skip_spaces s with
  | String "-"%char r => option_map Z.opp (parseInt_unsigned r)
  | String "+"%char r => parseInt_unsigned r
  | t => parseInt_unsigned t
  end.

Example parseInt_trims_no_break_space :
  parseInt (String (ascii_of_nat 194) (String (ascii_of_nat 160) "1700000000"))
  = Some 1700000000.
Proof. vm_compute. reflexivity. Qed.

Example parseInt_trims_line_separator :
  parseInt (String (ascii_of_nat 226) (String (ascii_of_nat 128)
              (String (ascii_of_nat 168) " -12px")))
  = Some (-12).
Proof. vm_compute. reflexivity. Qed.

Example parseInt_stops_at_other_bytes :
  parseInt (String (ascii_of_nat 226) (String (ascii_of_nat 128)
              (String (ascii_of_nat 139) "12")))
  = None.
Proof. vm_compute. reflexivity. Qed.

(** [parseInt(undefined)] is [NaN]. *)
Definition parseInt_opt (s : option string) : option Z :=
  match s with
  | Some t => parseInt t
  | None => None
  end.

(** ** SHA-256 of [crypto-js/sha256], over the bytes of a string,
    rendered as lower-case hexadecimal ([.toString()]). *)

Module SHA2.

Definition mask32 (x : Z) : Z := Z.land x 0xffffffff.
Definition add32 (x y : Z) : Z := mask32 (x + y).
Definition rotr (n x : Z) : Z := Z.lor (Z.shiftr x n) (mask32 (Z.shiftl x (32 - n))).
Definition not32 (x : Z) : Z := Z.lxor x 0xffffffff.

Definition Ch (x y z : Z) : Z := Z.lxor (Z.land x y) (Z.land (not32 x) z).
Definition Maj (x y z : Z) : Z := Z.lxor (Z.lxor (Z.land x y) (Z.land x z)) (Z.land y z).
Definition bsig0 (x : Z) : Z := Z.lxor (Z.lxor (rotr 2 x) (rotr 13 x)) (rotr 22 x).
Definition bsig1 (x : Z) : Z := Z.lxor (Z.lxor (rotr 6 x) (rotr 11 x)) (rotr 25 x).
Definition ssig0 (x : Z) : Z := Z.lxor (Z.lxor (rotr 7 x) (rotr 18 x)) (Z.shiftr x 3).
Definition ssig1 (x : Z) : Z := Z.lxor (Z.lxor (rotr 17 x) (rotr 19 x)) (Z.shiftr x 10).

(** The constants of the standard: the first 32 bits of the fractional parts
    of the cube roots (round constants) and of the square roots (initial
    hash value) of the first primes. *)
Definition is_prime (n : Z) : bool :=
  forallb (fun d => negb (n mod d =? 0) || (n <=? d))
    (map Z.of_nat (seq 2 (Z.to_nat (Z.sqrt n)))).

Definition primes : list Z :=
  Eval vm_compute in List.filter is_prime (map Z.of_nat (seq 2 310)).

(** The integer cube root, one bit at a time from bit [n - 1] down. *)
Fixpoint cbrt_bits (n : nat) (x r : Z) : Z :=
  match n with
  | O => r
  | S m =>
      let t := r + 2 ^ Z.of_nat m in
      cbrt_bits m x (if t * t * t <=? x then t else r)
  end.

Definition K : list Z :=
  Eval vm_compute in map (fun p => mask32 (cbrt_bits 40 (Z.shiftl p 96) 0)) primes.

Definition H0 : list Z :=
  Eval vm_compute in map (fun p => mask32 (Z.sqrt (Z.shiftl p 64))) (firstn 8 primes).

Example constants_of_the_standard :
  length K = 64%nat /\ nth 0 K 0 = 0x428a2f98 /\ nth 63 K 0 = 0xc67178f2
  /\ nth 0 H0 0 = 0x6a09e667 /\ nth 7 H0 0 = 0x5be0cd19.
Proof. repeat split. Qed.

Definition w (l : list Z) (i : nat) : Z := nth i l 0.

(** One round on the working variables [a..h], with round constant [k] and
    schedule word [wt]. *)
Definition round (k wt : Z) (v : list Z) : list Z :=
  let t1 := add32 (add32 (add32 (w v 7) (bsig1 (w v 4))) (add32 (Ch (w v 4) (w v 5) (w v 6)) k)) wt in
  let t2 := add32 (bsig0 (w v 0)) (Maj (w v 0) (w v 1) (w v 2)) in
  [ add32 t1 t2; w v 0; w v 1; w v 2; add32 (w v 3) t1; w v 4; w v 5; w v 6 ].

(** The 64 rounds; [win] is the sliding window of the last 16 schedule words. *)
Fixpoint rounds (ks : list Z) (win : list Z) (v : list Z) : list Z :=
  match ks with
  | [] => v
  | k :: ks' =>
      let next := add32 (add32 (ssig1 (w win 14)) (w win 9)) (add32 (ssig0 (w win 1)) (w win 0)) in
      rounds ks' (tl win ++ [next]) (round k (w win 0) v)
  end.

Definition compress (blk : list Z) (h : list Z) : list Z :=
  let v := rounds K blk h in
  map (fun p => add32 (fst p) (snd p)) (combine h v).

Fixpoint words (bs : list Z) : list Z :=
  match bs with
  | b0 :: b1 :: b2 :: b3 :: r =>
      (Z.lor (Z.lor (Z.shiftl b0 24) (Z.shiftl b1 16)) (Z.lor (Z.shiftl b2 8) b3)) :: words r
  | _ => []
  end.

Fixpoint blocks (fuel : nat) (ws : list Z) (h : list Z) : list Z :=
  match fuel with
  | O => h
  | S f =>
      match ws with
      | [] => h
      | _ => blocks f (skipn 16 ws) (compress (firstn 16 ws) h)
      end
  end.

Definition be_bytes (n : nat) (x : Z) : list Z :=
  map (fun i => Z.land (Z.shiftr x (8 * Z.of_nat (n - 1 - i))) 0xff) (seq 0 n).

Definition pad (bs : list Z) : list Z :=
  let len := Z.of_nat (length bs) in
  let zeros := Z.to_nat ((55 - len) mod 64) in
  bs ++ [0x80] ++ repeat 0 zeros ++ be_bytes 8 (8 * len).

Definition hex_digit (d : Z) : ascii :=
  ascii_of_nat (Z.to_nat (if d <? 10 then 48 + d else 87 + d)).

Definition hex_byte (b : Z) : string :=
  String (hex_digit (Z.shiftr b 4)) (String (hex_digit (Z.land b 0xf)) EmptyString).

Definition hex_of_bytes (bs : list Z) : string :=
  fold_right (fun b acc => hex_byte b +:+ acc) EmptyString bs.

Definition bytes_of_string (s : string) : list Z :=
  map (fun c => Z.of_nat (nat_of_ascii c)) (list_ascii_of_string s).

Definition sha256_bytes (bs : list Z) : list Z :=
  let ws := words (pad bs) in
  concat (map (be_bytes 4) (blocks (length ws) ws H0)).

End SHA2.

(** [SHA256(s).toString()] *)
Definition SHA256 (s : string) : string :=
  SHA2.hex_of_bytes (SHA2.sha256_bytes (SHA2.bytes_of_string s)).

Example SHA256_abc :
  SHA256 "abc" = "ba7816bf8f01cfea414140de5dae2223b00361a396177a9cb410ff61f20015ad".
Proof. vm_compute. reflexivity. Qed.

Example SHA256_two_blocks :
  SHA256 "aaaaaaaaaaaaaaaaaaaaaaaaaaaaaaaaaaaaaaaaaaaaaaaaaaaaaaaaaaaaaaaaaaaaaaaaaaaaaaaaaaaaaaaaaaaaaaaaaaaa"
  = "2816597888e4a0d3a36b82b83316ab32680eb8f00f8cd3b904d681246d285a0e".
Proof. vm_compute. reflexivity. Qed.

(** ** Dates

    [new Date().getTime().toString().slice(0,-3)] : the clock reading in
    milliseconds, printed, without its last three digits. *)
Definition seconds_string (now : Z) : string := slice_0_neg 3 (Z_toString now).

(** [new Date(v)] for a number [v] ([None] is [NaN]): the time value is [v]
    itself, in MILLISECONDS since the epoch, or [NaN] out of the range of
    dates. *)
Definition new_Date (v : option Z) : option Z :=
  match v with
  | Some t => if Z.abs t <=? 8640000000000000 then Some t else None
  | None => None
  end.

(** [d.getMinutes()] : the minutes of the hour of the local time, where
    [LocalTZA] is the offset of the local time zone in milliseconds. *)
Definition getMinutes (LocalTZA : Z) (d : option Z) : option Z :=
  match d with
  | Some t => Some (((t + LocalTZA) / 60000) mod 60)
  | None => None
  end.

(** [a - b] and [m < 5] on numbers that may be [NaN]. *)
Definition js_sub (a b : option Z) : option Z :=
  match a, b with
  | Some x, Some y => Some (x - y)
  | _, _ => None
  end.

Definition js_lt (m : option Z) (k : Z) : bool :=
  match m with
  | Some x => x <? k
  | None => false
  end.

(** ** Blocks *)

(** Outcome of a promise of a collaborator ([block.validate()],
    [block.getBData()]) that is settled when it is handed out. *)
Inductive Settled (A : Type) : Type :=
| Resolves (a : A)
| Rejects (error : string).
Arguments Resolves {A} a.
Arguments Rejects {A} error.

Module BlockClass.

(** [block.time] is the number 0 until [_addBlock] stores a string in it. *)
Inductive TimeVal : Type :=
| TimeNum (n : Z)
| TimeStr (s : string).

(** Modelled from the spec: the [Block] class of [block.js], which is not
    among the sources.  The fields are those of the Record of the data
    model, under the names [blockchain.js] reads and writes ([hash] the
    digest, [height] the position, [body] the payload, [time] the
    timestamp, [previousBlockHash] the previous digest, [None] being the
    sentinel [null]). *)
Record Block : Type := mkBlock {
  hash : option string;
  height : Z;
  body : string;
  time : TimeVal;
  previousBlockHash : option string
}.

(** Modelled from the spec: the constructor of [block.js] applied to an
    encoded payload; position 0, no digest, sentinel previous digest. *)
Definition new (payload : string) : Block :=
  {| hash := None; height := 0; body := payload; time := TimeNum 0;
     previousBlockHash := None |}.

Definition set_hash (h : option string) (b : Block) : Block :=
  {| hash := h; height := height b; body := body b; time := time b;
     previousBlockHash := previousBlockHash b |}.
Definition set_height (n : Z) (b : Block) : Block :=
  {| hash := hash b; height := n; body := body b; time := time b;
     previousBlockHash := previousBlockHash b |}.
Definition set_time (t : TimeVal) (b : Block) : Block :=
  {| hash := hash b; height := height b; body := body b; time := t;
     previousBlockHash := previousBlockHash b |}.
Definition set_previousBlockHash (h : option string) (b : Block) : Block :=
  {| hash := hash b; height := height b; body := body b; time := time b;
     previousBlockHash := h |}.

End BlockClass.
Import BlockClass (Block, TimeVal, TimeNum, TimeStr).

(** ** [JSON.stringify] of a block *)

Definition json_escape_char (c : ascii) : string :=
  let n := nat_of_ascii c in
  if Nat.eqb n 34 then backslash +:+ dquote
  else if Nat.eqb n 92 then backslash +:+ backslash
  else if Nat.eqb n 8 then backslash +:+ "b"
  else if Nat.eqb n 12 then backslash +:+ "f"
  else if Nat.eqb n 10 then backslash +:+ "n"
  else if Nat.eqb n 13 then backslash +:+ "r"
  else if Nat.eqb n 9 then backslash +:+ "t"
  else if Nat.ltb n 32 then backslash +:+ "u00" +:+ SHA2.hex_byte (Z.of_nat n)
  else String c EmptyString.

Fixpoint json_escape (s : string) : string :=
  match s with
  | EmptyString => EmptyString
  | String c r => json_escape_char c +:+ json_escape r
  end.

Definition json_string (s : string) : string := dquote +:+ json_escape s +:+ dquote.

Definition json_nullable (h : option string) : string :=
  match h with
  | Some s => json_string s
  | None => "null"
  end.

Definition json_time (t : TimeVal) : string :=
  match t with
  | TimeNum n => Z_toString n
  | TimeStr s => json_string s
  end.

Definition json_key (k : string) : string := dquote +:+ k +:+ dquote +:+ ":".

(** [JSON.stringify(block)] : every field of the block, the digest field
    included with the value it has at that moment. *)
Definition JSON_stringify (b : Block) : string :=
  "{" +:+ json_key "hash" +:+ json_nullable (BlockClass.hash b) +:+ ","
      +:+ json_key "height" +:+ Z_toString (BlockClass.height b) +:+ ","
      +:+ json_key "body" +:+ json_string (BlockClass.body b) +:+ ","
      +:+ json_key "time" +:+ json_time (BlockClass.time b) +:+ ","
      +:+ json_key "previousBlockHash" +:+ json_nullable (BlockClass.previousBlockHash b)
      +:+ "}".

(** The Hasher applied to a record without its digest field: the digest of
    the block serialised with [hash] reset to [null]. *)
Definition Hasher (b : Block) : string :=
  SHA256 (JSON_stringify (BlockClass.set_hash None b)).

Definition option_string_eqb (a b : option string) : bool :=
  match a, b with
  | Some x, Some y => String.eqb x y
  | None, None => true
  | _, _ => false
  end.

(** Modelled from the spec: [block.validate()] of [block.js], which is not
    among the sources.  It recomputes the expected digest from the fields of
    the record, the digest excluded, and resolves with whether it equals the
    recorded digest. *)
Definition Block_validate (b : Block) : Settled bool :=
  Resolves (option_string_eqb (BlockClass.hash b) (Some (Hasher b))).

(** ** The store: arrays, promises and the microtask queue *)

(** References to arrays and to promises are positions in the store. *)
Abbreviation aref := nat (only parsing).
Abbreviation pref := nat (only parsing).

(** A star is the opaque JSON text of the [star] object of a submission. *)
Definition Star := string.

Inductive Value : Type :=
| VNull
| VUndefined
| VNum (n : Z)
| VStr (s : string)
| VBlock (b : Block)
| VArr (a : aref).

(** Truthiness of a value, as tested by [x ? _ : _] and [if (x)].  Objects,
    arrays included, are truthy whatever they hold. *)
Definition truthy (v : Value) : bool :=
  match v with
  | VNull | VUndefined => false
  | VNum n => negb (n =? 0)
  | VStr s => negb (String.eqb s EmptyString)
  | VBlock _ | VArr _ => true
  end.

(** The objects pushed on the arrays: an entry of the error log, with its
    [Block's Hash] key when it has one, and an entry of the list of stars. *)
Inductive Entry : Type :=
| ErrorEntry (blocksHash : option (option string)) (error : string)
| StarEntry (owner : string) (star : option Star).

(** What [block.getBData()] resolves with: [null]/[undefined], or a value
    with its [message] when that is a string, and its [star]. *)
Inductive Decoded : Type :=
| DNullish
| DObject (message : option string) (star : option Star).

Inductive PState : Type :=
| Pending
| Fulfilled (v : Value)
| Rejected (v : Value).

(** The callbacks registered by [.then], [.catch] and [await], each with the
    variables it closes over. *)
Inductive Job : Type :=
| ValidateThen (errorLog : aref) (d : pref) (block : Block) (settled : Settled bool)
| ValidateCatch (errorLog : aref) (d : pref) (block : Block)
| AddBlockThen (vp : pref) (block : Block) (outer : pref) (d : pref)
| AddBlockCatch (d : pref) (outer : pref)
| StarsThen (stars : aref) (d : pref) (address : string) (settled : Settled Decoded)
| StarsCatch (d : pref) (outer : pref)
| InitResume (result : pref)
| Observe (p : pref).

Record Promise : Type := mkPromise {
  pstate : PState;
  reactions : list Job
}.

(** What the process writes to its console: the lines of [console.log],
    and the report of an error that nothing catches.  Such an error is
    listed where it is thrown; the host reports it once the microtasks have
    run, and Node since version 15 then ends the process with status 1.
    What the model shows after an [Uncaught] line is what goes on under a
    host that only reports. *)
Inductive LogLine : Type :=
| LogStr (s : string)
| LogBlock (b : Block)
| Uncaught.

(** What a caller's own reaction is handed: arrays are seen with the content
    they have when the reaction runs. *)
Inductive View : Type :=
| ViewNull
| ViewUndefined
| ViewNum (n : Z)
| ViewStr (s : string)
| ViewBlock (b : Block)
| ViewArray (l : list Entry).

Inductive Outcome : Type :=
| ResolvedWith (v : View)
| RejectedWith (v : View).

Record World : Type := mkWorld {
  chain : list Block;            (* this.chain *)
  height : Z;                    (* this.height *)
  arrays : list (list Entry);
  promises : list Promise;
  microtasks : list Job;
  console : list LogLine;
  delivered : list Outcome
}.

Definition set_chain (c : list Block) (h : Z) (w : World) : World :=
  {| chain := c; height := h; arrays := arrays w; promises := promises w;
     microtasks := microtasks w; console := console w; delivered := delivered w |}.
Definition set_arrays (a : list (list Entry)) (w : World) : World :=
  {| chain := chain w; height := height w; arrays := a; promises := promises w;
     microtasks := microtasks w; console := console w; delivered := delivered w |}.
Definition set_promises (ps : list Promise) (w : World) : World :=
  {| chain := chain w; height := height w; arrays := arrays w; promises := ps;
     microtasks := microtasks w; console := console w; delivered := delivered w |}.
Definition set_microtasks (q : list Job) (w : World) : World :=
  {| chain := chain w; height := height w; arrays := arrays w; promises := promises w;
     microtasks := q; console := console w; delivered := delivered w |}.
Definition console_log (l : LogLine) (w : World) : World :=
  {| chain := chain w; height := height w; arrays := arrays w; promises := promises w;
     microtasks := microtasks w; console := console w ++ [l]; delivered := delivered w |}.
Definition deliver (o : Outcome) (w : World) : World :=
  {| chain := chain w; height := height w; arrays := arrays w; promises := promises w;
     microtasks := microtasks w; console := console w; delivered := delivered w ++ [o] |}.

Definition enqueue (j : Job) (w : World) : World :=
  set_microtasks (microtasks w ++ [j]) w.

(** [let a = []] *)
Definition new_array (w : World) : aref * World :=
  (length (arrays w), set_arrays (arrays w ++ [[]]) w).

(** [a.push(e)] *)
Definition array_push (a : aref) (e : Entry) (w : World) : World :=
  match arrays w !! a with
  | Some l => set_arrays (<[a := l ++ [e]]> (arrays w)) w
  | None => w
  end.

(** A new pending promise. *)
Definition new_promise (w : World) : pref * World :=
  (length (promises w), set_promises (promises w ++ [mkPromise Pending []]) w).

Definition state_of (p : pref) (w : World) : PState :=
  match promises w !! p with
  | Some c => pstate c
  | None => Pending
  end.

(** Settling a promise: the first settlement wins and schedules the
    reactions registered so far; later calls of [resolve] or [reject] do
    nothing. *)
Definition settle (p : pref) (st : PState) (w : World) : World :=
  match promises w !! p with
  | Some (mkPromise Pending rs) =>
      set_microtasks (microtasks w ++ rs)
        (set_promises (<[p := mkPromise st []]> (promises w)) w)
  | _ => w
  end.

Definition resolve (p : pref) (v : Value) : World -> World := settle p (Fulfilled v).
Definition reject (p : pref) (v : Value) : World -> World := settle p (Rejected v).

(** Registering a reaction: queued at once on a settled promise, kept with
    the promise while it is pending. *)
Definition then_ (p : pref) (j : Job) (w : World) : World :=
  match promises w !! p with
  | Some (mkPromise Pending rs) =>
      set_promises (<[p := mkPromise Pending (rs ++ [j])]> (promises w)) w
  | Some _ => enqueue j w
  | None => w
  end.

Definition view (w : World) (v : Value) : View :=
  match v with
  | VNull => ViewNull
  | VUndefined => ViewUndefined
  | VNum n => ViewNum n
  | VStr s => ViewStr s
  | VBlock b => ViewBlock b
  | VArr a => ViewArray (default [] (arrays w !! a))
  end.

(** A value inside a template literal. *)
Definition show_nullable (h : option string) : string :=
  match h with
  | Some s => s
  | None => "null"
  end.

Definition show_value (w : World) (v : Value) : string :=
  match v with
  | VNull => "null"
  | VUndefined => "undefined"
  | VNum n => Z_toString n
  | VStr s => s
  | VBlock _ => "[object Object]"
  | VArr a =>
      String.concat "," (map (fun _ => "[object Object]") (default [] (arrays w !! a)))
  end.

(** ** The class [Blockchain] *)

(** [_appendBlockOntoTheChain(block)] *)
Definition _appendBlockOntoTheChain (block : Block) (w : World) : Block * World :=
  let c := chain w ++ [block] in
  let w := set_chain c (Z.of_nat (length c)) w in
  let w := console_log (LogBlock block) w in
  (block, w).

(** [_appendGenesisBlock(block)] *)
Definition _appendGenesisBlock (block : Block) (w : World) : Block * World :=
  let w := console_log (LogStr "Appending Genesis Block") w in
  _appendBlockOntoTheChain block w.

(** [_comparePreviousBlockHash(block, previousBlockHash)] *)
Definition _comparePreviousBlockHash (block : Block) (previousBlockHash : option string) : bool :=
  option_string_eqb (BlockClass.previousBlockHash block) previousBlockHash.

Definition altered_entry (block : Block) : Entry :=
  ErrorEntry (Some (BlockClass.hash block)) "Block's Body has been altered.".

Definition link_entry (block : Block) (previousHash : option string) : Entry :=
  ErrorEntry (Some (BlockClass.hash block))
    ("Hash Not Matching: Previous Hash: " +:+ show_nullable previousHash +:+ " "
       +:+ String (ascii_of_nat 10) EmptyString +:+ " Block Hash "
       +:+ show_nullable (BlockClass.hash block)).

Definition empty_entry : Entry := ErrorEntry None "No Block Present on the Chain.".

(** The callbacks.  A job attached to a promise of the store reads the state
    of that promise when it runs. *)
Definition run_job (j : Job) (w : World) : World :=
  match j with
  | ValidateThen errorLog d block settled =>
      (* block.validate().then((state) => ..., (err) => ...) *)
      match settled with
      | Resolves state =>
          let w := if negb state then array_push errorLog (altered_entry block) w else w in
          resolve d VUndefined w
      | Rejects err =>
          let w := array_push errorLog
                     (ErrorEntry (Some (BlockClass.hash block))
                        ("Block Validation Failed (" +:+ err +:+ ")")) w in
          resolve d (VNum (Z.of_nat (length (default [] (arrays w !! errorLog))))) w
      end
  | ValidateCatch errorLog d block =>
      (* .catch((error) => errorLog.push(...)) *)
      match state_of d w with
      | Rejected error =>
          array_push errorLog
            (ErrorEntry (Some (BlockClass.hash block))
               ("Failed Validating Block (" +:+ show_value w error +:+ ")")) w
      | _ => w
      end
  | AddBlockThen vp block outer d =>
      (* .then((state) => state ? resolve(this._appendBlockOntoTheChain(block))
                                : reject("Chain Invalid")) *)
      match state_of vp w with
      | Fulfilled state =>
          let w :=
            if truthy state
            then let '(b, w) := _appendBlockOntoTheChain block w in resolve outer (VBlock b) w
            else reject outer (VStr "Chain Invalid") w in
          resolve d VUndefined w
      | Rejected error => reject d error w
      | Pending => w
      end
  | AddBlockCatch d outer =>
      (* .catch((error) => reject("Chain Invalid")) *)
      match state_of d w with
      | Rejected _ => reject outer (VStr "Chain Invalid") w
      | _ => w
      end
  | StarsThen stars d address settled =>
      (* block.getBData().then((value) => ..., (error) => console.log(...)) *)
      match settled with
      | Resolves DNullish => resolve d VUndefined w
      | Resolves (DObject None _) =>
          (* value.message has no split: the callback throws *)
          reject d (VStr "TypeError") w
      | Resolves (DObject (Some message) star) =>
          let w :=
            if String.eqb (default EmptyString (split_colon message !! 0%nat)) address
            then array_push stars (StarEntry address star) w
            else w in
          resolve d VUndefined w
      | Rejects error =>
          let w := console_log (LogStr ("Block issue: " +:+ error)) w in
          resolve d VUndefined w
      end
  | StarsCatch d outer =>
      (* .catch(() => reject("Failed.")) *)
      match state_of d w with
      | Rejected _ => reject outer (VStr "Failed.") w
      | _ => w
      end
  | InitResume result =>
      (* the rest of initializeChain after its await: nothing *)
      resolve result VUndefined w
  | Observe p =>
      (* the reaction of the caller of a method *)
      match state_of p w with
      | Fulfilled v => deliver (ResolvedWith (view w v)) w
      | Rejected v => deliver (RejectedWith (view w v)) w
      | Pending => w
      end
  end.

(** The microtask queue is served first in, first out, until it is empty. *)
Fixpoint drain (fuel : nat) (w : World) : World :=
  match fuel with
  | O => w
  | S f =>
      match microtasks w with
      | [] => w
      | j :: q => drain f (run_job j (set_microtasks q w))
      end
  end.

(** The callbacks still to run: those queued, and those registered on
    promises. *)
Definition registered (ps : list Promise) : nat :=
  fold_right (fun c n => (length (reactions c) + n)%nat) O ps.

Definition pending_jobs (w : World) : nat :=
  (length (microtasks w) + registered (promises w))%nat.

Definition run_microtasks (w : World) : World := drain (pending_jobs w) w.

(** [validateChain()] : the loop over the chain.  [block.validate()] hands
    out a settled promise, so its [.then] reaction is queued at once; the
    comparison with the previous hash runs in the loop itself. *)
Fixpoint validateChain_forEach (errorLog : aref) (blocks : list Block)
    (previousHash : option string) (w : World) : World :=
  match blocks with
  | [] => w
  | block :: rest =>
      let '(d, w) := new_promise w in
      let w := enqueue (ValidateThen errorLog d block (Block_validate block)) w in
      let w := then_ d (ValidateCatch errorLog d block) w in
      let w :=
        if negb (_comparePreviousBlockHash block previousHash)
        then array_push errorLog (link_entry block previousHash) w
        else w in
      validateChain_forEach errorLog rest (BlockClass.hash block) w
  end.

(** [validateChain()].  The [Promise.all] around the loop receives
    [[undefined]] and its result is dropped; it is left out. *)
Definition validateChain (w : World) : pref * World :=
  let '(errorLog, w) := new_array w in
  let '(p, w) := new_promise w in
  let w :=
    if (0 <? length (chain w))%nat
    then validateChain_forEach errorLog (chain w) None w
    else array_push errorLog empty_entry w in
  (p, resolve p (VArr errorLog) w).

(** [_addBlock(block)] with the clock reading [now]; [None] is an absent
    ([null]) block.  The block object is changed in place: the second
    component is the block as the caller sees it when the call returns.

    The chain keeps its records as values.  [block] therefore stands for an
    object that neither the chain nor a pending callback holds, as are the
    blocks that [initializeChain] and [submitStar], the two callers of
    [_addBlock] in the class, create for it.  For an object that the chain
    holds already, the assignments below rewrite the stored record as well,
    and the push stores the same object a second time: that case is
    [_addBlock_held] below. *)
Definition _addBlock (block : option Block) (now : Z) (w : World)
    : (pref * option Block) * World :=
  let '(p, w) := new_promise w in
  match block with
  | Some block =>
      let block := BlockClass.set_time (TimeStr (seconds_string now)) block in
      let block := BlockClass.set_hash (Some (SHA256 (JSON_stringify block))) block in
      if (0 <? length (chain w))%nat then
        match last (chain w) with
        | Some previousBlock =>
            let block := BlockClass.set_height (BlockClass.height previousBlock + 1) block in
            let block := BlockClass.set_previousBlockHash (BlockClass.hash previousBlock) block in
            let '(vp, w) := validateChain w in
            let '(d, w) := new_promise w in
            let w := then_ vp (AddBlockThen vp block p d) w in
            let w := then_ d (AddBlockCatch d p) w in
            ((p, Some block), w)
        | None => ((p, Some block), w)
        end
      else
        let '(b, w) := _appendGenesisBlock block w in
        let w :=
          if truthy (VBlock b) then resolve p (VBlock block) w
          else reject p (VStr "Failed to Append Genesis Block") w in
        ((p, Some block), w)
  | None => ((p, None), reject p VNull w)
  end.

(** The assignments of [_addBlock] write into the object it is handed.  When
    the chain holds that object, they change the stored record as well:
    [held] lists the indices at which the chain holds the object, and
    [block] is the record it holds there. *)
Definition write_held (held : list nat) (block : Block) (w : World) : World :=
  set_chain (foldr (fun i c => <[i := block]> c) (chain w) held) (height w) w.

(** [_addBlock(block)] for an object that the chain holds at the indices
    [held].  The tail is read when the time and the digest have been
    written, and is the object itself when the object is the tail; the
    object, not a copy, is pushed.  With no index the object is new, and
    this is [_addBlock].  The values of promises settled earlier are left as
    they were. *)
Definition _addBlock_held (held : list nat) (block : Block) (now : Z) (w : World)
    : (pref * option Block) * World :=
  let '(p, w) := new_promise w in
  let block := BlockClass.set_time (TimeStr (seconds_string now)) block in
  let block := BlockClass.set_hash (Some (SHA256 (JSON_stringify block))) block in
  let w := write_held held block w in
  if (0 <? length (chain w))%nat then
    match last (chain w) with
    | Some previousBlock =>
        let block := BlockClass.set_height (BlockClass.height previousBlock + 1) block in
        let block := BlockClass.set_previousBlockHash (BlockClass.hash previousBlock) block in
        let w := write_held held block w in
        let '(vp, w) := validateChain w in
        let '(d, w) := new_promise w in
        let w := then_ vp (AddBlockThen vp block p d) w in
        let w := then_ d (AddBlockCatch d p) w in
        ((p, Some block), w)
    | None => ((p, Some block), w)
    end
  else
    let '(b, w) := _appendGenesisBlock block w in
    let w :=
      if truthy (VBlock b) then resolve p (VBlock block) w
      else reject p (VStr "Failed to Append Genesis Block") w in
    ((p, Some block), w).

(** [getChainHeight()] *)
Definition getChainHeight (w : World) : pref * World :=
  let '(p, w) := new_promise w in
  (p, resolve p (VNum (height w)) w).

(** [requestMessageOwnershipVerification(address)] *)
Definition requestMessageOwnershipVerification (address : string) (now : Z) (w : World)
    : pref * World :=
  let '(p, w) := new_promise w in
  (p, resolve p (VStr (address +:+ ":" +:+ seconds_string now +:+ ":starRegistry")) w).

(** [getBlockByHash(hash)] *)
Definition getBlockByHash (hash : option string) (w : World) : pref * World :=
  let '(p, w) := new_promise w in
  let foundBlock :=
    find (fun block => option_string_eqb (BlockClass.hash block) hash) (chain w) in
  match foundBlock with
  | Some b => (p, resolve p (VBlock b) w)
  | None => (p, reject p (VStr "Block Not Found.") w)
  end.

(** [getBlockByHeight(height)] *)
Definition getBlockByHeight (height : Z) (w : World) : pref * World :=
  let '(p, w) := new_promise w in
  let block := head (List.filter (fun p => BlockClass.height p =? height) (chain w)) in
  match block with
  | Some b => (p, resolve p (VBlock b) w)
  | None => (p, resolve p VNull w)
  end.

(** The data handed to the constructor of a block: [{data: 'Genesis Block'}]
    or [{message, signature, star}]. *)
Inductive Data : Type :=
| GenesisData
| StarData (message signature : string) (star : option Star).

Section Collaborators.

(** The payload codec of [block.js] (encoding of the data of a block into
    its body, and [getBData], which hands out a settled promise),
    [bitcoinMessage.verify] ([None] when it throws) and the offset of the
    local time zone (the one the host applies to the date that [submitStar]
    builds) are taken as they come. *)
Variable encodeData : Data -> string.
Variable getBData : Block -> Settled Decoded.
Variable bitcoinMessage_verify : string -> string -> string -> option bool.
Variable LocalTZA : Z.

(** [new BlockClass.Block(data)] *)
Definition new_Block (data : Data) : Block := BlockClass.new (encodeData data).

(** [initializeChain()] with the clock reading [now]. *)
Definition initializeChain (now : Z) (w : World) : pref * World :=
  let '(result, w) := new_promise w in
  if height w =? -1 then
    let block := new_Block GenesisData in
    let '((p, _), w) := _addBlock (Some block) now w in
    (result, then_ p (InitResume result) w)
  else (result, resolve result VUndefined w).

(** [new Blockchain()] in a fresh store. *)
Definition constructor (now : Z) : World :=
  let w := {| chain := []; height := -1; arrays := []; promises := [];
              microtasks := []; console := []; delivered := [] |} in
  snd (initializeChain now w).

(** [submitStar(address, message, signature, star)]; [now] is the clock
    reading of [submitStar] and [now'] the later one of [_addBlock].  The
    executor is an [async] function: an error thrown in it rejects the
    promise of that function, which nothing holds, and neither [resolve]
    nor [reject] is called; the error is uncaught. *)
Definition submitStar (address message signature : string) (star : option Star)
    (now now' : Z) (w : World) : pref * World :=
  let '(p, w) := new_promise w in
  let messageTime := parseInt_opt (split_colon message !! 1%nat) in
  let currentTime := parseInt (seconds_string now) in
  match bitcoinMessage_verify message address signature with
  | None => (p, console_log Uncaught w)
  | Some verified =>
      if js_lt (getMinutes LocalTZA (new_Date (js_sub currentTime messageTime))) 5
         && verified
      then
        let newBlock := new_Block (StarData message signature star) in
        let '((_, newBlock'), w) := _addBlock (Some newBlock) now' w in
        (p, resolve p (VBlock (default newBlock newBlock')) w)
      else (p, reject p (VStr "Failed to Submit Star") w)
  end.

(** [getStarsByWalletAddress(address)] : the loop over the chain. *)
Fixpoint getStars_forEach (stars : aref) (outer : pref) (address : string)
    (blocks : list Block) (w : World) : World :=
  match blocks with
  | [] => w
  | block :: rest =>
      let '(d, w) := new_promise w in
      let w := enqueue (StarsThen stars d address (getBData block)) w in
      let w := then_ d (StarsCatch d outer) w in
      getStars_forEach stars outer address rest w
  end.

(** [getStarsByWalletAddress(address)] *)
Definition getStarsByWalletAddress (address : string) (w : World) : pref * World :=
  let '(stars, w) := new_array w in
  let '(p, w) := new_promise w in
  if (0 <? length (chain w))%nat then
    let w := getStars_forEach stars p address (chain w) w in
    (p, resolve p (VArr stars) w)
  else (p, reject p (VStr "Failed.") w).

End Collaborators.

(** ** Callers

    A caller that waits for the promise of a method registers a reaction on
    it when the method returns, and goes on once the microtasks have run. *)
Definition await (call : World -> pref * World) (w : World) : World :=
  let '(p, w) := call w in
  run_microtasks (then_ p (Observe p) w).

(** What the caller was handed by its last [await]. *)
Definition answer (w : World) : option Outcome := last (delivered w).

(** [await _addBlock(block)] *)
Definition append (block : option Block) (now : Z) (w : World) : World :=
  await (fun w => let '((p, _), w) := _addBlock block now w in (p, w)) w.

(** [await _addBlock(block)] for such an object. *)
Definition append_held (held : list nat) (block : Block) (now : Z) (w : World) : World :=
  await (fun w => let '((p, _), w) := _addBlock_held held block now w in (p, w)) w.

(** * Properties *)

(** ** The microtask queue *)

(** Running a list of jobs one after the other. *)
Definition run_jobs (js : list Job) (w : World) : World :=
  fold_left (fun w j => run_job j w) js w.

(** [q] in front of the queue. *)
Definition prepend (q : list Job) (w : World) : World :=
  set_microtasks (q ++ microtasks w) w.

Lemma drain_nil n w : microtasks w = [] -> drain n w = w.
Proof. destruct n; simpl; intros H; [reflexivity | now rewrite H]. Qed.

Lemma drain_add n m w : drain (n + m) w = drain m (drain n w).
Proof.
  revert w. induction n as [|n IH]; intros w; simpl; [reflexivity|].
  destruct (microtasks w) eqn:E.
  - symmetry. now apply drain_nil.
  - apply IH.
Qed.

Lemma drain_stable n m w :
  microtasks (drain n w) = [] -> (n <= m)%nat -> drain m w = drain n w.
Proof.
  intros H Hle. replace m with (n + (m - n))%nat by lia.
  rewrite drain_add. now apply drain_nil.
Qed.

Lemma drain_agree n m w :
  microtasks (drain n w) = [] -> microtasks (drain m w) = [] -> drain n w = drain m w.
Proof.
  intros Hn Hm. destruct (Nat.le_ge_cases n m).
  - symmetry. now apply drain_stable.
  - now apply drain_stable.
Qed.

(** A job never reads the queue, it only adds to its end. *)
Lemma settle_prepend p st q w : settle p st (prepend q w) = prepend q (settle p st w).
Proof.
  destruct w as [c h A P Q Co D]. unfold settle, prepend, set_microtasks, set_promises; simpl.
  destruct (P !! p) as [[[] rs]|]; simpl; try reflexivity.
  now rewrite app_assoc.
Qed.

Lemma array_push_prepend a e q w :
  array_push a e (prepend q w) = prepend q (array_push a e w).
Proof.
  destruct w as [c h A P Q Co D]. unfold array_push, prepend, set_microtasks, set_arrays; simpl.
  now destruct (A !! a).
Qed.

Lemma state_of_prepend p q w : state_of p (prepend q w) = state_of p w.
Proof. reflexivity. Qed.

Lemma run_job_prepend j q w : run_job j (prepend q w) = prepend q (run_job j w).
Proof.
  destruct j; simpl; unfold resolve, reject.
  - destruct settled as [[]|]; simpl;
      rewrite ?array_push_prepend, ?settle_prepend; reflexivity.
  - rewrite state_of_prepend. destruct (state_of d w); try reflexivity.
    now rewrite array_push_prepend.
  - rewrite state_of_prepend. destruct (state_of vp w); try reflexivity.
    + destruct (truthy v); simpl.
      * change (console_log (LogBlock block)
                  (set_chain (chain w ++ [block]) (Z.of_nat (length (chain w ++ [block])))
                     (prepend q w)))
          with (prepend q (console_log (LogBlock block)
                  (set_chain (chain w ++ [block]) (Z.of_nat (length (chain w ++ [block]))) w))).
        now rewrite !settle_prepend.
      * now rewrite !settle_prepend.
    + now rewrite settle_prepend.
  - rewrite state_of_prepend. destruct (state_of d w); try reflexivity.
    now rewrite settle_prepend.
  - destruct settled as [[|[m|] st]|]; simpl.
    + now rewrite settle_prepend.
    + destruct (String.eqb _ address);
        rewrite ?array_push_prepend, ?settle_prepend; reflexivity.
    + now rewrite settle_prepend.
    + change (console_log (LogStr ("Block issue: " +:+ error)) (prepend q w))
        with (prepend q (console_log (LogStr ("Block issue: " +:+ error)) w)).
      now rewrite settle_prepend.
  - rewrite state_of_prepend. destruct (state_of d w); try reflexivity.
    now rewrite settle_prepend.
  - now rewrite settle_prepend.
  - rewrite state_of_prepend. destruct (state_of p w); reflexivity.
Qed.

(** Serving the jobs at the head of the queue is running them in order. *)
Lemma drain_prepend js w : drain (length js) (prepend js w) = run_jobs js w.
Proof.
  revert w. induction js as [|j js IH]; intros w.
  - simpl. destruct w; reflexivity.
  - cbn [length drain]. unfold prepend at 1. cbn [microtasks set_microtasks app].
    change (set_microtasks (js ++ microtasks w) _) with (prepend js w).
    rewrite run_job_prepend, IH. reflexivity.
Qed.

Lemma run_jobs_app js1 js2 w : run_jobs (js1 ++ js2) w = run_jobs js2 (run_jobs js1 w).
Proof. unfold run_jobs. apply fold_left_app. Qed.

(** Every job runs at most once: the number of callbacks still to run goes
    down with each microtask, so the queue empties. *)
Lemma registered_app ps qs : registered (ps ++ qs) = (registered ps + registered qs)%nat.
Proof. induction ps as [|c ps IH]; simpl; [reflexivity | rewrite IH; lia]. Qed.

Lemma registered_insert ps p c c' :
  ps !! p = Some c ->
  (registered (<[p := c']> ps) + length (reactions c))%nat
  = (registered ps + length (reactions c'))%nat.
Proof.
  revert p. induction ps as [|x ps IH]; intros [|p] H; simpl in *; try discriminate.
  - injection H as ->. lia.
  - specialize (IH p H). lia.
Qed.

Lemma pending_jobs_settle p st w : pending_jobs (settle p st w) = pending_jobs w.
Proof.
  destruct w as [c h A P Q Co D]. unfold settle, pending_jobs; simpl.
  destruct (P !! p) as [[[] rs]|] eqn:E; simpl; try reflexivity.
  pose proof (registered_insert P p _ (mkPromise st []) E) as H; simpl in H.
  rewrite length_app. lia.
Qed.

Lemma pending_jobs_array_push a e w : pending_jobs (array_push a e w) = pending_jobs w.
Proof. unfold array_push. now destruct (arrays w !! a). Qed.

Lemma pending_jobs_run_job j w : pending_jobs (run_job j w) = pending_jobs w.
Proof.
  destruct j; simpl; unfold resolve, reject.
  - destruct settled as [[]|]; simpl;
      rewrite ?pending_jobs_settle, ?pending_jobs_array_push; reflexivity.
  - destruct (state_of d w); rewrite ?pending_jobs_array_push; reflexivity.
  - destruct (state_of vp w); try reflexivity.
    + destruct (truthy v); simpl; now rewrite !pending_jobs_settle.
    + now rewrite pending_jobs_settle.
  - destruct (state_of d w); rewrite ?pending_jobs_settle; reflexivity.
  - destruct settled as [[|[m|] st]|]; simpl; rewrite ?pending_jobs_settle; try reflexivity.
    destruct (String.eqb _ address); rewrite ?pending_jobs_array_push; reflexivity.
  - destruct (state_of d w); rewrite ?pending_jobs_settle; reflexivity.
  - now rewrite pending_jobs_settle.
  - destruct (state_of p w); reflexivity.
Qed.

Lemma drain_terminates n w : (pending_jobs w <= n)%nat -> microtasks (drain n w) = [].
Proof.
  revert w. induction n as [|n IH]; intros w H; simpl.
  - unfold pending_jobs in H. destruct (microtasks w); [reflexivity | simpl in H; lia].
  - destruct (microtasks w) as [|j q] eqn:E; [assumption|].
    apply IH. rewrite pending_jobs_run_job.
    unfold pending_jobs in *. rewrite E in H. simpl in *. lia.
Qed.

Lemma run_microtasks_quiescent w : microtasks (run_microtasks w) = [].
Proof. unfold run_microtasks. now apply drain_terminates. Qed.

(** Whatever number of steps empties the queue gives the world that
    [run_microtasks] gives. *)
Lemma run_microtasks_eq n w :
  microtasks (drain n w) = [] -> run_microtasks w = drain n w.
Proof.
  intros H. unfold run_microtasks. apply drain_agree; [|assumption].
  now apply drain_terminates.
Qed.

(** ** Closed forms of what the loops leave behind *)

Arguments SHA256 : simpl never.
Arguments JSON_stringify : simpl never.
Arguments Hasher : simpl never.

(** The recorded digest of a block is the Hasher of its other fields. *)
Definition digest_ok (b : Block) : bool :=
  option_string_eqb (BlockClass.hash b) (Some (Hasher b)).

Fixpoint validate_thens (a base : nat) (blocks : list Block) : list Job :=
  match blocks with
  | [] => []
  | b :: r => ValidateThen a base b (Block_validate b) :: validate_thens a (S base) r
  end.

Fixpoint validate_catches (a base : nat) (blocks : list Block) : list Job :=
  match blocks with
  | [] => []
  | b :: r => ValidateCatch a base b :: validate_catches a (S base) r
  end.

Definition pending_on (j : Job) : Promise := mkPromise Pending [j].
Definition done : Promise := mkPromise (Fulfilled VUndefined) [].

(** The findings on the links, in the order of the chain. *)
Fixpoint link_entries (blocks : list Block) (previousHash : option string) : list Entry :=
  match blocks with
  | [] => []
  | b :: r =>
      (if _comparePreviousBlockHash b previousHash then [] else [link_entry b previousHash])
        ++ link_entries r (BlockClass.hash b)
  end.

(** The findings on the bodies, in the order of the chain. *)
Fixpoint altered_entries (blocks : list Block) : list Entry :=
  match blocks with
  | [] => []
  | b :: r => (if digest_ok b then [] else [altered_entry b]) ++ altered_entries r
  end.

(** The error log once every callback has run. *)
Definition findings (c : list Block) : list Entry :=
  match c with
  | [] => [empty_entry]
  | _ => link_entries c None ++ altered_entries c
  end.

Lemma length_validate_thens a base blocks :
  length (validate_thens a base blocks) = length blocks.
Proof. revert base. induction blocks; intros; simpl; auto. Qed.

Lemma length_validate_catches a base blocks :
  length (validate_catches a base blocks) = length blocks.
Proof. revert base. induction blocks; intros; simpl; auto. Qed.

(** ** The primitives on an explicit world *)

Ltac world_simpl :=
  unfold new_array, new_promise, enqueue, console_log, deliver,
    set_chain, set_arrays, set_promises, set_microtasks;
  cbn [chain height arrays promises microtasks console delivered fst snd].

Lemma insert_middle {A} (l1 l2 : list A) (x y : A) :
  <[length l1 := y]> (l1 ++ x :: l2) = l1 ++ y :: l2.
Proof.
  rewrite <- (Nat.add_0_r (length l1)) at 1. now rewrite insert_app_r.
Qed.

Lemma lookup_middle {A} (l1 l2 : list A) (x : A) : (l1 ++ x :: l2) !! length l1 = Some x.
Proof. now apply list_lookup_middle. Qed.

Lemma settle_pending p st rs c h A P Q Co D :
  P !! p = Some (mkPromise Pending rs) ->
  settle p st (mkWorld c h A P Q Co D)
  = mkWorld c h A (<[p := mkPromise st []]> P) (Q ++ rs) Co D.
Proof. intros H. unfold settle; simpl. now rewrite H. Qed.

Lemma settle_settled p st st' rs w :
  promises w !! p = Some (mkPromise st' rs) -> st' <> Pending -> settle p st w = w.
Proof. intros H Hne. unfold settle. rewrite H. now destruct st'. Qed.

Lemma then_pending p j rs c h A P Q Co D :
  P !! p = Some (mkPromise Pending rs) ->
  then_ p j (mkWorld c h A P Q Co D)
  = mkWorld c h A (<[p := mkPromise Pending (rs ++ [j])]> P) Q Co D.
Proof. intros H. unfold then_; simpl. now rewrite H. Qed.

Lemma then_settled p j st rs c h A P Q Co D :
  P !! p = Some (mkPromise st rs) -> st <> Pending ->
  then_ p j (mkWorld c h A P Q Co D) = mkWorld c h A P (Q ++ [j]) Co D.
Proof. intros H Hne. unfold then_; simpl. rewrite H. now destruct st. Qed.

Lemma array_push_eq a e L c h A P Q Co D :
  A !! a = Some L ->
  array_push a e (mkWorld c h A P Q Co D) = mkWorld c h (<[a := L ++ [e]]> A) P Q Co D.
Proof. intros H. unfold array_push; simpl. now rewrite H. Qed.

Lemma state_of_eq p st rs w :
  promises w !! p = Some (mkPromise st rs) -> state_of p w = st.
Proof. intros H. unfold state_of. now rewrite H. Qed.

(** ** [validateChain] *)

Lemma validateChain_forEach_eq blocks : forall previousHash a L c h A P Q Co D,
  A !! a = Some L ->
  validateChain_forEach a blocks previousHash (mkWorld c h A P Q Co D)
  = mkWorld c h (<[a := L ++ link_entries blocks previousHash]> A)
      (P ++ map pending_on (validate_catches a (length P) blocks))
      (Q ++ validate_thens a (length P) blocks) Co D.
Proof.
  induction blocks as [|b r IH]; intros previousHash a L c h A P Q Co D HA.
  - simpl. rewrite !app_nil_r. now rewrite list_insert_id.
  - cbn [validateChain_forEach]. world_simpl.
    rewrite (then_pending _ _ []) by apply lookup_middle.
    rewrite insert_middle. cbn [app].
    destruct (_comparePreviousBlockHash b previousHash) eqn:E; cbn [negb].
    + rewrite (IH _ _ L) by assumption.
      cbn [link_entries validate_catches validate_thens map]. rewrite E.
      rewrite length_app. cbn [length]. rewrite Nat.add_1_r.
      now rewrite <- !app_assoc.
    + rewrite (array_push_eq _ _ L) by assumption.
      rewrite (IH _ _ (L ++ [link_entry b previousHash])).
      2:{ apply list_lookup_insert_eq. now apply lookup_lt_Some in HA. }
      cbn [link_entries validate_catches validate_thens map]. rewrite E.
      rewrite list_insert_insert_eq.
      rewrite length_app. cbn [length]. rewrite Nat.add_1_r.
      now rewrite <- !app_assoc.
Qed.

Lemma validateChain_eq c h A P Q Co D :
  validateChain (mkWorld c h A P Q Co D)
  = (length P,
     mkWorld c h
       (A ++ [match c with [] => [empty_entry] | _ => link_entries c None end])
       (P ++ mkPromise (Fulfilled (VArr (length A))) []
          :: map pending_on (validate_catches (length A) (S (length P)) c))
       (Q ++ validate_thens (length A) (S (length P)) c) Co D).
Proof.
  unfold validateChain. world_simpl.
  destruct c as [|b r].
  - cbn [length Nat.ltb Nat.leb].
    rewrite (array_push_eq _ _ []) by apply lookup_middle.
    rewrite insert_middle. unfold resolve.
    rewrite (settle_pending _ _ []) by apply lookup_middle.
    rewrite insert_middle. cbn. now rewrite !app_nil_r.
  - replace (0 <? length (b :: r))%nat with true by reflexivity.
    rewrite (validateChain_forEach_eq _ _ _ []) by apply lookup_middle.
    rewrite insert_middle. unfold resolve.
    rewrite length_app. cbn [length]. rewrite Nat.add_1_r.
    rewrite <- app_assoc. cbn [app].
    rewrite (settle_pending _ _ []) by apply lookup_middle.
    rewrite insert_middle. now rewrite !app_nil_r.
Qed.

Lemma app_cons_snoc {A} (l1 l2 : list A) (x : A) : l1 ++ x :: l2 = (l1 ++ [x]) ++ l2.
Proof. now rewrite <- app_assoc. Qed.

Lemma run_validate_thens blocks : forall a L c h A P T Q Co D,
  A !! a = Some L ->
  run_jobs (validate_thens a (length P) blocks)
    (mkWorld c h A (P ++ map pending_on (validate_catches a (length P) blocks) ++ T) Q Co D)
  = mkWorld c h (<[a := L ++ altered_entries blocks]> A)
      (P ++ map (fun _ => done) blocks ++ T)
      (Q ++ validate_catches a (length P) blocks) Co D.
Proof.
  induction blocks as [|b r IH]; intros a L c h A P T Q Co D HA.
  - simpl. rewrite !app_nil_r. now rewrite list_insert_id.
  - cbn [validate_thens validate_catches map run_jobs fold_left app].
    change (fold_left (fun w j => run_job j w) ?js ?w) with (run_jobs js w).
    assert (Hlen : length (P ++ [done]) = S (length P))
      by (rewrite length_app; simpl; lia).
    unfold run_job, Block_validate. fold (digest_ok b). unfold resolve.
    destruct (digest_ok b) eqn:E; cbn [negb].
    + rewrite (settle_pending _ _ [ValidateCatch a (length P) b]) by apply lookup_middle.
      rewrite insert_middle. fold done.
      rewrite (app_cons_snoc P _ done), <- Hlen.
      rewrite (IH _ L) by assumption.
      cbn [altered_entries]. rewrite E, Hlen.
      now rewrite <- !app_assoc.
    + rewrite (array_push_eq _ _ L) by assumption.
      rewrite (settle_pending _ _ [ValidateCatch a (length P) b]) by apply lookup_middle.
      rewrite insert_middle. fold done.
      rewrite (app_cons_snoc P _ done), <- Hlen.
      rewrite (IH _ (L ++ [altered_entry b])).
      2:{ apply list_lookup_insert_eq. now apply lookup_lt_Some in HA. }
      cbn [altered_entries]. rewrite E, Hlen, list_insert_insert_eq.
      now rewrite <- !app_assoc.
Qed.

(** The [.catch] callbacks of the loop find their promise fulfilled and do
    nothing. *)
Lemma run_validate_catches blocks : forall a c h A P T Q Co D,
  run_jobs (validate_catches a (length P) blocks)
    (mkWorld c h A (P ++ map (fun _ => done) blocks ++ T) Q Co D)
  = mkWorld c h A (P ++ map (fun _ => done) blocks ++ T) Q Co D.
Proof.
  induction blocks as [|b r IH]; intros a c h A P T Q Co D; [reflexivity|].
  cbn [validate_catches map run_jobs fold_left app].
  change (fold_left (fun w j => run_job j w) ?js ?w) with (run_jobs js w).
  unfold run_job. rewrite (state_of_eq _ (Fulfilled VUndefined) []) by apply lookup_middle.
  assert (Hlen : length (P ++ [done]) = S (length P))
    by (rewrite length_app; simpl; lia).
  rewrite (app_cons_snoc P _ done), <- Hlen, IH. reflexivity.
Qed.

Lemma drain_all js c h A P Co D :
  drain (length js) (mkWorld c h A P js Co D) = run_jobs js (mkWorld c h A P [] Co D).
Proof. rewrite <- drain_prepend. unfold prepend; simpl. now rewrite app_nil_r. Qed.

(** A caller of [validateChain()] that waits for the result, in a world with
    no microtask pending: the log it is handed holds the findings on the
    links followed by the findings on the bodies. *)
Lemma await_validateChain c h A P Co D :
  await validateChain (mkWorld c h A P [] Co D)
  = mkWorld c h (A ++ [findings c])
      (P ++ mkPromise (Fulfilled (VArr (length A))) [] :: map (fun _ => done) c) []
      Co (D ++ [ResolvedWith (ViewArray (findings c))]).
Proof.
  unfold await. rewrite validateChain_eq. cbn [app].
  rewrite (then_settled _ _ (Fulfilled (VArr (length A))) []);
    [| apply lookup_middle | discriminate].
  set (thens := validate_thens (length A) (S (length P)) c).
  set (fin := mkPromise (Fulfilled (VArr (length A))) []).
  assert (Hlen : length (P ++ [fin]) = S (length P))
    by (rewrite length_app; simpl; lia).
  assert (Hfind : (match c with [] => [empty_entry] | _ => link_entries c None end)
                    ++ altered_entries c = findings c)
    by (destruct c; reflexivity).
  match goal with |- run_microtasks ?w = ?w' =>
    assert (Hd : drain (length (thens ++ [Observe (length P)]) + length c) w = w')
  end.
  { rewrite drain_add.
    rewrite drain_all, run_jobs_app. subst thens.
    rewrite (app_cons_snoc P _ fin), <- Hlen.
    rewrite <- (app_nil_r (map pending_on _)).
    rewrite (run_validate_thens _ _ _ _ _ _ _ [] _ _ _ (lookup_middle A [] _)).
    rewrite insert_middle, Hfind, Hlen, app_nil_r, <- app_assoc. cbn [app].
    cbn [run_jobs fold_left run_job].
    rewrite (state_of_eq _ (Fulfilled (VArr (length A))) []) by apply lookup_middle.
    world_simpl. cbn [view arrays]. rewrite lookup_middle. cbn [default].
    rewrite <- (length_validate_catches (length A) (S (length P)) c).
    rewrite drain_all.
    rewrite (app_cons_snoc P _ fin), <- Hlen, <- (app_nil_r (map _ c)).
    rewrite run_validate_catches. reflexivity. }
  erewrite run_microtasks_eq; [exact Hd | now rewrite Hd].
Qed.

(** ** [_addBlock] *)

(** The block once [_addBlock] has stored the time and the digest in it:
    the digest is taken over the block as submitted, with its time. *)
Definition stamped (block : Block) (now : Z) : Block :=
  let block := BlockClass.set_time (TimeStr (seconds_string now)) block in
  BlockClass.set_hash (Some (SHA256 (JSON_stringify block))) block.

(** The block once [_addBlock] has then stored its position and the digest
    of the tail of the chain in it. *)
Definition linked (previousBlock block : Block) (now : Z) : Block :=
  BlockClass.set_previousBlockHash (BlockClass.hash previousBlock)
    (BlockClass.set_height (BlockClass.height previousBlock + 1) (stamped block now)).

Lemma insert_at {A} (l1 l2 : list A) (x y : A) n :
  n = length l1 -> <[n := y]> (l1 ++ x :: l2) = l1 ++ y :: l2.
Proof. intros ->. apply insert_middle. Qed.

Ltac solve_length :=
  rewrite ?length_app, ?length_cons, ?length_map, ?length_validate_catches,
    ?length_validate_thens; cbn [length]; lia.

Lemma _addBlock_absent now c h A P Q Co D :
  _addBlock None now (mkWorld c h A P Q Co D)
  = ((length P, None), mkWorld c h A (P ++ [mkPromise (Rejected VNull) []]) Q Co D).
Proof.
  unfold _addBlock, reject. world_simpl.
  rewrite (settle_pending _ _ []) by apply lookup_middle.
  now rewrite insert_middle, app_nil_r.
Qed.

Lemma _addBlock_genesis block now h A P Q Co D :
  _addBlock (Some block) now (mkWorld [] h A P Q Co D)
  = ((length P, Some (stamped block now)),
     mkWorld [stamped block now] 1 A
       (P ++ [mkPromise (Fulfilled (VBlock (stamped block now))) []]) Q
       (Co ++ [LogStr "Appending Genesis Block"; LogBlock (stamped block now)]) D).
Proof.
  unfold _addBlock, _appendGenesisBlock, _appendBlockOntoTheChain, resolve. world_simpl.
  cbn [length Nat.ltb Nat.leb truthy app].
  rewrite (settle_pending _ _ []) by apply lookup_middle.
  rewrite insert_middle, app_nil_r, <- app_assoc. reflexivity.
Qed.

Lemma _addBlock_linked block now c previousBlock h A P Q Co D :
  last c = Some previousBlock ->
  let b := linked previousBlock block now in
  let d := (length P + 2 + length c)%nat in
  _addBlock (Some block) now (mkWorld c h A P Q Co D)
  = ((length P, Some b),
     mkWorld c h (A ++ [link_entries c None])
       (P ++ mkPromise Pending []
          :: mkPromise (Fulfilled (VArr (length A))) []
          :: map pending_on (validate_catches (length A) (S (S (length P))) c)
          ++ [pending_on (AddBlockCatch d (length P))])
       (Q ++ validate_thens (length A) (S (S (length P))) c
          ++ [AddBlockThen (S (length P)) b (length P) d]) Co D).
Proof.
  intros Hlast b d.
  assert (Hc : (0 <? length c)%nat = true).
  { destruct c; [discriminate | reflexivity]. }
  unfold _addBlock. world_simpl. rewrite Hc, Hlast.
  rewrite validateChain_eq. world_simpl.
  assert (Hd : length ((P ++ [mkPromise Pending []])
                 ++ mkPromise (Fulfilled (VArr (length A))) []
                 :: map pending_on
                      (validate_catches (length A) (S (length (P ++ [mkPromise Pending []]))) c))
               = d) by (unfold d; solve_length).
  rewrite Hd.
  assert (HP : length (P ++ [mkPromise Pending []]) = S (length P)) by solve_length.
  rewrite HP.
  rewrite (then_settled (S (length P)) _ (Fulfilled (VArr (length A))) []);
    [| apply lookup_app_l_Some; rewrite <- HP; apply lookup_middle | discriminate].
  rewrite (then_pending d _ []) by (apply list_lookup_middle; unfold d; solve_length).
  rewrite insert_at by (unfold d; solve_length).
  fold b. destruct c as [|x c']; [discriminate|].
  f_equal. f_equal.
  - now rewrite <- !app_assoc.
  - now rewrite <- app_assoc.
Qed.

(** [await _addBlock(null)] : rejected with the absent block, nothing else
    changes. *)
Lemma append_absent now c h A P Co D :
  append None now (mkWorld c h A P [] Co D)
  = mkWorld c h A (P ++ [mkPromise (Rejected VNull) []]) [] Co
      (D ++ [RejectedWith ViewNull]).
Proof.
  unfold append, await. rewrite _addBlock_absent.
  rewrite (then_settled _ _ (Rejected VNull) []); [| apply lookup_middle | discriminate].
  erewrite (run_microtasks_eq 1); [| cbn [app drain microtasks]; world_simpl ].
  - cbn [app drain microtasks run_job]. world_simpl.
    rewrite (state_of_eq _ (Rejected VNull) []) by apply lookup_middle. reflexivity.
  - cbn [run_job].
    rewrite (state_of_eq _ (Rejected VNull) []) by apply lookup_middle. reflexivity.
Qed.

(** [await _addBlock(block)] on the empty chain. *)
Lemma append_genesis block now h A P Co D :
  append (Some block) now (mkWorld [] h A P [] Co D)
  = mkWorld [stamped block now] 1 A
      (P ++ [mkPromise (Fulfilled (VBlock (stamped block now))) []]) []
      (Co ++ [LogStr "Appending Genesis Block"; LogBlock (stamped block now)])
      (D ++ [ResolvedWith (ViewBlock (stamped block now))]).
Proof.
  unfold append, await. rewrite _addBlock_genesis.
  rewrite (then_settled _ _ (Fulfilled (VBlock (stamped block now))) []);
    [| apply lookup_middle | discriminate].
  erewrite (run_microtasks_eq 1); [| cbn [app drain microtasks]; world_simpl ].
  - cbn [app drain microtasks run_job]. world_simpl.
    rewrite (state_of_eq _ (Fulfilled (VBlock (stamped block now))) [])
      by apply lookup_middle. reflexivity.
  - cbn [run_job].
    rewrite (state_of_eq _ (Fulfilled (VBlock (stamped block now))) [])
      by apply lookup_middle. reflexivity.
Qed.

(** [await _addBlock(block)] on a chain with tail [previousBlock]: the whole
    chain is validated, then the block is pushed whatever was found. *)
Lemma append_linked block now c previousBlock h A P Co D :
  last c = Some previousBlock ->
  let b := linked previousBlock block now in
  append (Some block) now (mkWorld c h A P [] Co D)
  = mkWorld (c ++ [b]) (Z.of_nat (length (c ++ [b]))) (A ++ [findings c])
      (P ++ mkPromise (Fulfilled (VBlock b)) []
         :: mkPromise (Fulfilled (VArr (length A))) []
         :: map (fun _ => done) c ++ [done]) []
      (Co ++ [LogBlock b]) (D ++ [ResolvedWith (ViewBlock b)]).
Proof.
  intros Hlast b. unfold append, await.
  rewrite (_addBlock_linked _ _ _ _ _ _ _ _ _ _ Hlast). fold b.
  set (d := (length P + 2 + length c)%nat).
  set (a := length A).
  set (fin := mkPromise (Fulfilled (VArr a)) []).
  rewrite (then_pending _ _ []) by apply lookup_middle.
  rewrite insert_middle. cbn [app]. fold (pending_on (Observe (length P))).
  set (obs := pending_on (Observe (length P))).
  set (thens := validate_thens a (S (S (length P))) c).
  set (catches := validate_catches a (S (S (length P))) c).
  assert (Hfind : link_entries c None ++ altered_entries c = findings c)
    by (destruct c; [discriminate | reflexivity]).
  assert (Hlen : length (P ++ [obs; fin]) = S (S (length P))) by solve_length.
  assert (Hpre : forall X : list Promise, P ++ obs :: fin :: X = (P ++ [obs; fin]) ++ X)
    by (intros X; now rewrite <- app_assoc).
  match goal with |- run_microtasks ?w = ?w' =>
    assert (Hd : drain
                   (length (thens ++ [AddBlockThen (S (length P)) b (length P) d])
                    + length (catches ++ [Observe (length P); AddBlockCatch d (length P)]))
                   w = w')
  end.
  { rewrite drain_add, drain_all, run_jobs_app. subst thens catches.
    rewrite Hpre, <- Hlen.
    rewrite (run_validate_thens _ _ _ _ _ _ _ _ _ _ _ (lookup_middle A [] _)).
    rewrite insert_middle, Hfind, Hlen. cbn [app].
    (* the reaction on the promise of validateChain *)
    cbn [run_jobs fold_left]. unfold run_job at 1.
    rewrite (state_of_eq (S (length P)) (Fulfilled (VArr a)) []).
    2:{ cbn [promises]. rewrite <- app_assoc. cbn [app].
        rewrite (app_cons_snoc P _ obs).
        apply list_lookup_middle. solve_length. }
    cbn [truthy]. unfold _appendBlockOntoTheChain, resolve. world_simpl.
    rewrite <- app_assoc. cbn [app].
    rewrite (settle_pending _ _ [Observe (length P)]) by apply lookup_middle.
    rewrite insert_middle.
    rewrite (settle_pending d _ [AddBlockCatch d (length P)]).
    2:{ rewrite (app_cons_snoc P _ (mkPromise (Fulfilled (VBlock b)) [])).
        rewrite (app_cons_snoc _ _ fin), app_assoc.
        apply list_lookup_middle. unfold d. solve_length. }
    rewrite (app_cons_snoc P _ (mkPromise (Fulfilled (VBlock b)) [])).
    rewrite (app_cons_snoc _ _ fin), app_assoc.
    rewrite insert_at by (unfold d; solve_length).
    fold done.
    (* the remaining callbacks *)
    rewrite <- !app_assoc. cbn [app].
    rewrite drain_all, run_jobs_app.
    rewrite (app_cons_snoc P _ (mkPromise (Fulfilled (VBlock b)) [])).
    rewrite (app_cons_snoc _ _ fin).
    assert (Hlen' : length ((P ++ [mkPromise (Fulfilled (VBlock b)) []]) ++ [fin])
                    = S (S (length P))) by solve_length.
    rewrite <- Hlen', run_validate_catches.
    cbn [run_jobs fold_left run_job].
    rewrite (state_of_eq (length P) (Fulfilled (VBlock b)) []).
    2:{ cbn [promises]. rewrite <- !app_assoc. cbn [app]. apply lookup_middle. }
    world_simpl. cbn [view].
    rewrite (state_of_eq d (Fulfilled VUndefined) []).
    2:{ cbn [promises]. rewrite app_assoc.
        apply list_lookup_middle. unfold d. solve_length. }
    rewrite <- !app_assoc. reflexivity. }
  erewrite run_microtasks_eq; [exact Hd | now rewrite Hd].
Qed.

(** ** Ledgers built by callers that wait for each call *)

Lemma option_string_eqb_eq a b : option_string_eqb a b = true <-> a = b.
Proof.
  destruct a as [x|], b as [y|]; simpl; split; intros H;
    try discriminate; try reflexivity.
  - apply String.eqb_eq in H. now subst.
  - injection H as ->. apply String.eqb_refl.
Qed.

(** The digest the link check expects after the blocks [c]. *)
Definition tail_hash (c : list Block) (previousHash : option string) : option string :=
  match last c with
  | Some b => BlockClass.hash b
  | None => previousHash
  end.

Lemma link_entries_snoc c : forall previousHash x,
  link_entries (c ++ [x]) previousHash
  = link_entries c previousHash
      ++ (if _comparePreviousBlockHash x (tail_hash c previousHash) then []
          else [link_entry x (tail_hash c previousHash)]).
Proof.
  induction c as [|b r IH]; intros previousHash x.
  - simpl. now rewrite app_nil_r.
  - cbn [app link_entries]. rewrite IH, <- app_assoc.
    unfold tail_hash. change (b :: r) with ([b] ++ r).
    destruct r as [|b' r']; [reflexivity|].
    rewrite (last_app_cons [b]), (last_cons b'). now destruct (last r').
Qed.

(** The consistency of a ledger: positions count from 0, and every record
    names the digest of the one before, the first one the sentinel. *)
Record ledger_ok (w : World) : Prop := mk_ledger_ok {
  ok_quiet : microtasks w = [];
  ok_nonempty : chain w <> [];
  ok_height : height w = Z.of_nat (length (chain w));
  ok_positions : forall i b, chain w !! i = Some b -> BlockClass.height b = Z.of_nat i;
  ok_links : link_entries (chain w) None = []
}.

Lemma last_is_Some {A} (l : list A) : l <> [] -> exists x, last l = Some x.
Proof.
  intros H. destruct (last l) eqn:E; [eauto|].
  apply last_None in E. contradiction.
Qed.

Lemma ledger_ok_append block now w :
  ledger_ok w -> ledger_ok (append block now w).
Proof.
  intros [Hq Hne Hh Hpos Hlink]. destruct w as [c h A P Q Co D]. simpl in *. subst Q.
  destruct block as [block|].
  - destruct (last_is_Some c Hne) as [previousBlock Hlast].
    rewrite (append_linked _ _ _ _ _ _ _ _ _ Hlast).
    constructor; simpl.
    + reflexivity.
    + now destruct c.
    + reflexivity.
    + intros i b Hi. apply lookup_app_Some in Hi as [Hi | [Hge Hi]]; [now apply Hpos|].
      apply list_lookup_singleton_Some in Hi as [Hi <-].
      rewrite last_lookup in Hlast. apply Hpos in Hlast.
      cbn [linked BlockClass.height BlockClass.set_previousBlockHash BlockClass.set_height].
      rewrite Hlast. destruct c; [contradiction|]. simpl in *. lia.
    + rewrite link_entries_snoc, Hlink. unfold tail_hash. rewrite Hlast.
      unfold _comparePreviousBlockHash.
      cbn [linked BlockClass.previousBlockHash BlockClass.set_previousBlockHash].
      now rewrite (proj2 (option_string_eqb_eq _ _) eq_refl).
  - rewrite append_absent. now constructor.
Qed.

Lemma ledger_ok_validateChain w : ledger_ok w -> ledger_ok (await validateChain w).
Proof.
  intros [Hq Hne Hh Hpos Hlink]. destruct w as [c h A P Q Co D]. simpl in *. subst Q.
  rewrite await_validateChain. now constructor.
Qed.

Section Ledger.

Variable encodeData : Data -> string.

Definition genesis (now : Z) : Block := stamped (new_Block encodeData GenesisData) now.

Lemma constructor_eq now :
  constructor encodeData now
  = mkWorld [genesis now] 1 []
      [mkPromise Pending []; mkPromise (Fulfilled (VBlock (genesis now))) []]
      [InitResume 0]
      [LogStr "Appending Genesis Block"; LogBlock (genesis now)] [].
Proof.
  unfold constructor, initializeChain. world_simpl.
  replace (-1 =? -1) with true by reflexivity.
  rewrite _addBlock_genesis. cbn [app length].
  rewrite (then_settled 1 _ (Fulfilled (VBlock (genesis now))) []);
    [reflexivity | reflexivity | discriminate].
Qed.

(** [new Blockchain()], once the pending continuation of
    [initializeChain] has run. *)
Definition new_Blockchain (now : Z) : World := run_microtasks (constructor encodeData now).

Lemma new_Blockchain_eq now :
  new_Blockchain now
  = mkWorld [genesis now] 1 []
      [done; mkPromise (Fulfilled (VBlock (genesis now))) []] []
      [LogStr "Appending Genesis Block"; LogBlock (genesis now)] [].
Proof.
  unfold new_Blockchain. rewrite constructor_eq.
  now rewrite (run_microtasks_eq 1).
Qed.

(** A later call of [initializeChain()] finds the height set and leaves
    the chain alone. *)
Lemma initializeChain_again now c h A P Q Co D :
  h <> -1 ->
  initializeChain encodeData now (mkWorld c h A P Q Co D)
  = (length P, mkWorld c h A (P ++ [done]) Q Co D).
Proof.
  intros Hh. unfold initializeChain, resolve. world_simpl.
  destruct (h =? -1) eqn:E; [apply Z.eqb_eq in E; contradiction|].
  rewrite (settle_pending _ _ []) by apply lookup_middle.
  now rewrite insert_middle, app_nil_r.
Qed.

Lemma await_initializeChain now c h A P Co D :
  h <> -1 ->
  await (initializeChain encodeData now) (mkWorld c h A P [] Co D)
  = mkWorld c h A (P ++ [done]) [] Co (D ++ [ResolvedWith ViewUndefined]).
Proof.
  intros Hh. unfold await. rewrite initializeChain_again by assumption.
  rewrite (then_settled _ _ (Fulfilled VUndefined) []);
    [| apply lookup_middle | discriminate].
  erewrite (run_microtasks_eq 1); cbn [app drain microtasks run_job]; world_simpl;
    rewrite (state_of_eq _ (Fulfilled VUndefined) []) by apply lookup_middle;
    reflexivity.
Qed.

(** The ledgers of callers that wait for each call before the next:
    construction, then any number of calls of [initializeChain],
    [_addBlock] (with a new block or without a block) and
    [validateChain]. *)
Inductive reachable : World -> Prop :=
| reach_new now : reachable (new_Blockchain now)
| reach_initialize now w :
    reachable w -> reachable (await (initializeChain encodeData now) w)
| reach_append block now w :
    reachable w -> reachable (append block now w)
| reach_validate w :
    reachable w -> reachable (await validateChain w).

Lemma ledger_ok_new now : ledger_ok (new_Blockchain now).
Proof.
  rewrite new_Blockchain_eq. constructor; simpl; try reflexivity; try discriminate.
  intros [|i] b H; simpl in H; [now injection H as <- | discriminate].
Qed.

Lemma ledger_ok_initialize now w :
  ledger_ok w -> ledger_ok (await (initializeChain encodeData now) w).
Proof.
  intros [Hq Hne Hh Hpos Hlink]. destruct w as [c h A P Q Co D]. simpl in *. subst Q.
  rewrite await_initializeChain by lia. now constructor.
Qed.

Lemma reachable_ok w : reachable w -> ledger_ok w.
Proof.
  induction 1.
  - apply ledger_ok_new.
  - now apply ledger_ok_initialize.
  - now apply ledger_ok_append.
  - now apply ledger_ok_validateChain.
Qed.

End Ledger.

(** ** The queries by digest and by position *)

Lemma await_getBlockByHash hash c h A P Co D :
  await (getBlockByHash hash) (mkWorld c h A P [] Co D)
  = match find (fun block => option_string_eqb (BlockClass.hash block) hash) c with
    | Some b =>
        mkWorld c h A (P ++ [mkPromise (Fulfilled (VBlock b)) []]) [] Co
          (D ++ [ResolvedWith (ViewBlock b)])
    | None =>
        mkWorld c h A (P ++ [mkPromise (Rejected (VStr "Block Not Found.")) []]) [] Co
          (D ++ [RejectedWith (ViewStr "Block Not Found.")])
    end.
Proof.
  unfold await, getBlockByHash, resolve, reject. world_simpl.
  destruct (find _ c) as [b|].
  - rewrite (settle_pending _ _ []) by apply lookup_middle.
    rewrite insert_middle, app_nil_r.
    rewrite (then_settled _ _ (Fulfilled (VBlock b)) []);
      [| apply lookup_middle | discriminate].
    erewrite (run_microtasks_eq 1); cbn [app drain microtasks run_job]; world_simpl;
      rewrite (state_of_eq _ (Fulfilled (VBlock b)) []) by apply lookup_middle;
      reflexivity.
  - rewrite (settle_pending _ _ []) by apply lookup_middle.
    rewrite insert_middle, app_nil_r.
    rewrite (then_settled _ _ (Rejected (VStr "Block Not Found.")) []);
      [| apply lookup_middle | discriminate].
    erewrite (run_microtasks_eq 1); cbn [app drain microtasks run_job]; world_simpl;
      rewrite (state_of_eq _ (Rejected (VStr "Block Not Found.")) []) by apply lookup_middle;
      reflexivity.
Qed.

Lemma await_getBlockByHeight n c h A P Co D :
  await (getBlockByHeight n) (mkWorld c h A P [] Co D)
  = match head (List.filter (fun p => BlockClass.height p =? n) c) with
    | Some b =>
        mkWorld c h A (P ++ [mkPromise (Fulfilled (VBlock b)) []]) [] Co
          (D ++ [ResolvedWith (ViewBlock b)])
    | None =>
        mkWorld c h A (P ++ [mkPromise (Fulfilled VNull) []]) [] Co
          (D ++ [ResolvedWith ViewNull])
    end.
Proof.
  unfold await, getBlockByHeight, resolve. world_simpl.
  destruct (head _) as [b|].
  - rewrite (settle_pending _ _ []) by apply lookup_middle.
    rewrite insert_middle, app_nil_r.
    rewrite (then_settled _ _ (Fulfilled (VBlock b)) []);
      [| apply lookup_middle | discriminate].
    erewrite (run_microtasks_eq 1); cbn [app drain microtasks run_job]; world_simpl;
      rewrite (state_of_eq _ (Fulfilled (VBlock b)) []) by apply lookup_middle;
      reflexivity.
  - rewrite (settle_pending _ _ []) by apply lookup_middle.
    rewrite insert_middle, app_nil_r.
    rewrite (then_settled _ _ (Fulfilled VNull) []);
      [| apply lookup_middle | discriminate].
    erewrite (run_microtasks_eq 1); cbn [app drain microtasks run_job]; world_simpl;
      rewrite (state_of_eq _ (Fulfilled VNull) []) by apply lookup_middle;
      reflexivity.
Qed.

Lemma find_absent {A} (f : A -> bool) (l : list A) :
  (forall x, In x l -> f x = false) -> find f l = None.
Proof.
  induction l as [|x l IH]; intros H; [reflexivity|]. simpl.
  rewrite (H x) by now left. apply IH. intros y Hy. apply H. now right.
Qed.

Lemma filter_absent {A} (f : A -> bool) (l : list A) :
  (forall x, In x l -> f x = false) -> List.filter f l = [].
Proof.
  induction l as [|x l IH]; intros H; [reflexivity|]. simpl.
  rewrite (H x) by now left. apply IH. intros y Hy. apply H. now right.
Qed.

Lemma answer_snoc c h A P Q Co D o : answer (mkWorld c h A P Q Co (D ++ [o])) = Some o.
Proof. unfold answer; simpl. apply last_snoc. Qed.

(** ** What the link check and the body check find *)

(** The digest a record at position [i] is expected to name: the sentinel
    at position 0, the recorded digest of the record before otherwise. *)
Definition expected_previous (c : list Block) (i : nat) : option string :=
  match i with
  | O => None
  | S j => match c !! j with Some r => BlockClass.hash r | None => None end
  end.

Lemma link_entries_lookup c : forall previousHash i b,
  c !! i = Some b ->
  let expected := match i with O => previousHash | S _ => expected_previous c i end in
  BlockClass.previousBlockHash b <> expected ->
  In (link_entry b expected) (link_entries c previousHash).
Proof.
  induction c as [|x r IH]; intros previousHash i b Hi expected Hne; [discriminate|].
  destruct i as [|i]; simpl in Hi.
  - injection Hi as ->. subst expected. cbn [link_entries].
    unfold _comparePreviousBlockHash.
    destruct (option_string_eqb _ _) eqn:E.
    + apply option_string_eqb_eq in E. contradiction.
    + now left.
  - cbn [link_entries]. apply in_or_app. right.
    specialize (IH (BlockClass.hash x) i b Hi).
    subst expected. destruct i as [|i]; simpl in *; now apply IH.
Qed.

Lemma link_entries_ok c : forall previousHash,
  link_entries c previousHash = [] ->
  forall i b, c !! i = Some b ->
    BlockClass.previousBlockHash b
    = match i with O => previousHash | S _ => expected_previous c i end.
Proof.
  induction c as [|x r IH]; intros previousHash H i b Hi; [discriminate|].
  cbn [link_entries] in H. apply app_eq_nil in H as [H1 H2].
  destruct i as [|i]; simpl in Hi.
  - injection Hi as ->. unfold _comparePreviousBlockHash in H1.
    destruct (option_string_eqb _ _) eqn:E; [|discriminate].
    now apply option_string_eqb_eq in E.
  - rewrite (IH _ H2 i b Hi). now destruct i.
Qed.

Lemma altered_entries_In c b :
  In b c -> digest_ok b = false -> In (altered_entry b) (altered_entries c).
Proof.
  induction c as [|x r IH]; intros Hin Hb; [contradiction|].
  cbn [altered_entries]. apply in_or_app. destruct Hin as [->|Hin].
  - left. rewrite Hb. now left.
  - right. now apply IH.
Qed.

Lemma digest_ok_false b : BlockClass.hash b <> Some (Hasher b) -> digest_ok b = false.
Proof.
  intros H. unfold digest_ok. destruct (option_string_eqb _ _) eqn:E; [|reflexivity].
  apply option_string_eqb_eq in E. contradiction.
Qed.

(** ** [getStarsByWalletAddress] *)

(** The address a message starts with: [message.split(':')[0]]. *)
Definition owner_of (message : string) : string :=
  default EmptyString (split_colon message !! 0%nat).

Fixpoint stars_catches (base outer : nat) (blocks : list Block) : list Job :=
  match blocks with
  | [] => []
  | _ :: r => StarsCatch base outer :: stars_catches (S base) outer r
  end.

Lemma length_stars_catches base outer blocks :
  length (stars_catches base outer blocks) = length blocks.
Proof. revert base. induction blocks; intros; simpl; auto. Qed.

Section Stars.

Variable getBData : Block -> Settled Decoded.

Fixpoint stars_thens (a base : nat) (address : string) (blocks : list Block) : list Job :=
  match blocks with
  | [] => []
  | b :: r => StarsThen a base address (getBData b) :: stars_thens a (S base) address r
  end.

Lemma length_stars_thens a base address blocks :
  length (stars_thens a base address blocks) = length blocks.
Proof. revert base. induction blocks; intros; simpl; auto. Qed.

(** What the callback of one block adds to the list of stars. *)
Definition star_entry (address : string) (b : Block) : list Entry :=
  match getBData b with
  | Resolves (DObject (Some message) star) =>
      if String.eqb (owner_of message) address then [StarEntry address star] else []
  | _ => []
  end.

Definition star_entries (address : string) (c : list Block) : list Entry :=
  flat_map (star_entry address) c.

Definition star_log (b : Block) : list LogLine :=
  match getBData b with
  | Rejects error => [LogStr ("Block issue: " +:+ error)]
  | _ => []
  end.

(** The promise of the callback of one block: rejected when the callback
    throws. *)
Definition star_cell (b : Block) : Promise :=
  match getBData b with
  | Resolves (DObject None _) => mkPromise (Rejected (VStr "TypeError")) []
  | _ => done
  end.

Lemma getStars_forEach_eq blocks : forall a outer address c h A P Q Co D,
  getStars_forEach getBData a outer address blocks (mkWorld c h A P Q Co D)
  = mkWorld c h A (P ++ map pending_on (stars_catches (length P) outer blocks))
      (Q ++ stars_thens a (length P) address blocks) Co D.
Proof.
  induction blocks as [|b r IH]; intros a outer address c h A P Q Co D.
  - simpl. now rewrite !app_nil_r.
  - cbn [getStars_forEach]. world_simpl.
    rewrite (then_pending _ _ []) by apply lookup_middle.
    rewrite insert_middle. cbn [app]. rewrite IH.
    cbn [stars_catches stars_thens map].
    rewrite length_app. cbn [length]. rewrite Nat.add_1_r.
    now rewrite <- !app_assoc.
Qed.

Lemma run_stars_thens blocks : forall a outer address L c h A P T Q Co D,
  A !! a = Some L ->
  run_jobs (stars_thens a (length P) address blocks)
    (mkWorld c h A (P ++ map pending_on (stars_catches (length P) outer blocks) ++ T)
       Q Co D)
  = mkWorld c h (<[a := L ++ star_entries address blocks]> A)
      (P ++ map star_cell blocks ++ T)
      (Q ++ stars_catches (length P) outer blocks)
      (Co ++ flat_map star_log blocks) D.
Proof.
  induction blocks as [|b r IH]; intros a outer address L c h A P T Q Co D HA.
  - simpl. rewrite !app_nil_r. now rewrite list_insert_id.
  - cbn [stars_thens stars_catches map run_jobs fold_left app].
    change (fold_left (fun w j => run_job j w) ?js ?w) with (run_jobs js w).
    assert (Hlen : forall x : Promise, length (P ++ [x]) = S (length P))
      by (intros; rewrite length_app; simpl; lia).
    assert (HA' : forall e, <[a := L ++ [e]]> A !! a = Some (L ++ [e]))
      by (intros; apply list_lookup_insert_eq; now apply lookup_lt_Some in HA).
    unfold star_entries, star_entry, star_log, star_cell. cbn [flat_map].
    fold (star_entry address). fold (star_entries address r).
    unfold run_job, resolve, reject.
    destruct (getBData b) as [[|[message|] star]|error].
    + rewrite (settle_pending _ _ [StarsCatch (length P) outer]) by apply lookup_middle.
      rewrite insert_middle. fold done.
      rewrite (app_cons_snoc P _ done), <- (Hlen done).
      rewrite (IH _ _ _ L) by assumption.
      rewrite (Hlen done). now rewrite <- !app_assoc.
    + fold (owner_of message). destruct (String.eqb (owner_of message) address).
      * rewrite (array_push_eq _ _ L) by assumption.
        rewrite (settle_pending _ _ [StarsCatch (length P) outer]) by apply lookup_middle.
        rewrite insert_middle. fold done.
        rewrite (app_cons_snoc P _ done), <- (Hlen done).
        rewrite (IH _ _ _ (L ++ [StarEntry address star])) by apply HA'.
        rewrite (Hlen done), list_insert_insert_eq. now rewrite <- !app_assoc.
      * rewrite (settle_pending _ _ [StarsCatch (length P) outer]) by apply lookup_middle.
        rewrite insert_middle. fold done.
        rewrite (app_cons_snoc P _ done), <- (Hlen done).
        rewrite (IH _ _ _ L) by assumption.
        rewrite (Hlen done). now rewrite <- !app_assoc.
    + rewrite (settle_pending _ _ [StarsCatch (length P) outer]) by apply lookup_middle.
      rewrite insert_middle.
      set (x := mkPromise (Rejected (VStr "TypeError")) []).
      rewrite (app_cons_snoc P _ x), <- (Hlen x).
      rewrite (IH _ _ _ L) by assumption.
      rewrite (Hlen x). now rewrite <- !app_assoc.
    + world_simpl.
      rewrite (settle_pending _ _ [StarsCatch (length P) outer]) by apply lookup_middle.
      rewrite insert_middle. fold done.
      rewrite (app_cons_snoc P _ done), <- (Hlen done).
      rewrite (IH _ _ _ L) by assumption.
      rewrite (Hlen done). now rewrite <- !app_assoc.
Qed.

(** The [.catch] callbacks call [reject] on the promise of the query,
    which is settled by then: nothing changes. *)
Lemma run_stars_catches blocks : forall outer st rs c h A P T Q Co D,
  P !! outer = Some (mkPromise st rs) -> st <> Pending ->
  run_jobs (stars_catches (length P) outer blocks)
    (mkWorld c h A (P ++ map star_cell blocks ++ T) Q Co D)
  = mkWorld c h A (P ++ map star_cell blocks ++ T) Q Co D.
Proof.
  induction blocks as [|b r IH]; intros outer st rs c h A P T Q Co D Hp Hst;
    [reflexivity|].
  cbn [stars_catches map run_jobs fold_left app].
  change (fold_left (fun w j => run_job j w) ?js ?w) with (run_jobs js w).
  assert (Hlen : length (P ++ [star_cell b]) = S (length P))
    by (rewrite length_app; simpl; lia).
  assert (Hstep : run_job (StarsCatch (length P) outer)
                    (mkWorld c h A (P ++ star_cell b :: map star_cell r ++ T) Q Co D)
                  = mkWorld c h A (P ++ star_cell b :: map star_cell r ++ T) Q Co D).
  { unfold run_job. destruct (state_of _ _); try reflexivity.
    unfold reject. apply (settle_settled _ _ st rs); [|assumption].
    cbn [promises]. now apply lookup_app_l_Some. }
  rewrite Hstep.
  rewrite (app_cons_snoc P _ (star_cell b)), <- Hlen.
  apply (IH outer st rs); [now apply lookup_app_l_Some | assumption].
Qed.

(** A caller of the query that waits for the result, on a chain that is
    not empty. *)
Lemma await_getStars address c h A P Co D :
  c <> [] ->
  await (getStarsByWalletAddress getBData address) (mkWorld c h A P [] Co D)
  = mkWorld c h (A ++ [star_entries address c])
      (P ++ mkPromise (Fulfilled (VArr (length A))) [] :: map star_cell c) []
      (Co ++ flat_map star_log c)
      (D ++ [ResolvedWith (ViewArray (star_entries address c))]).
Proof.
  intros Hc. unfold await, getStarsByWalletAddress. world_simpl.
  replace (0 <? length c)%nat with true by (destruct c; [contradiction | reflexivity]).
  rewrite getStars_forEach_eq. unfold resolve.
  assert (HP : length (P ++ [mkPromise Pending []]) = S (length P)) by solve_length.
  rewrite HP, <- app_assoc. cbn [app].
  rewrite (settle_pending _ _ []) by apply lookup_middle.
  rewrite insert_middle, app_nil_r.
  set (fin := mkPromise (Fulfilled (VArr (length A))) []).
  rewrite (then_settled _ _ (Fulfilled (VArr (length A))) []);
    [| apply lookup_middle | discriminate].
  assert (Hlen : length (P ++ [fin]) = S (length P)) by solve_length.
  set (thens := stars_thens (length A) (S (length P)) address c).
  match goal with |- run_microtasks ?w = ?w' =>
    assert (Hd : drain (length (thens ++ [Observe (length P)]) + length c) w = w')
  end.
  { rewrite drain_add. cbn [app]. rewrite drain_all, run_jobs_app. subst thens.
    rewrite (app_cons_snoc P _ fin), <- Hlen.
    rewrite <- (app_nil_r (map pending_on _)).
    rewrite (run_stars_thens _ _ _ _ _ _ _ _ _ [] _ _ _ (lookup_middle A [] _)).
    rewrite insert_middle, Hlen, app_nil_r. cbn [app].
    cbn [run_jobs fold_left run_job].
    rewrite (state_of_eq _ (Fulfilled (VArr (length A))) []).
    2:{ cbn [promises]. rewrite <- app_assoc. apply lookup_middle. }
    world_simpl. cbn [view arrays]. rewrite lookup_middle. cbn [default].
    rewrite <- (length_stars_catches (S (length P)) (length P) c).
    rewrite drain_all.
    rewrite <- Hlen, <- (app_nil_r (map star_cell c)).
    rewrite (run_stars_catches _ _ (Fulfilled (VArr (length A))) []);
      [| apply lookup_middle | discriminate].
    now rewrite app_nil_r, <- app_assoc. }
  erewrite run_microtasks_eq; [exact Hd | now rewrite Hd].
Qed.

(** A record the query passes over: its payload does not decode, or
    decodes to nothing, or to a value without a message. *)
Definition passed_over (b : Block) : Prop :=
  match getBData b with
  | Resolves (DObject (Some _) _) => False
  | _ => True
  end.

Lemma star_entries_passed_over address c :
  Forall passed_over c -> star_entries address c = [].
Proof.
  induction 1 as [|b r Hb _ IH]; [reflexivity|].
  unfold star_entries in *. cbn [flat_map]. rewrite IH, app_nil_r.
  unfold star_entry, passed_over in *.
  now destruct (getBData b) as [[|[m|] s]|].
Qed.

Lemma star_entries_app address c1 c2 :
  star_entries address (c1 ++ c2) = star_entries address c1 ++ star_entries address c2.
Proof. unfold star_entries. apply flat_map_app. Qed.

End Stars.

(** ** The time gate of [submitStar] *)

(** With a local time zone a whole number of hours from UTC, the gate lets
    through every challenge issued up to 300000 seconds before: the
    difference, in seconds, is read as milliseconds. *)
Lemma gate_open_for_300000_seconds (k T e : Z) :
  0 <= e < 300000 ->
  js_lt (getMinutes (3600000 * k) (new_Date (js_sub (Some (T + e)) (Some T)))) 5 = true.
Proof.
  intros He. cbn [js_sub new_Date].
  replace (T + e - T) with e by lia.
  replace (Z.abs e <=? 8640000000000000) with true by (symmetry; apply Z.leb_le; lia).
  cbn [getMinutes js_lt].
  replace (e + 3600000 * k) with (e + (60 * k) * 60000) by lia.
  rewrite Z.div_add by lia.
  replace (e / 60000 + 60 * k) with (e / 60000 + k * 60) by lia.
  rewrite Z.mod_add by lia.
  assert (0 <= e / 60000 < 5).
  { split; [apply Z.div_pos; lia | apply Z.div_lt_upper_bound; lia]. }
  rewrite Z.mod_small by lia. apply Z.ltb_lt. lia.
Qed.

(** ** Instances for the examples *)

(** The payload codec of the usual [block.js]: the JSON text of the data,
    in hexadecimal. *)
Definition json_of_data (d : Data) : string :=
  match d with
  | GenesisData => "{" +:+ json_key "data" +:+ json_string "Genesis Block" +:+ "}"
  | StarData message signature star =>
      "{" +:+ json_key "message" +:+ json_string message +:+ ","
          +:+ json_key "signature" +:+ json_string signature
          +:+ match star with
              | Some s => "," +:+ json_key "star" +:+ s
              | None => EmptyString
              end
          +:+ "}"
  end.

Definition hex_codec (d : Data) : string :=
  SHA2.hex_of_bytes (SHA2.bytes_of_string (json_of_data d)).

Example hex_codec_genesis :
  hex_codec GenesisData = "7b2264617461223a2247656e6573697320426c6f636b227d".
Proof. vm_compute. reflexivity. Qed.

Definition star_block (n : Z) (message : string) : Block :=
  BlockClass.mkBlock (Some message) n message (TimeStr "1700000000") None.

(** A chain of three records whose second record does not name the digest
    of the first, and whose digests are not those of their content. *)
Definition broken_world : World :=
  mkWorld [star_block 0 "g"; star_block 1 "A:1:starRegistry"; star_block 2 "B:2:starRegistry"]
    3 [] [] [] [] [].

(** A signature check that accepts everything. *)
Definition accept_all (message address signature : string) : option bool := Some true.

(** * The claims *)

(** Two calls of [_addBlock] after [new Blockchain()], each with a block
    just created, the second made when the first has returned and before
    any of its callbacks has run; then the callbacks.  Two calls of
    [submitStar] in a row make these two calls. *)
Definition first_append : (pref * option Block) * World :=
  _addBlock (Some (new_Block hex_codec (StarData "A:1700000000:starRegistry" "sigA" None)))
    1700000060000 (new_Blockchain hex_codec 1700000000000).

Definition second_append : (pref * option Block) * World :=
  _addBlock (Some (new_Block hex_codec (StarData "B:1700000000:starRegistry" "sigB" None)))
    1700000061000 (snd first_append).

Definition overlapping_calls : World := run_microtasks (snd second_append).

(** C2, at the failing input: two appends that overlap both succeed, their
    promises fulfilled with the two records, which are both in the chain.
    Both records name the digest of the genesis record and both have
    position 1: the record at index 2 does not name the digest of the
    record at index 1, and [validateChain] on this chain reports the link
    as not matching. *)
Theorem overlapping_calls_break_linkage :
  exists g r1 r2,
    chain overlapping_calls = [g; r1; r2]
    /\ state_of (fst (fst first_append)) overlapping_calls = Fulfilled (VBlock r1)
    /\ state_of (fst (fst second_append)) overlapping_calls = Fulfilled (VBlock r2)
    /\ BlockClass.previousBlockHash r1 = BlockClass.hash g
    /\ BlockClass.previousBlockHash r2 = BlockClass.hash g
    /\ BlockClass.previousBlockHash r2 <> BlockClass.hash r1
    /\ BlockClass.height r1 = 1
    /\ BlockClass.height r2 = 1
    /\ answer (await validateChain overlapping_calls)
       = Some (ResolvedWith
                 (ViewArray [link_entry r2 (BlockClass.hash r1);
                             altered_entry r1; altered_entry r2])).
Proof.
  exists (genesis hex_codec 1700000000000),
    (linked (genesis hex_codec 1700000000000)
       (new_Block hex_codec (StarData "A:1700000000:starRegistry" "sigA" None))
       1700000060000),
    (linked (genesis hex_codec 1700000000000)
       (new_Block hex_codec (StarData "B:1700000000:starRegistry" "sigB" None))
       1700000061000).
  split; [vm_compute; reflexivity|].
  split; [vm_compute; reflexivity|].
  split; [vm_compute; reflexivity|].
  split; [vm_compute; reflexivity|].
  split; [vm_compute; reflexivity|].
  split; [vm_compute; discriminate|].
  split; [vm_compute; reflexivity|].
  split; [vm_compute; reflexivity|].
  vm_compute; reflexivity.
Qed.

(** The same ledger comes of two calls of [submitStar] in a row. *)
Example overlapping_submissions :
  chain (run_microtasks
           (snd (submitStar hex_codec accept_all 0 "B" "B:1700000000:starRegistry" "sigB"
                   None 1700000061000 1700000061000
                   (snd (submitStar hex_codec accept_all 0 "A" "A:1700000000:starRegistry"
                           "sigA" None 1700000060000 1700000060000
                           (new_Blockchain hex_codec 1700000000000))))))
  = chain overlapping_calls.
Proof. vm_compute. reflexivity. Qed.

(** The linkage where it holds: in every ledger built by construction
    followed by calls each waited for before the next, each append being
    handed a new block object, the first record names the sentinel as
    previous digest, and every later record names the recorded digest of
    the record before it. *)
Theorem linkage_of_ledgers (encodeData : Data -> string) (w : World) :
  reachable encodeData w ->
  (exists g, chain w !! 0%nat = Some g /\ BlockClass.previousBlockHash g = None)
  /\ (forall i r r',
        chain w !! i = Some r' -> chain w !! S i = Some r ->
        BlockClass.previousBlockHash r = BlockClass.hash r').
Proof.
  intros Hr. destruct (reachable_ok _ _ Hr) as [_ Hne _ _ Hlink]. split.
  - destruct (chain w) as [|g rest] eqn:E; [contradiction|].
    exists g. split; [reflexivity|].
    apply (link_entries_ok _ _ Hlink 0%nat g). reflexivity.
  - intros i r r' Hi' Hi.
    rewrite (link_entries_ok _ _ Hlink (S i) r Hi).
    cbn [expected_previous]. now rewrite Hi'.
Qed.

Definition two_appends : World :=
  append (Some (BlockClass.new "22"))
    1700000120000
    (append (Some (BlockClass.new "11")) 1700000060000
       (new_Blockchain hex_codec 1700000000000)).

Lemma linkage_of_ledgers_witness :
  (exists g, chain two_appends !! 0%nat = Some g /\ BlockClass.previousBlockHash g = None)
  /\ (forall i r r',
        chain two_appends !! i = Some r' -> chain two_appends !! S i = Some r ->
        BlockClass.previousBlockHash r = BlockClass.hash r').
Proof.
  apply (linkage_of_ledgers hex_codec two_appends).
  unfold two_appends. apply reach_append. apply reach_append. apply reach_new.
Defined.

(** C9. However often [initializeChain] is called, whatever is appended in
    between, the ledger starts with a record at position 0 naming the
    sentinel, no other record is at position 0, the height is at least 1,
    and a further call of [initializeChain] changes neither chain nor
    height. *)
Theorem genesis_once (encodeData : Data -> string) (w : World) :
  reachable encodeData w ->
  (exists g rest,
      chain w = g :: rest
      /\ BlockClass.height g = 0
      /\ BlockClass.previousBlockHash g = None
      /\ Forall (fun b => BlockClass.height b <> 0) rest)
  /\ 1 <= height w
  /\ (forall now,
        chain (await (initializeChain encodeData now) w) = chain w
        /\ height (await (initializeChain encodeData now) w) = height w).
Proof.
  intros Hr. destruct (reachable_ok _ _ Hr) as [Hq Hne Hh Hpos Hlink].
  destruct w as [c h A P Q Co D]. simpl in *. subst Q.
  destruct c as [|g rest]; [contradiction|]. repeat split.
  - exists g, rest. repeat split.
    + apply (Hpos 0%nat g). reflexivity.
    + apply (link_entries_ok _ _ Hlink 0%nat g). reflexivity.
    + apply Forall_forall. intros b Hb.
      apply (proj1 (list_elem_of_lookup _ _)) in Hb as [i Hi].
      rewrite (Hpos (S i) b Hi). lia.
  - simpl in Hh. lia.
  - rewrite await_initializeChain; [reflexivity | simpl in Hh; lia].
  - rewrite await_initializeChain; [reflexivity | simpl in Hh; lia].
Qed.

Definition initialized_thrice : World :=
  await (initializeChain hex_codec 1700000002000)
    (await (initializeChain hex_codec 1700000001000)
       (new_Blockchain hex_codec 1700000000000)).

Lemma genesis_once_witness :
  (exists g rest,
      chain initialized_thrice = g :: rest
      /\ BlockClass.height g = 0
      /\ BlockClass.previousBlockHash g = None
      /\ Forall (fun b => BlockClass.height b <> 0) rest)
  /\ 1 <= height initialized_thrice
  /\ (forall now,
        chain (await (initializeChain hex_codec now) initialized_thrice)
        = chain initialized_thrice
        /\ height (await (initializeChain hex_codec now) initialized_thrice)
           = height initialized_thrice).
Proof.
  apply (genesis_once hex_codec initialized_thrice).
  unfold initialized_thrice. apply reach_initialize. apply reach_initialize. apply reach_new.
Defined.

(** C10. [_addBlock] without a block is rejected, with the absent block as
    reason, and leaves the chain and the height as they were; and whenever
    [_addBlock] is rejected, the chain and the height are as they were. *)
Theorem append_rejected_leaves_ledger (w : World) (now : Z) :
  microtasks w = [] ->
  (answer (append None now w) = Some (RejectedWith ViewNull)
   /\ chain (append None now w) = chain w
   /\ height (append None now w) = height w)
  /\ (forall block v,
        answer (append block now w) = Some (RejectedWith v) ->
        chain (append block now w) = chain w
        /\ height (append block now w) = height w).
Proof.
  intros Hq. destruct w as [c h A P Q Co D]. simpl in Hq. subst Q. split.
  - rewrite append_absent. rewrite answer_snoc. repeat split.
  - intros [block|] v.
    + destruct (last c) as [previousBlock|] eqn:Hlast.
      * rewrite (append_linked _ _ _ _ _ _ _ _ _ Hlast), answer_snoc. discriminate.
      * apply last_None in Hlast. subst c.
        rewrite append_genesis, answer_snoc. discriminate.
    + rewrite append_absent. repeat split.
Qed.

Lemma append_rejected_leaves_ledger_witness :
  (answer (append None 1700000000000 broken_world) = Some (RejectedWith ViewNull)
   /\ chain (append None 1700000000000 broken_world) = chain broken_world
   /\ height (append None 1700000000000 broken_world) = height broken_world)
  /\ (forall block v,
        answer (append block 1700000000000 broken_world) = Some (RejectedWith v) ->
        chain (append block 1700000000000 broken_world) = chain broken_world
        /\ height (append block 1700000000000 broken_world) = height broken_world).
Proof.
  apply (append_rejected_leaves_ledger broken_world 1700000000000). reflexivity.
Defined.



(** The error log of the validation run by that append is not empty. *)
Example broken_world_findings : findings (chain broken_world) <> [].
Proof. vm_compute. discriminate. Qed.

(** The blocks whose validation callback is in a queue. *)
Definition validated (q : list Job) : list Block :=
  flat_map (fun j => match j with ValidateThen _ _ b _ => [b] | _ => [] end) q.

Lemma validated_thens a base c : validated (validate_thens a base c) = c.
Proof.
  revert base. induction c as [|b r IH]; intros base; [reflexivity|].
  cbn [validate_thens validated flat_map app]. f_equal. apply IH.
Qed.

(** C5, as claimed: when [_addBlock] returns, no validation of the chain
    has been started. *)
Definition appends_without_validating (w : World) (block : Block) (now : Z) : Prop :=
  validated (microtasks (snd (_addBlock (Some block) now w))) = [].

(** C5, counterexample: on the ledger that holds the genesis record,
    [_addBlock] has started the validation of that record when it returns,
    and has not yet written anything. *)
Lemma appends_without_validating_counterexample :
  ~ appends_without_validating
      (new_Blockchain hex_codec 1700000000000) (BlockClass.new "11") 1700000060000.
Proof.
  unfold appends_without_validating. rewrite new_Blockchain_eq.
  rewrite (_addBlock_linked _ _ _ (genesis hex_codec 1700000000000)) by reflexivity.
  cbn [snd microtasks app validate_thens validated flat_map]. discriminate.
Qed.

(** C5, amended. On a chain that is not empty [_addBlock] does start the
    validation of every record of the chain before it writes, but what the
    validation finds plays no part: the call resolves with the submitted
    block, stamped with the clock reading and linked to the tail, and that
    block is pushed; result and ledger depend on the tail, the submitted
    block and the clock reading only. *)
Theorem append_validates_then_ignores
    (w : World) (block previousBlock : Block) (now : Z) :
  microtasks w = [] ->
  last (chain w) = Some previousBlock ->
  (validated (microtasks (snd (_addBlock (Some block) now w))) = chain w
   /\ chain (snd (_addBlock (Some block) now w)) = chain w)
  /\ answer (append (Some block) now w)
     = Some (ResolvedWith (ViewBlock (linked previousBlock block now)))
  /\ chain (append (Some block) now w) = chain w ++ [linked previousBlock block now]
  /\ height (append (Some block) now w) = Z.of_nat (length (chain w)) + 1.
Proof.
  intros Hq Hlast. destruct w as [c h A P Q Co D]. simpl in Hq, Hlast. subst Q.
  rewrite (append_linked _ _ _ _ _ _ _ _ _ Hlast), answer_snoc.
  rewrite (_addBlock_linked _ _ _ _ _ _ _ _ _ _ Hlast).
  cbn [snd microtasks chain height app].
  repeat split.
  - unfold validated. rewrite flat_map_app. fold (validated (validate_thens (length A) (S (S (length P))) c)).
    rewrite validated_thens. cbn [flat_map]. now rewrite app_nil_r.
  - rewrite length_app. cbn [length]. lia.
Qed.

Lemma append_validates_then_ignores_witness :
  (validated (microtasks (snd (_addBlock (Some (BlockClass.new "33")) 1700000000000
                                 broken_world)))
   = chain broken_world
   /\ chain (snd (_addBlock (Some (BlockClass.new "33")) 1700000000000 broken_world))
      = chain broken_world)
  /\ answer (append (Some (BlockClass.new "33")) 1700000000000 broken_world)
     = Some (ResolvedWith
               (ViewBlock (linked (star_block 2 "B:2:starRegistry") (BlockClass.new "33")
                             1700000000000)))
  /\ chain (append (Some (BlockClass.new "33")) 1700000000000 broken_world)
     = chain broken_world
         ++ [linked (star_block 2 "B:2:starRegistry") (BlockClass.new "33") 1700000000000]
  /\ height (append (Some (BlockClass.new "33")) 1700000000000 broken_world)
     = Z.of_nat (length (chain broken_world)) + 1.
Proof.
  apply (append_validates_then_ignores broken_world (BlockClass.new "33")
           (star_block 2 "B:2:starRegistry") 1700000000000);
    reflexivity.
Defined.

(** C8, counterexample: the query by digest, for a digest no record of the
    ledger has, is rejected with an error and not resolved with [null]. *)
Lemma absent_digest_counterexample :
  (forall b, In b (chain broken_world) -> BlockClass.hash b <> Some "00")
  /\ answer (await (getBlockByHash (Some "00")) broken_world)
     = Some (RejectedWith (ViewStr "Block Not Found."))
  /\ answer (await (getBlockByHash (Some "00")) broken_world)
     <> Some (ResolvedWith ViewNull).
Proof.
  split.
  - intros b [<-|[<-|[<-|[]]]]; discriminate.
  - unfold broken_world. rewrite await_getBlockByHash. cbn. split; [reflexivity | discriminate].
Qed.

(** C8, amended. For a digest that no record of the ledger has, the query
    by digest is rejected with the error "Block Not Found."; for a position
    out of the range of the ledger, the query by position resolves with
    [null]. *)
Theorem absent_digest_rejected_absent_position_null
    (encodeData : Data -> string) (w : World) :
  reachable encodeData w ->
  (forall d, (forall b, In b (chain w) -> BlockClass.hash b <> d) ->
     answer (await (getBlockByHash d) w)
     = Some (RejectedWith (ViewStr "Block Not Found.")))
  /\ (forall p, p < 0 \/ Z.of_nat (length (chain w)) <= p ->
        answer (await (getBlockByHeight p) w) = Some (ResolvedWith ViewNull)).
Proof.
  intros Hr. destruct (reachable_ok _ _ Hr) as [Hq Hne Hh Hpos Hlink].
  destruct w as [c h A P Q Co D]. simpl in *. subst Q. split.
  - intros d Hd. rewrite await_getBlockByHash, find_absent; [apply answer_snoc|].
    intros b Hb. destruct (option_string_eqb _ _) eqn:E; [|reflexivity].
    apply option_string_eqb_eq in E. now apply Hd in Hb.
  - intros p Hp. rewrite await_getBlockByHeight, filter_absent; [apply answer_snoc|].
    intros b Hb. apply Z.eqb_neq.
    apply (proj2 (list_elem_of_In _ _)) in Hb.
    apply (proj1 (list_elem_of_lookup _ _)) in Hb as [i Hi].
    rewrite (Hpos i b Hi). apply lookup_lt_Some in Hi. lia.
Qed.

Lemma absent_digest_rejected_absent_position_null_witness :
  (forall d, (forall b, In b (chain two_appends) -> BlockClass.hash b <> d) ->
     answer (await (getBlockByHash d) two_appends)
     = Some (RejectedWith (ViewStr "Block Not Found.")))
  /\ (forall p, p < 0 \/ Z.of_nat (length (chain two_appends)) <= p ->
        answer (await (getBlockByHeight p) two_appends) = Some (ResolvedWith ViewNull)).
Proof.
  apply (absent_digest_rejected_absent_position_null hex_codec two_appends).
  unfold two_appends. apply reach_append. apply reach_append. apply reach_new.
Defined.

(** C4. A caller of [validateChain] is handed the complete error log: the
    findings on the links of all records, then the findings on the bodies of
    all records.  It holds a finding for every record whose recomputed
    digest differs from the recorded one, and one for every record that
    does not name the digest recorded before it; the ledger is unchanged. *)
Theorem validateChain_reports_every_finding (w : World) :
  microtasks w = [] ->
  exists log,
    answer (await validateChain w) = Some (ResolvedWith (ViewArray log))
    /\ log = findings (chain w)
    /\ (forall b, In b (chain w) -> BlockClass.hash b <> Some (Hasher b) ->
          In (altered_entry b) log)
    /\ (forall i b, chain w !! i = Some b ->
          BlockClass.previousBlockHash b <> expected_previous (chain w) i ->
          In (link_entry b (expected_previous (chain w) i)) log)
    /\ chain (await validateChain w) = chain w.
Proof.
  intros Hq. destruct w as [c h A P Q Co D]. simpl in Hq. subst Q.
  rewrite await_validateChain, answer_snoc. cbn [chain].
  exists (findings c). repeat split.
  - intros b Hb Hne. destruct c as [|x r]; [contradiction|].
    unfold findings. apply in_or_app. right.
    apply altered_entries_In; [assumption | now apply digest_ok_false].
  - intros i b Hi Hne. destruct c as [|x r]; [discriminate|].
    unfold findings. apply in_or_app. left.
    pose proof (link_entries_lookup (x :: r) None i b Hi) as H.
    destruct i; apply H; assumption.
Qed.

Lemma validateChain_reports_every_finding_witness :
  exists log,
    answer (await validateChain broken_world) = Some (ResolvedWith (ViewArray log))
    /\ log = findings (chain broken_world)
    /\ (forall b, In b (chain broken_world) -> BlockClass.hash b <> Some (Hasher b) ->
          In (altered_entry b) log)
    /\ (forall i b, chain broken_world !! i = Some b ->
          BlockClass.previousBlockHash b <> expected_previous (chain broken_world) i ->
          In (link_entry b (expected_previous (chain broken_world) i)) log)
    /\ chain (await validateChain broken_world) = chain broken_world.
Proof.
  apply (validateChain_reports_every_finding broken_world). reflexivity.
Defined.

(** The log for the chain of [broken_world]: two broken links, then three
    altered bodies. *)
Example broken_world_log :
  map (fun e => match e with ErrorEntry h _ => h | StarEntry _ _ => None end)
      (findings (chain broken_world))
  = [Some (Some "A:1:starRegistry"); Some (Some "B:2:starRegistry");
     Some (Some "g"); Some (Some "A:1:starRegistry"); Some (Some "B:2:starRegistry")].
Proof. vm_compute. reflexivity. Qed.

(** C7. On a ledger that holds, in this order, two records whose decoded
    message starts with the address [A] and one whose message starts with
    another address, every other record being one that does not decode (as
    the genesis record) or decodes to nothing or to a value without a
    message, a caller of the query for [A] is handed exactly the two stars
    of [A], in the order of the ledger. *)
Theorem stars_of_owner_in_ledger_order
    (getBData : Block -> Settled Decoded) (w : World) (A B : string)
    (pre mid1 mid2 post : list Block) (r1 r2 r3 : Block)
    (m1 m2 m3 : string) (s1 s2 s3 : option Star) :
  microtasks w = [] ->
  chain w = pre ++ r1 :: mid1 ++ r2 :: mid2 ++ r3 :: post ->
  getBData r1 = Resolves (DObject (Some m1) s1) -> owner_of m1 = A ->
  getBData r2 = Resolves (DObject (Some m2) s2) -> owner_of m2 = A ->
  getBData r3 = Resolves (DObject (Some m3) s3) -> owner_of m3 = B ->
  String.eqb B A = false ->
  Forall (passed_over getBData) (pre ++ mid1 ++ mid2 ++ post) ->
  answer (await (getStarsByWalletAddress getBData A) w)
  = Some (ResolvedWith (ViewArray [StarEntry A s1; StarEntry A s2])).
Proof.
  intros Hq Hc H1 Ho1 H2 Ho2 H3 Ho3 HAB Hskip.
  destruct w as [c h Ar P Q Co D]. simpl in Hq, Hc. subst Q.
  rewrite await_getStars by (rewrite Hc; now destruct pre).
  rewrite answer_snoc. do 3 f_equal.
  apply Forall_app in Hskip as [Hpre Hskip].
  apply Forall_app in Hskip as [Hmid1 Hskip].
  apply Forall_app in Hskip as [Hmid2 Hpost].
  rewrite Hc.
  change (r1 :: mid1 ++ r2 :: mid2 ++ r3 :: post)
    with ([r1] ++ mid1 ++ [r2] ++ mid2 ++ [r3] ++ post).
  rewrite !star_entries_app.
  rewrite (star_entries_passed_over _ _ pre), (star_entries_passed_over _ _ mid1),
    (star_entries_passed_over _ _ mid2), (star_entries_passed_over _ _ post)
    by assumption.
  unfold star_entries. cbn [flat_map]. unfold star_entry.
  rewrite H1, H2, H3, Ho1, Ho2, Ho3, HAB, String.eqb_refl. reflexivity.
Qed.

(** A decoder for blocks whose body is the message itself: the block at
    position 0 does not decode, an empty body decodes to [null], and the
    body [?] to a value without a message. *)
Definition plain_decoder (b : Block) : Settled Decoded :=
  if BlockClass.height b =? 0 then Rejects "Genesis Block"
  else if String.eqb (BlockClass.body b) EmptyString then Resolves DNullish
  else if String.eqb (BlockClass.body b) "?" then Resolves (DObject None None)
  else Resolves (DObject (Some (BlockClass.body b)) (Some (BlockClass.body b))).

Definition stars_world : World :=
  mkWorld [star_block 0 "g"; star_block 1 "A:1:starRegistry"; star_block 2 "?";
           star_block 3 "A:3:starRegistry"; star_block 4 EmptyString;
           star_block 5 "B:5:starRegistry"]
    6 [] [] [] [] [].

Lemma stars_of_owner_in_ledger_order_witness :
  answer (await (getStarsByWalletAddress plain_decoder "A") stars_world)
  = Some (ResolvedWith (ViewArray [StarEntry "A" (Some "A:1:starRegistry");
                                   StarEntry "A" (Some "A:3:starRegistry")])).
Proof.
  apply (stars_of_owner_in_ledger_order plain_decoder stars_world "A" "B"
           [star_block 0 "g"] [star_block 2 "?"] [star_block 4 EmptyString] []
           (star_block 1 "A:1:starRegistry") (star_block 3 "A:3:starRegistry")
           (star_block 5 "B:5:starRegistry")
           "A:1:starRegistry" "A:3:starRegistry" "B:5:starRegistry"
           (Some "A:1:starRegistry") (Some "A:3:starRegistry") (Some "B:5:starRegistry"));
    try reflexivity.
  repeat constructor.
Defined.


(** The digest [_addBlock] records is the digest of the block as it was
    submitted, with its time: it is the same whatever the tail of the
    chain. *)
Lemma recorded_digest_ignores_tail (tail tail' block : Block) (now : Z) :
  BlockClass.hash (linked tail block now) = BlockClass.hash (linked tail' block now).
Proof. reflexivity. Qed.

Definition submitted_star : Block :=
  new_Block hex_codec (StarData "A:1700000000:starRegistry" "sig" (Some "[68,16]")).

Definition one_append : World :=
  append (Some submitted_star) 1700000060000 (new_Blockchain hex_codec 1700000000000).

Lemma one_append_chain :
  chain one_append
  = [genesis hex_codec 1700000000000;
     linked (genesis hex_codec 1700000000000) submitted_star 1700000060000].
Proof.
  unfold one_append. rewrite new_Blockchain_eq.
  now rewrite (append_linked _ _ _ (genesis hex_codec 1700000000000)).
Qed.

Lemma digest_ok_true b : BlockClass.hash b = Some (Hasher b) -> digest_ok b = true.
Proof. intros H. unfold digest_ok. now apply option_string_eqb_eq. Qed.

(** C1, at the failing input: after the genesis record, one more block is
    appended.  The record stored at position 1 names the digest of the
    genesis record, but its recorded digest is the Hasher of the same
    record at position 0 with the sentinel as previous digest, and is not
    the Hasher of the record as stored; [validateChain] reports it as
    altered. *)
Theorem digest_taken_before_position_and_link :
  exists r,
    chain one_append !! 1%nat = Some r
    /\ BlockClass.height r = 1
    /\ BlockClass.previousBlockHash r <> None
    /\ BlockClass.hash r
       = Some (Hasher (BlockClass.set_previousBlockHash None (BlockClass.set_height 0 r)))
    /\ digest_ok r = false
    /\ BlockClass.hash r <> Some (Hasher r)
    /\ In (altered_entry r) (findings (chain one_append)).
Proof.
  rewrite one_append_chain.
  exists (linked (genesis hex_codec 1700000000000) submitted_star 1700000060000).
  assert (Hd : digest_ok
                 (linked (genesis hex_codec 1700000000000) submitted_star 1700000060000)
               = false)
    by (vm_compute; reflexivity).
  split; [reflexivity|].
  split; [vm_compute; reflexivity|].
  split; [vm_compute; discriminate|].
  split; [vm_compute; reflexivity|].
  split; [exact Hd|].
  split.
  - intros H. apply digest_ok_true in H.
    pose proof (eq_trans (eq_sym Hd) H) as Hft. discriminate Hft.
  - unfold findings. apply in_or_app. right.
    apply altered_entries_In; [right; now left | exact Hd].
Qed.

(** Whether a caller was handed a block. *)
Definition handed_block (o : option Outcome) : bool :=
  match o with
  | Some (ResolvedWith (ViewBlock _)) => true
  | _ => false
  end.

Definition stale_submission (elapsed : Z) (verified : bool) : World :=
  await (submitStar hex_codec (fun _ _ _ => Some verified) 0
           "A" "A:1700000000:starRegistry" "sig" (Some "[68,16]")
           (1700000000000 + 1000 * elapsed) (1700000000000 + 1000 * elapsed))
    (new_Blockchain hex_codec 1700000000000).

(** C3, at the failing input: a challenge issued 301 seconds before it is
    submitted, with a signature that verifies, in a time zone a whole number
    of hours from UTC.  The caller is handed the new block and the block is
    appended; so it is a whole day after the challenge was issued. *)
Theorem submitStar_accepts_stale_challenge :
  handed_block (answer (stale_submission 301 true)) = true
  /\ length (chain (stale_submission 301 true)) = 2%nat
  /\ handed_block (answer (stale_submission 86400 true)) = true
  /\ length (chain (stale_submission 86400 true)) = 2%nat.
Proof.
  split; [vm_compute; reflexivity|].
  split; [vm_compute; reflexivity|].
  split; vm_compute; reflexivity.
Qed.

(** A challenge issued 299 seconds before is accepted as well; a signature
    that does not verify is rejected, and so is a challenge issued 300000
    seconds before. *)
Example submitStar_other_submissions :
  handed_block (answer (stale_submission 299 true)) = true
  /\ answer (stale_submission 299 false)
     = Some (RejectedWith (ViewStr "Failed to Submit Star"))
  /\ answer (stale_submission 300000 true)
     = Some (RejectedWith (ViewStr "Failed to Submit Star")).
Proof.
  split; [vm_compute; reflexivity|].
  split; vm_compute; reflexivity.
Qed.

(** * Further properties *)

(** ** [submitStar] *)

(** The time test of [submitStar]: the minutes of the date built from the
    difference between the clock reading, in seconds, and the time named in
    the message. *)
Definition time_test (LocalTZA : Z) (message : string) (now : Z) : bool :=
  js_lt (getMinutes LocalTZA
           (new_Date (js_sub (parseInt (seconds_string now))
                             (parseInt_opt (split_colon message !! 1%nat))))) 5.

(** [parseInt] skips a no-break space before the time in the message. *)
Example time_test_after_no_break_space :
  time_test 0
    ("A:" +:+ String (ascii_of_nat 194) (String (ascii_of_nat 160) "1700000000:starRegistry"))
    1700000010000
  = true.
Proof. vm_compute. reflexivity. Qed.

Section SubmitStar.

Variable encodeData : Data -> string.
Variable verify : string -> string -> string -> option bool.
Variable LocalTZA : Z.

(** [bitcoinMessage.verify] throws: the promise is left pending and the
    error is uncaught. *)
Lemma submitStar_throws address message signature star now now' c h A P Q Co D :
  verify message address signature = None ->
  submitStar encodeData verify LocalTZA address message signature star now now'
    (mkWorld c h A P Q Co D)
  = (length P, mkWorld c h A (P ++ [mkPromise Pending []]) Q (Co ++ [Uncaught]) D).
Proof.
  intros Hv. unfold submitStar, console_log. world_simpl. now rewrite Hv.
Qed.

Lemma submitStar_rejected address message signature star now now' verified c h A P Q Co D :
  verify message address signature = Some verified ->
  time_test LocalTZA message now && verified = false ->
  submitStar encodeData verify LocalTZA address message signature star now now'
    (mkWorld c h A P Q Co D)
  = (length P,
     mkWorld c h A (P ++ [mkPromise (Rejected (VStr "Failed to Submit Star")) []]) Q Co D).
Proof.
  intros Hv Ht. unfold submitStar, reject. world_simpl. rewrite Hv.
  fold (time_test LocalTZA message now). rewrite Ht.
  rewrite (settle_pending _ _ []) by apply lookup_middle.
  now rewrite insert_middle, app_nil_r.
Qed.

Lemma submitStar_accepted address message signature star now now' c previousBlock
    h A P Q Co D :
  verify message address signature = Some true ->
  time_test LocalTZA message now = true ->
  last c = Some previousBlock ->
  let b := linked previousBlock (new_Block encodeData (StarData message signature star)) now' in
  let d := (length P + 3 + length c)%nat in
  submitStar encodeData verify LocalTZA address message signature star now now'
    (mkWorld c h A P Q Co D)
  = (length P,
     mkWorld c h (A ++ [link_entries c None])
       (P ++ mkPromise (Fulfilled (VBlock b)) []
          :: mkPromise Pending []
          :: mkPromise (Fulfilled (VArr (length A))) []
          :: map pending_on (validate_catches (length A) (S (S (S (length P)))) c)
          ++ [pending_on (AddBlockCatch d (S (length P)))])
       (Q ++ validate_thens (length A) (S (S (S (length P)))) c
          ++ [AddBlockThen (S (S (length P))) b (S (length P)) d]) Co D).
Proof.
  intros Hv Ht Hlast b d. unfold submitStar, resolve. world_simpl. rewrite Hv.
  fold (time_test LocalTZA message now). rewrite Ht. cbn [andb].
  rewrite (_addBlock_linked _ _ _ _ _ _ _ _ _ _ Hlast). fold b. cbn [default].
  assert (HP : length (P ++ [mkPromise Pending []]) = S (length P)) by solve_length.
  rewrite HP.
  replace (S (length P) + 2 + length c)%nat with d by (unfold d; lia).
  rewrite <- app_assoc. cbn [app].
  rewrite (settle_pending _ _ []) by apply lookup_middle.
  now rewrite insert_middle, app_nil_r.
Qed.

(** A caller that waits for [submitStar], in the three cases. *)
Lemma await_submitStar_throws address message signature star now now' c h A P Co D :
  verify message address signature = None ->
  await (submitStar encodeData verify LocalTZA address message signature star now now')
    (mkWorld c h A P [] Co D)
  = mkWorld c h A (P ++ [pending_on (Observe (length P))]) [] (Co ++ [Uncaught]) D.
Proof.
  intros Hv. unfold await. rewrite submitStar_throws by assumption.
  rewrite (then_pending _ _ []) by apply lookup_middle.
  rewrite insert_middle. now rewrite (run_microtasks_eq 0).
Qed.

Lemma await_submitStar_rejected address message signature star now now' verified
    c h A P Co D :
  verify message address signature = Some verified ->
  time_test LocalTZA message now && verified = false ->
  await (submitStar encodeData verify LocalTZA address message signature star now now')
    (mkWorld c h A P [] Co D)
  = mkWorld c h A (P ++ [mkPromise (Rejected (VStr "Failed to Submit Star")) []]) [] Co
      (D ++ [RejectedWith (ViewStr "Failed to Submit Star")]).
Proof.
  intros Hv Ht. unfold await. rewrite (submitStar_rejected _ _ _ _ _ _ verified) by assumption.
  rewrite (then_settled _ _ (Rejected (VStr "Failed to Submit Star")) []);
    [| apply lookup_middle | discriminate].
  erewrite (run_microtasks_eq 1); cbn [app drain microtasks run_job]; world_simpl;
    rewrite (state_of_eq _ (Rejected (VStr "Failed to Submit Star")) [])
      by apply lookup_middle;
    reflexivity.
Qed.

Lemma await_submitStar_accepted address message signature star now now' c previousBlock
    h A P Co D :
  verify message address signature = Some true ->
  time_test LocalTZA message now = true ->
  last c = Some previousBlock ->
  let b := linked previousBlock (new_Block encodeData (StarData message signature star)) now' in
  await (submitStar encodeData verify LocalTZA address message signature star now now')
    (mkWorld c h A P [] Co D)
  = mkWorld (c ++ [b]) (Z.of_nat (length (c ++ [b]))) (A ++ [findings c])
      (P ++ mkPromise (Fulfilled (VBlock b)) []
         :: mkPromise (Fulfilled (VBlock b)) []
         :: mkPromise (Fulfilled (VArr (length A))) []
         :: map (fun _ => done) c ++ [done]) []
      (Co ++ [LogBlock b]) (D ++ [ResolvedWith (ViewBlock b)]).
Proof.
  intros Hv Ht Hlast b. unfold await.
  rewrite (submitStar_accepted _ _ _ _ _ _ _ _ _ _ _ _ _ _ Hv Ht Hlast). fold b.
  set (p := length P).
  set (d := (p + 3 + length c)%nat).
  set (a := length A).
  set (fin := mkPromise (Fulfilled (VArr a)) []).
  set (fb := mkPromise (Fulfilled (VBlock b)) []).
  set (pend := mkPromise Pending []).
  rewrite (then_settled _ _ (Fulfilled (VBlock b)) []);
    [| apply lookup_middle | discriminate].
  set (thens := validate_thens a (S (S (S p))) c).
  set (catches := validate_catches a (S (S (S p))) c).
  assert (Hfind : link_entries c None ++ altered_entries c = findings c)
    by (destruct c; [discriminate | reflexivity]).
  assert (Hlen : length (P ++ [fb; pend; fin]) = S (S (S p))) by (unfold p; solve_length).
  assert (Hpre : forall X : list Promise,
             P ++ fb :: pend :: fin :: X = (P ++ [fb; pend; fin]) ++ X)
    by (intros X; now rewrite <- app_assoc).
  match goal with |- run_microtasks ?w = ?w' =>
    assert (Hd : drain
                   (length (thens ++ [AddBlockThen (S (S p)) b (S p) d; Observe p])
                    + length (catches ++ [AddBlockCatch d (S p)]))
                   w = w')
  end.
  { rewrite <- !app_assoc. cbn [app].
    rewrite drain_add, drain_all, run_jobs_app. subst thens catches.
    rewrite Hpre, <- Hlen.
    rewrite (run_validate_thens _ _ _ _ _ _ _ _ _ _ _ (lookup_middle A [] _)).
    rewrite insert_middle, Hfind, Hlen. cbn [app].
    (* the reaction on the promise of validateChain *)
    cbn [run_jobs fold_left]. unfold run_job at 2.
    rewrite (state_of_eq (S (S p)) (Fulfilled (VArr a)) []).
    2:{ cbn [promises]. rewrite <- app_assoc. cbn [app].
        rewrite (app_cons_snoc P _ fb), (app_cons_snoc _ _ pend).
        apply list_lookup_middle. unfold p. solve_length. }
    cbn [truthy]. unfold _appendBlockOntoTheChain, resolve. world_simpl.
    rewrite <- app_assoc. cbn [app].
    rewrite (app_cons_snoc P _ fb).
    rewrite (settle_pending (S p) _ []) by (apply list_lookup_middle; unfold p; solve_length).
    rewrite insert_at by (unfold p; solve_length).
    rewrite app_nil_r.
    rewrite (settle_pending d _ [AddBlockCatch d (S p)]).
    2:{ rewrite (app_cons_snoc _ _ fb), (app_cons_snoc _ _ fin), app_assoc.
        apply list_lookup_middle. unfold d, p. solve_length. }
    rewrite (app_cons_snoc _ _ fb), (app_cons_snoc _ _ fin), app_assoc.
    rewrite insert_at by (unfold d, p; solve_length).
    fold done.
    (* the reaction of the caller *)
    unfold run_job at 1.
    rewrite (state_of_eq p (Fulfilled (VBlock b)) []).
    2:{ cbn [promises]. rewrite <- !app_assoc. cbn [app]. apply lookup_middle. }
    world_simpl. cbn [view].
    (* the remaining callbacks *)
    rewrite drain_all, run_jobs_app.
    assert (Hlen' : length (((P ++ [fb]) ++ [fb]) ++ [fin]) = S (S (S p)))
      by (unfold p; solve_length).
    rewrite <- Hlen', <- !app_assoc. rewrite !app_assoc.
    rewrite <- (app_assoc _ (map _ c) [done]).
    rewrite run_validate_catches.
    cbn [run_jobs fold_left run_job].
    rewrite (state_of_eq d (Fulfilled VUndefined) []).
    2:{ cbn [promises]. rewrite app_assoc.
        apply list_lookup_middle. unfold d, p. solve_length. }
    rewrite <- !app_assoc. reflexivity. }
  erewrite run_microtasks_eq; [exact Hd | now rewrite Hd].
Qed.

End SubmitStar.

(** ** The remaining methods, for a caller that waits *)

Lemma await_getChainHeight c h A P Co D :
  await getChainHeight (mkWorld c h A P [] Co D)
  = mkWorld c h A (P ++ [mkPromise (Fulfilled (VNum h)) []]) [] Co
      (D ++ [ResolvedWith (ViewNum h)]).
Proof.
  unfold await, getChainHeight, resolve. world_simpl.
  rewrite (settle_pending _ _ []) by apply lookup_middle.
  rewrite insert_middle, app_nil_r.
  rewrite (then_settled _ _ (Fulfilled (VNum h)) []); [| apply lookup_middle | discriminate].
  erewrite (run_microtasks_eq 1); cbn [app drain microtasks run_job]; world_simpl;
    rewrite (state_of_eq _ (Fulfilled (VNum h)) []) by apply lookup_middle;
    reflexivity.
Qed.

(** The message handed out for an address at a clock reading. *)
Definition challenge (address : string) (now : Z) : string :=
  address +:+ ":" +:+ seconds_string now +:+ ":starRegistry".

Lemma await_requestMessage address now c h A P Co D :
  await (requestMessageOwnershipVerification address now) (mkWorld c h A P [] Co D)
  = mkWorld c h A (P ++ [mkPromise (Fulfilled (VStr (challenge address now))) []]) [] Co
      (D ++ [ResolvedWith (ViewStr (challenge address now))]).
Proof.
  unfold await, requestMessageOwnershipVerification, resolve. world_simpl.
  fold (challenge address now).
  rewrite (settle_pending _ _ []) by apply lookup_middle.
  rewrite insert_middle, app_nil_r.
  rewrite (then_settled _ _ (Fulfilled (VStr (challenge address now))) []);
    [| apply lookup_middle | discriminate].
  erewrite (run_microtasks_eq 1); cbn [app drain microtasks run_job]; world_simpl;
    rewrite (state_of_eq _ (Fulfilled (VStr (challenge address now))) [])
      by apply lookup_middle;
    reflexivity.
Qed.

Lemma await_getStars_empty getBData address h A P Co D :
  await (getStarsByWalletAddress getBData address) (mkWorld [] h A P [] Co D)
  = mkWorld [] h (A ++ [[]]) (P ++ [mkPromise (Rejected (VStr "Failed.")) []]) [] Co
      (D ++ [RejectedWith (ViewStr "Failed.")]).
Proof.
  unfold await, getStarsByWalletAddress, reject. world_simpl.
  cbn [length Nat.ltb Nat.leb].
  rewrite (settle_pending _ _ []) by apply lookup_middle.
  rewrite insert_middle, app_nil_r.
  rewrite (then_settled _ _ (Rejected (VStr "Failed.")) []);
    [| apply lookup_middle | discriminate].
  erewrite (run_microtasks_eq 1); cbn [app drain microtasks run_job]; world_simpl;
    rewrite (state_of_eq _ (Rejected (VStr "Failed.")) []) by apply lookup_middle;
    reflexivity.
Qed.

(** ** Ledgers built through every method *)

Section Public.

Variable encodeData : Data -> string.
Variable getBData : Block -> Settled Decoded.
Variable verify : string -> string -> string -> option bool.
Variable LocalTZA : Z.

(** The ledgers of callers that wait for each call before the next, through
    any method of the class, [_addBlock] being handed new blocks. *)
Inductive served : World -> Prop :=
| served_new now : served (new_Blockchain encodeData now)
| served_initialize now w :
    served w -> served (await (initializeChain encodeData now) w)
| served_height w : served w -> served (await getChainHeight w)
| served_addBlock block now w : served w -> served (append block now w)
| served_request address now w :
    served w -> served (await (requestMessageOwnershipVerification address now) w)
| served_submitStar address message signature star now now' w :
    served w ->
    served (await (submitStar encodeData verify LocalTZA address message signature star
                     now now') w)
| served_byHash hash w : served w -> served (await (getBlockByHash hash) w)
| served_byHeight n w : served w -> served (await (getBlockByHeight n) w)
| served_stars address w :
    served w -> served (await (getStarsByWalletAddress getBData address) w)
| served_validate w : served w -> served (await validateChain w).

(** What a caller's wait for [submitStar] leaves of the ledger: either
    nothing changed, or the star block was linked to the tail and pushed. *)
Lemma submitStar_cases address message signature star now now' c h A P Co D :
  c <> [] ->
  let w' := await (submitStar encodeData verify LocalTZA address message signature star
                     now now') (mkWorld c h A P [] Co D) in
  microtasks w' = []
  /\ ((chain w' = c /\ height w' = h)
      \/ exists previousBlock,
           last c = Some previousBlock
           /\ chain w'
              = c ++ [linked previousBlock
                        (new_Block encodeData (StarData message signature star)) now']
           /\ height w' = Z.of_nat (length c) + 1).
Proof.
  intros Hne w'. subst w'.
  destruct (verify message address signature) as [verified|] eqn:Hv.
  - destruct (time_test LocalTZA message now && verified) eqn:Ht.
    + apply andb_true_iff in Ht as [Ht ->].
      destruct (last_is_Some c Hne) as [previousBlock Hlast].
      rewrite (await_submitStar_accepted _ _ _ _ _ _ _ _ _ _ _ _ _ _ _ _ Hv Ht Hlast).
      split; [reflexivity|]. right. exists previousBlock.
      split; [assumption|]. split; [reflexivity|].
      cbn [height]. rewrite length_app. cbn [length]. lia.
    + rewrite (await_submitStar_rejected _ _ _ _ _ _ _ _ _ _ _ _ _ _ _ _ Hv Ht).
      split; [reflexivity|]. now left.
  - rewrite (await_submitStar_throws _ _ _ _ _ _ _ _ _ _ _ _ _ _ _ Hv).
    split; [reflexivity|]. now left.
Qed.

Lemma ledger_ok_push c h A P Co D previousBlock block now w' :
  ledger_ok (mkWorld c h A P [] Co D) ->
  last c = Some previousBlock ->
  microtasks w' = [] ->
  chain w' = c ++ [linked previousBlock block now] ->
  height w' = Z.of_nat (length c) + 1 ->
  ledger_ok w'.
Proof.
  intros [Hq Hne Hh Hpos Hlink] Hlast Hq' Hc' Hh'. simpl in *.
  constructor.
  - assumption.
  - rewrite Hc'. now destruct c.
  - rewrite Hh', Hc', length_app. cbn [length]. lia.
  - rewrite Hc'. intros i b Hi.
    apply lookup_app_Some in Hi as [Hi | [Hge Hi]]; [now apply Hpos|].
    apply list_lookup_singleton_Some in Hi as [Hi <-].
    rewrite last_lookup in Hlast. apply Hpos in Hlast.
    cbn [linked BlockClass.height BlockClass.set_previousBlockHash BlockClass.set_height].
    rewrite Hlast. destruct c; [contradiction|]. simpl in *. lia.
  - rewrite Hc', link_entries_snoc, Hlink. unfold tail_hash. rewrite Hlast.
    unfold _comparePreviousBlockHash.
    cbn [linked BlockClass.previousBlockHash BlockClass.set_previousBlockHash].
    now rewrite (proj2 (option_string_eqb_eq _ _) eq_refl).
Qed.

Lemma ledger_ok_same w w' :
  ledger_ok w -> microtasks w' = [] -> chain w' = chain w -> height w' = height w ->
  ledger_ok w'.
Proof.
  intros [Hq Hne Hh Hpos Hlink] Hq' Hc' Hh'. constructor; rewrite ?Hc', ?Hh'; assumption.
Qed.

Lemma served_ok w : served w -> ledger_ok w.
Proof.
  induction 1 as [now | now w _ IH | w _ IH | block now w _ IH | address now w _ IH
                 | address message signature star now now' w _ IH
                 | hash w _ IH | n w _ IH | address w _ IH | w _ IH].
  - apply ledger_ok_new.
  - now apply ledger_ok_initialize.
  - destruct w as [c h A P Q Co D]. pose proof (ok_quiet _ IH) as Hq. simpl in Hq. subst Q.
    rewrite await_getChainHeight. now apply (ledger_ok_same _ _ IH).
  - now apply ledger_ok_append.
  - destruct w as [c h A P Q Co D]. pose proof (ok_quiet _ IH) as Hq. simpl in Hq. subst Q.
    rewrite await_requestMessage. now apply (ledger_ok_same _ _ IH).
  - destruct w as [c h A P Q Co D]. pose proof (ok_quiet _ IH) as Hq. simpl in Hq. subst Q.
    destruct (submitStar_cases address message signature star now now' c h A P Co D
                (ok_nonempty _ IH)) as [Hq' [[Hc Hh] | [t [Hlast [Hc Hh]]]]].
    + now apply (ledger_ok_same _ _ IH).
    + now apply (ledger_ok_push c h A P Co D t _ _ _ IH Hlast Hq' Hc).
  - destruct w as [c h A P Q Co D]. pose proof (ok_quiet _ IH) as Hq. simpl in Hq. subst Q.
    rewrite await_getBlockByHash.
    destruct (find _ c); now apply (ledger_ok_same _ _ IH).
  - destruct w as [c h A P Q Co D]. pose proof (ok_quiet _ IH) as Hq. simpl in Hq. subst Q.
    rewrite await_getBlockByHeight.
    destruct (head _); now apply (ledger_ok_same _ _ IH).
  - destruct w as [c h A P Q Co D]. pose proof (ok_quiet _ IH) as Hq. simpl in Hq. subst Q.
    rewrite await_getStars by exact (ok_nonempty _ IH).
    now apply (ledger_ok_same _ _ IH).
  - now apply ledger_ok_validateChain.
Qed.

(** The ledgers of the users of the class, who wait for each call before
    the next: [_addBlock], private by its name, is not theirs to call.  It
    is then called by [initializeChain] and [submitStar] alone, each time
    with the block that the caller has just created. *)
Inductive offered : World -> Prop :=
| offered_new now : offered (new_Blockchain encodeData now)
| offered_initialize now w :
    offered w -> offered (await (initializeChain encodeData now) w)
| offered_height w : offered w -> offered (await getChainHeight w)
| offered_request address now w :
    offered w -> offered (await (requestMessageOwnershipVerification address now) w)
| offered_submitStar address message signature star now now' w :
    offered w ->
    offered (await (submitStar encodeData verify LocalTZA address message signature star
                      now now') w)
| offered_byHash hash w : offered w -> offered (await (getBlockByHash hash) w)
| offered_byHeight n w : offered w -> offered (await (getBlockByHeight n) w)
| offered_stars address w :
    offered w -> offered (await (getStarsByWalletAddress getBData address) w)
| offered_validate w : offered w -> offered (await validateChain w).

Lemma offered_served w : offered w -> served w.
Proof. induction 1; now constructor. Qed.

Lemma offered_ok w : offered w -> ledger_ok w.
Proof. intros H. apply served_ok. now apply offered_served. Qed.

End Public.

(** Instance for the examples: a ledger with one star submitted through
    [submitStar]. *)
Definition one_star : World :=
  await (submitStar hex_codec accept_all 0 "A" "A:1700000000:starRegistry" "sig"
           (Some "[68,16]") 1700000060000 1700000060000)
    (new_Blockchain hex_codec 1700000000000).

(** X1. Through the public methods of the class, for callers that wait for
    each call before the next: the height kept by the class is the number
    of records, the record at index [i] has position [i], the first record
    names the sentinel and every other record the recorded digest of the
    record before it. *)
Theorem offered_ledger_consistent
    (encodeData : Data -> string) (getBData : Block -> Settled Decoded)
    (verify : string -> string -> string -> option bool) (LocalTZA : Z) (w : World) :
  offered encodeData getBData verify LocalTZA w ->
  height w = Z.of_nat (length (chain w))
  /\ (forall i b, chain w !! i = Some b -> BlockClass.height b = Z.of_nat i)
  /\ (exists g, chain w !! 0%nat = Some g /\ BlockClass.previousBlockHash g = None)
  /\ (forall i r r',
        chain w !! i = Some r' -> chain w !! S i = Some r ->
        BlockClass.previousBlockHash r = BlockClass.hash r').
Proof.
  intros Hs. destruct (offered_ok _ _ _ _ _ Hs) as [_ Hne Hh Hpos Hlink].
  split; [assumption|]. split; [assumption|]. split.
  - destruct (chain w) as [|g rest] eqn:E; [contradiction|].
    exists g. split; [reflexivity|].
    apply (link_entries_ok _ _ Hlink 0%nat g). reflexivity.
  - intros i r r' Hi' Hi.
    rewrite (link_entries_ok _ _ Hlink (S i) r Hi).
    cbn [expected_previous]. now rewrite Hi'.
Qed.

(** Two stars submitted through [submitStar], each call waited for, with a
    query in between. *)
Definition two_stars : World :=
  await (submitStar hex_codec accept_all 0 "B" "B:1700000100:starRegistry" "sigB"
           (Some "[12,5]") 1700000160000 1700000160000)
    (await (getBlockByHeight 1) one_star).

Lemma offered_two_stars : offered hex_codec plain_decoder accept_all 0 two_stars.
Proof.
  unfold two_stars, one_star.
  apply offered_submitStar, offered_byHeight, offered_submitStar, offered_new.
Qed.

Lemma offered_ledger_consistent_witness :
  height two_stars = Z.of_nat (length (chain two_stars))
  /\ (forall i b, chain two_stars !! i = Some b -> BlockClass.height b = Z.of_nat i)
  /\ (exists g, chain two_stars !! 0%nat = Some g /\ BlockClass.previousBlockHash g = None)
  /\ (forall i r r',
        chain two_stars !! i = Some r' -> chain two_stars !! S i = Some r ->
        BlockClass.previousBlockHash r = BlockClass.hash r').
Proof.
  apply (offered_ledger_consistent hex_codec plain_decoder accept_all 0 two_stars).
  apply offered_two_stars.
Defined.

(** X2. [getChainHeight] resolves with the number of records of the ledger,
    the genesis record included: one more than the position of the last
    record. *)
Theorem getChainHeight_counts_records
    (encodeData : Data -> string) (getBData : Block -> Settled Decoded)
    (verify : string -> string -> string -> option bool) (LocalTZA : Z) (w : World) :
  served encodeData getBData verify LocalTZA w ->
  answer (await getChainHeight w)
  = Some (ResolvedWith (ViewNum (Z.of_nat (length (chain w)))))
  /\ exists tail, last (chain w) = Some tail
                  /\ BlockClass.height tail = Z.of_nat (length (chain w)) - 1.
Proof.
  intros Hs. destruct (served_ok _ _ _ _ _ Hs) as [Hq Hne Hh Hpos Hlink].
  destruct w as [c h A P Q Co D]. simpl in *. subst Q. split.
  - rewrite await_getChainHeight, answer_snoc. now subst h.
  - destruct (last_is_Some c Hne) as [tail Hlast]. exists tail. split; [assumption|].
    rewrite last_lookup in Hlast. rewrite (Hpos _ _ Hlast).
    destruct c; [contradiction|]. simpl. lia.
Qed.

Lemma getChainHeight_counts_records_witness :
  answer (await getChainHeight one_star)
  = Some (ResolvedWith (ViewNum (Z.of_nat (length (chain one_star)))))
  /\ exists tail, last (chain one_star) = Some tail
                  /\ BlockClass.height tail = Z.of_nat (length (chain one_star)) - 1.
Proof.
  apply (getChainHeight_counts_records hex_codec plain_decoder accept_all 0 one_star).
  unfold one_star. apply served_submitStar. apply served_new.
Defined.

Lemma head_filter_position (c : list Block) : forall k,
  (forall j b, c !! j = Some b -> BlockClass.height b = Z.of_nat (k + j)) ->
  forall i,
    head (List.filter (fun p => BlockClass.height p =? Z.of_nat (k + i)) c) = c !! i.
Proof.
  induction c as [|x r IH]; intros k H i; [reflexivity|].
  cbn [List.filter]. rewrite (H 0%nat x eq_refl).
  destruct i as [|i].
  - now rewrite Z.eqb_refl.
  - replace (Z.of_nat (k + 0) =? Z.of_nat (k + S i)) with false
      by (symmetry; apply Z.eqb_neq; lia).
    replace (k + S i)%nat with (S k + i)%nat by lia.
    apply (IH (S k)). intros j b Hj.
    rewrite (H (S j) b Hj). f_equal. lia.
Qed.

(** X3. Through the public methods of the class, for callers that wait for
    each call before the next, the query by position finds every record of
    the ledger: asked for the position [i] of a record, it resolves with
    the record at index [i]. *)
Theorem getBlockByHeight_finds_record
    (encodeData : Data -> string) (getBData : Block -> Settled Decoded)
    (verify : string -> string -> string -> option bool) (LocalTZA : Z) (w : World)
    (i : nat) (b : Block) :
  offered encodeData getBData verify LocalTZA w ->
  chain w !! i = Some b ->
  answer (await (getBlockByHeight (Z.of_nat i)) w) = Some (ResolvedWith (ViewBlock b)).
Proof.
  intros Hs Hi. destruct (offered_ok _ _ _ _ _ Hs) as [Hq Hne Hh Hpos Hlink].
  destruct w as [c h A P Q Co D]. simpl in *. subst Q.
  rewrite await_getBlockByHeight.
  change (Z.of_nat i) with (Z.of_nat (0 + i)).
  rewrite (head_filter_position c 0 Hpos i), Hi. apply answer_snoc.
Qed.

Lemma getBlockByHeight_finds_record_witness :
  answer (await (getBlockByHeight (Z.of_nat 2)) two_stars)
  = Some (ResolvedWith
            (ViewBlock
               (linked
                  (linked (genesis hex_codec 1700000000000)
                     (new_Block hex_codec
                        (StarData "A:1700000000:starRegistry" "sig" (Some "[68,16]")))
                     1700000060000)
                  (new_Block hex_codec
                     (StarData "B:1700000100:starRegistry" "sigB" (Some "[12,5]")))
                  1700000160000))).
Proof.
  apply (getBlockByHeight_finds_record hex_codec plain_decoder accept_all 0 two_stars
           2%nat).
  - apply offered_two_stars.
  - vm_compute. reflexivity.
Defined.

Lemma find_first {A} (f : A -> bool) (l : list A) (x : A) :
  find f l = Some x ->
  f x = true
  /\ exists i, l !! i = Some x
               /\ forall j y, (j < i)%nat -> l !! j = Some y -> f y = false.
Proof.
  induction l as [|a l IH]; intros H; [discriminate|]. simpl in H.
  destruct (f a) eqn:E.
  - injection H as <-. split; [assumption|]. exists 0%nat. split; [reflexivity|].
    intros j y Hj. lia.
  - destruct (IH H) as [Hx [i [Hi Hbefore]]]. split; [assumption|].
    exists (S i). split; [assumption|].
    intros [|j] y Hj Hy; simpl in Hy.
    + now injection Hy as <-.
    + apply (Hbefore j); [lia | assumption].
Qed.

Lemma find_present {A} (f : A -> bool) (l : list A) (x : A) :
  In x l -> f x = true -> exists y, find f l = Some y.
Proof.
  intros Hin Hx. destruct (find f l) eqn:E; [eauto|].
  now rewrite (find_none f l E x Hin) in Hx.
Qed.

(** X4. The query by digest finds the first record with that digest:
    whenever some record of the ledger has the digest asked for, the query
    resolves with a record that has it, and no record before that one has
    it. *)
Theorem getBlockByHash_finds_first (w : World) (r : Block) :
  microtasks w = [] ->
  In r (chain w) ->
  exists b i,
    answer (await (getBlockByHash (BlockClass.hash r)) w)
    = Some (ResolvedWith (ViewBlock b))
    /\ BlockClass.hash b = BlockClass.hash r
    /\ chain w !! i = Some b
    /\ forall j y, (j < i)%nat -> chain w !! j = Some y ->
                   BlockClass.hash y <> BlockClass.hash r.
Proof.
  intros Hq Hin. destruct w as [c h A P Q Co D]. simpl in *. subst Q.
  rewrite await_getBlockByHash.
  destruct (find_present (fun block => option_string_eqb (BlockClass.hash block)
                                         (BlockClass.hash r)) c r Hin) as [b Hb].
  { now apply option_string_eqb_eq. }
  rewrite Hb. destruct (find_first _ _ _ Hb) as [Hfb [i [Hi Hbefore]]].
  exists b, i. rewrite answer_snoc. split; [reflexivity|].
  split; [now apply option_string_eqb_eq|]. split; [assumption|].
  intros j y Hj Hy Heq. apply option_string_eqb_eq in Heq.
  rewrite (Hbefore j y Hj Hy) in Heq. discriminate.
Qed.

Lemma getBlockByHash_finds_first_witness :
  exists b i,
    answer (await (getBlockByHash (BlockClass.hash (star_block 2 "B:2:starRegistry")))
              broken_world)
    = Some (ResolvedWith (ViewBlock b))
    /\ BlockClass.hash b = BlockClass.hash (star_block 2 "B:2:starRegistry")
    /\ chain broken_world !! i = Some b
    /\ forall j y, (j < i)%nat -> chain broken_world !! j = Some y ->
                   BlockClass.hash y <> BlockClass.hash (star_block 2 "B:2:starRegistry").
Proof.
  apply (getBlockByHash_finds_first broken_world (star_block 2 "B:2:starRegistry")).
  - reflexivity.
  - simpl. right. right. left. reflexivity.
Defined.

Lemma find_app_l {A} (f : A -> bool) (l l' : list A) (x : A) :
  find f l = Some x -> find f (l ++ l') = Some x.
Proof.
  induction l as [|a l IH]; intros H; [discriminate|]. simpl in *.
  destruct (f a); [assumption | now apply IH].
Qed.

(** X5. The recorded digest covers the time only to the second and neither
    the position nor the link: the same block appended twice within one
    clock second gives two records with the same digest, and the query by
    that digest never resolves with the second of them. *)
Theorem same_second_same_digest
    (encodeData : Data -> string) (getBData : Block -> Settled Decoded)
    (verify : string -> string -> string -> option bool) (LocalTZA : Z) (w : World)
    (block : Block) (now now' : Z) :
  served encodeData getBData verify LocalTZA w ->
  seconds_string now = seconds_string now' ->
  exists r1 r2,
    chain (append (Some block) now' (append (Some block) now w)) = chain w ++ [r1; r2]
    /\ BlockClass.hash r1 = BlockClass.hash r2
    /\ BlockClass.height r2 = BlockClass.height r1 + 1
    /\ exists b,
         answer (await (getBlockByHash (BlockClass.hash r2))
                   (append (Some block) now' (append (Some block) now w)))
         = Some (ResolvedWith (ViewBlock b))
         /\ b <> r2.
Proof.
  intros Hs Hsec.
  pose proof (served_ok _ _ _ _ _ Hs) as Hok.
  pose proof (ledger_ok_append (Some block) now w Hok) as Hok1.
  destruct Hok as [Hq Hne Hh Hpos Hlink].
  destruct w as [c h A P Q Co D]. simpl in *. subst Q.
  destruct (last_is_Some c Hne) as [t Hlast].
  rewrite (append_linked _ _ _ _ _ _ _ _ _ Hlast) in *.
  set (r1 := linked t block now) in *.
  rewrite (append_linked _ _ (c ++ [r1]) r1) by apply last_snoc.
  set (r2 := linked r1 block now').
  exists r1, r2. split; [cbn [chain]; now rewrite <- app_assoc|].
  assert (Hh12 : BlockClass.hash r1 = BlockClass.hash r2).
  { unfold r1, r2, linked, stamped. cbn. now rewrite Hsec. }
  split; [assumption|]. split; [reflexivity|].
  rewrite await_getBlockByHash.
  set (f := fun blk : Block => option_string_eqb (BlockClass.hash blk) (BlockClass.hash r2)).
  destruct (find_present f (c ++ [r1]) r1) as [b Hb].
  { apply in_or_app. right. now left. }
  { unfold f. now apply option_string_eqb_eq. }
  rewrite (find_app_l f (c ++ [r1]) [r2] b Hb).
  exists b. rewrite answer_snoc. split; [reflexivity|].
  destruct (find_first _ _ _ Hb) as [_ [i [Hi _]]].
  pose proof (ok_positions _ Hok1 i b Hi) as Hbi. cbn [chain] in Hbi.
  apply lookup_lt_Some in Hi. rewrite length_app in Hi. cbn [length] in Hi.
  assert (Hr1 : BlockClass.height r1 = Z.of_nat (length c)).
  { apply (ok_positions _ Hok1 (length c) r1). cbn [chain]. apply lookup_middle. }
  intros ->.
  change (BlockClass.height r2) with (BlockClass.height r1 + 1) in Hbi. lia.
Qed.

Lemma same_second_same_digest_witness :
  exists r1 r2,
    chain (append (Some (BlockClass.new "33")) 1700000120999
             (append (Some (BlockClass.new "33")) 1700000120000 one_star))
    = chain one_star ++ [r1; r2]
    /\ BlockClass.hash r1 = BlockClass.hash r2
    /\ BlockClass.height r2 = BlockClass.height r1 + 1
    /\ exists b,
         answer (await (getBlockByHash (BlockClass.hash r2))
                   (append (Some (BlockClass.new "33")) 1700000120999
                      (append (Some (BlockClass.new "33")) 1700000120000 one_star)))
         = Some (ResolvedWith (ViewBlock b))
         /\ b <> r2.
Proof.
  apply (same_second_same_digest hex_codec plain_decoder accept_all 0 one_star
           (BlockClass.new "33") 1700000120000 1700000120999).
  - unfold one_star. apply served_submitStar. apply served_new.
  - reflexivity.
Defined.

(** X6. A submission whose signature verifies and whose message passes the
    time test appends one record: the caller is handed the record, which
    holds the encoded message, signature and star, the clock reading of the
    append, the next position and the digest of the former tail.  The
    address given to [submitStar] is not stored. *)
Theorem submitStar_appends_star
    (encodeData : Data -> string) (getBData : Block -> Settled Decoded)
    (verify : string -> string -> string -> option bool) (LocalTZA : Z) (w : World)
    (address message signature : string) (star : option Star) (now now' : Z) :
  served encodeData getBData verify LocalTZA w ->
  verify message address signature = Some true ->
  time_test LocalTZA message now = true ->
  exists tail b,
    last (chain w) = Some tail
    /\ answer (await (submitStar encodeData verify LocalTZA address message signature star
                        now now') w)
       = Some (ResolvedWith (ViewBlock b))
    /\ chain (await (submitStar encodeData verify LocalTZA address message signature star
                       now now') w)
       = chain w ++ [b]
    /\ BlockClass.body b = encodeData (StarData message signature star)
    /\ BlockClass.time b = TimeStr (seconds_string now')
    /\ BlockClass.height b = BlockClass.height tail + 1
    /\ BlockClass.previousBlockHash b = BlockClass.hash tail.
Proof.
  intros Hs Hv Ht. destruct (served_ok _ _ _ _ _ Hs) as [Hq Hne Hh Hpos Hlink].
  destruct w as [c h A P Q Co D]. simpl in *. subst Q.
  destruct (last_is_Some c Hne) as [tail Hlast].
  exists tail, (linked tail (new_Block encodeData (StarData message signature star)) now').
  rewrite (await_submitStar_accepted _ _ _ _ _ _ _ _ _ _ _ _ _ _ _ _ Hv Ht Hlast).
  rewrite answer_snoc. repeat split. assumption.
Qed.

Lemma submitStar_appends_star_witness :
  exists tail b,
    last (chain one_star) = Some tail
    /\ answer (await (submitStar hex_codec accept_all 0 "B" "B:1700000100:starRegistry"
                        "sig" None 1700000160000 1700000160001) one_star)
       = Some (ResolvedWith (ViewBlock b))
    /\ chain (await (submitStar hex_codec accept_all 0 "B" "B:1700000100:starRegistry"
                       "sig" None 1700000160000 1700000160001) one_star)
       = chain one_star ++ [b]
    /\ BlockClass.body b = hex_codec (StarData "B:1700000100:starRegistry" "sig" None)
    /\ BlockClass.time b = TimeStr (seconds_string 1700000160001)
    /\ BlockClass.height b = BlockClass.height tail + 1
    /\ BlockClass.previousBlockHash b = BlockClass.hash tail.
Proof.
  apply (submitStar_appends_star hex_codec plain_decoder accept_all 0 one_star
           "B" "B:1700000100:starRegistry" "sig" None 1700000160000 1700000160001).
  - unfold one_star. apply served_submitStar. apply served_new.
  - reflexivity.
  - vm_compute. reflexivity.
Defined.

(** X7. A submission whose signature does not verify, or whose message
    fails the time test, is rejected with the one error "Failed to Submit
    Star" and leaves the chain and the height as they were. *)
Theorem submitStar_rejection_leaves_ledger
    (encodeData : Data -> string)
    (verify : string -> string -> string -> option bool) (LocalTZA : Z) (w : World)
    (address message signature : string) (star : option Star) (now now' : Z)
    (verified : bool) :
  microtasks w = [] ->
  verify message address signature = Some verified ->
  time_test LocalTZA message now && verified = false ->
  answer (await (submitStar encodeData verify LocalTZA address message signature star
                   now now') w)
  = Some (RejectedWith (ViewStr "Failed to Submit Star"))
  /\ chain (await (submitStar encodeData verify LocalTZA address message signature star
                     now now') w) = chain w
  /\ height (await (submitStar encodeData verify LocalTZA address message signature star
                      now now') w) = height w.
Proof.
  intros Hq Hv Ht. destruct w as [c h A P Q Co D]. simpl in Hq. subst Q.
  rewrite (await_submitStar_rejected _ _ _ _ _ _ _ _ _ _ _ _ _ _ _ _ Hv Ht).
  rewrite answer_snoc. repeat split.
Qed.

Definition refuse_all (message address signature : string) : option bool := Some false.

Lemma submitStar_rejection_leaves_ledger_witness :
  answer (await (submitStar hex_codec refuse_all 0 "A" "A:1700000000:starRegistry" "sig"
                   None 1700000001000 1700000001000) broken_world)
  = Some (RejectedWith (ViewStr "Failed to Submit Star"))
  /\ chain (await (submitStar hex_codec refuse_all 0 "A" "A:1700000000:starRegistry" "sig"
                     None 1700000001000 1700000001000) broken_world) = chain broken_world
  /\ height (await (submitStar hex_codec refuse_all 0 "A" "A:1700000000:starRegistry" "sig"
                      None 1700000001000 1700000001000) broken_world) = height broken_world.
Proof.
  apply (submitStar_rejection_leaves_ledger hex_codec refuse_all 0 broken_world
           "A" "A:1700000000:starRegistry" "sig" None 1700000001000 1700000001000 false).
  - reflexivity.
  - reflexivity.
  - apply andb_false_r.
Defined.

(** X8. When [bitcoinMessage.verify] throws, [submitStar] neither resolves
    nor rejects its promise: when the microtasks have run the promise is
    still pending, the caller has been handed nothing, the ledger is as it
    was, and the error has gone uncaught, which the host reports (Node
    since version 15 ends the process there). *)
Theorem submitStar_throw_goes_uncaught
    (encodeData : Data -> string)
    (verify : string -> string -> string -> option bool) (LocalTZA : Z) (w : World)
    (address message signature : string) (star : option Star) (now now' : Z) :
  microtasks w = [] ->
  verify message address signature = None ->
  let call := submitStar encodeData verify LocalTZA address message signature star now now' in
  state_of (fst (call w)) (await call w) = Pending
  /\ console (await call w) = console w ++ [Uncaught]
  /\ microtasks (await call w) = []
  /\ delivered (await call w) = delivered w
  /\ chain (await call w) = chain w
  /\ height (await call w) = height w.
Proof.
  intros Hq Hv call. subst call. destruct w as [c h A P Q Co D]. simpl in Hq. subst Q.
  rewrite (await_submitStar_throws _ _ _ _ _ _ _ _ _ _ _ _ _ _ _ Hv).
  rewrite (submitStar_throws _ _ _ _ _ _ _ _ _ _ _ _ _ _ _ _ Hv). cbn [fst].
  repeat split. apply (state_of_eq _ _ [Observe (length P)]). apply lookup_middle.
Qed.

Definition throw_all (message address signature : string) : option bool := None.

Lemma submitStar_throw_goes_uncaught_witness :
  let call := submitStar hex_codec throw_all 0 "A" "A:1700000000:starRegistry" "sig"
                None 1700000001000 1700000001000 in
  state_of (fst (call broken_world)) (await call broken_world) = Pending
  /\ console (await call broken_world) = console broken_world ++ [Uncaught]
  /\ microtasks (await call broken_world) = []
  /\ delivered (await call broken_world) = delivered broken_world
  /\ chain (await call broken_world) = chain broken_world
  /\ height (await call broken_world) = height broken_world.
Proof.
  apply (submitStar_throw_goes_uncaught hex_codec throw_all 0 broken_world
           "A" "A:1700000000:starRegistry" "sig" None 1700000001000 1700000001000);
    reflexivity.
Defined.

(** ** Messages *)

Fixpoint no_colon (s : string) : bool :=
  match s with
  | EmptyString => true
  | String c r => negb (Ascii.eqb c ":"%char) && no_colon r
  end.

Lemma append_assoc (a b c : string) : (a +:+ b) +:+ c = a +:+ (b +:+ c).
Proof.
  induction a as [|x a IH]; [reflexivity|].
  change (String x ((a +:+ b) +:+ c) = String x (a +:+ (b +:+ c))). now rewrite IH.
Qed.

Lemma append_empty_r (a : string) : a +:+ EmptyString = a.
Proof.
  induction a as [|x a IH]; [reflexivity|].
  change (String x (a +:+ EmptyString) = String x a). now rewrite IH.
Qed.

Lemma split_colon_aux_no_colon (s cur : string) :
  no_colon s = true -> split_colon_aux s cur = [cur +:+ s].
Proof.
  revert cur. induction s as [|c r IH]; intros cur H.
  - cbn [split_colon_aux]. now rewrite append_empty_r.
  - cbn [no_colon] in H. apply andb_true_iff in H as [Hc Hr]. apply negb_true_iff in Hc.
    cbn [split_colon_aux]. rewrite Hc, (IH _ Hr), append_assoc. reflexivity.
Qed.

Lemma split_colon_aux_field (s rest cur : string) :
  no_colon s = true ->
  split_colon_aux (s +:+ String ":" rest) cur = (cur +:+ s) :: split_colon_aux rest EmptyString.
Proof.
  revert cur. induction s as [|c r IH]; intros cur H.
  - change (EmptyString +:+ String ":" rest) with (String ":" rest).
    cbn [split_colon_aux]. replace (Ascii.eqb ":" ":") with true by reflexivity.
    now rewrite append_empty_r.
  - cbn [no_colon] in H. apply andb_true_iff in H as [Hc Hr]. apply negb_true_iff in Hc.
    change (String c r +:+ String ":" rest) with (String c (r +:+ String ":" rest)).
    cbn [split_colon_aux]. rewrite Hc, (IH _ Hr), append_assoc. reflexivity.
Qed.

(** A message without a colon has no time field: the time test fails. *)
Lemma time_test_no_colon LocalTZA message now :
  no_colon message = true -> time_test LocalTZA message now = false.
Proof.
  intros H. unfold time_test, split_colon.
  rewrite (split_colon_aux_no_colon _ _ H). cbn [lookup list_lookup parseInt_opt].
  now destruct (parseInt (seconds_string now)).
Qed.

(** X9. A message without a colon names no time: whatever the signature
    check answers, the submission is rejected and nothing is appended. *)
Theorem submitStar_rejects_message_without_time
    (encodeData : Data -> string)
    (verify : string -> string -> string -> option bool) (LocalTZA : Z) (w : World)
    (address message signature : string) (star : option Star) (now now' : Z)
    (verified : bool) :
  microtasks w = [] ->
  verify message address signature = Some verified ->
  no_colon message = true ->
  answer (await (submitStar encodeData verify LocalTZA address message signature star
                   now now') w)
  = Some (RejectedWith (ViewStr "Failed to Submit Star"))
  /\ chain (await (submitStar encodeData verify LocalTZA address message signature star
                     now now') w) = chain w.
Proof.
  intros Hq Hv Hm. destruct w as [c h A P Q Co D]. simpl in Hq. subst Q.
  rewrite (await_submitStar_rejected _ _ _ _ _ _ _ _ _ verified _ _ _ _ _ _ Hv).
  - rewrite answer_snoc. split; reflexivity.
  - now rewrite time_test_no_colon.
Qed.

Lemma submitStar_rejects_message_without_time_witness :
  answer (await (submitStar hex_codec accept_all 0 "A" "no time here" "sig" None
                   1700000001000 1700000001000) one_star)
  = Some (RejectedWith (ViewStr "Failed to Submit Star"))
  /\ chain (await (submitStar hex_codec accept_all 0 "A" "no time here" "sig" None
                     1700000001000 1700000001000) one_star) = chain one_star.
Proof.
  apply (submitStar_rejects_message_without_time hex_codec accept_all 0 one_star
           "A" "no time here" "sig" None 1700000001000 1700000001000 true).
  - vm_compute. reflexivity.
  - reflexivity.
  - reflexivity.
Defined.

(** X10. Where the local time is a whole number of hours from UTC, a
    submission with a signature that verifies is accepted whenever the
    message was issued less than 300000 seconds before the clock reading:
    the block is appended and handed to the caller. *)
Theorem submitStar_accepts_for_300000_seconds
    (encodeData : Data -> string) (getBData : Block -> Settled Decoded)
    (verify : string -> string -> string -> option bool) (k : Z) (w : World)
    (address message signature : string) (star : option Star) (now now' T e : Z) :
  served encodeData getBData verify (3600000 * k) w ->
  verify message address signature = Some true ->
  parseInt_opt (split_colon message !! 1%nat) = Some T ->
  parseInt (seconds_string now) = Some (T + e) ->
  0 <= e < 300000 ->
  handed_block
    (answer (await (submitStar encodeData verify (3600000 * k) address message signature
                      star now now') w)) = true
  /\ length (chain (await (submitStar encodeData verify (3600000 * k) address message
                             signature star now now') w))
     = S (length (chain w)).
Proof.
  intros Hs Hv HT Hnow He.
  assert (Ht : time_test (3600000 * k) message now = true).
  { unfold time_test. rewrite HT, Hnow. now apply gate_open_for_300000_seconds. }
  set (tz := 3600000 * k) in *. clearbody tz.
  destruct (served_ok _ _ _ _ _ Hs) as [Hq Hne _ _ _].
  destruct w as [c h A P Q Co D]. cbn [microtasks chain] in Hq, Hne. subst Q.
  destruct (last_is_Some c Hne) as [tail Hlast].
  rewrite (await_submitStar_accepted _ _ _ _ _ _ _ _ _ _ _ _ _ _ _ _ Hv Ht Hlast).
  rewrite answer_snoc. cbn [chain handed_block]. rewrite length_app. cbn [length].
  split; [reflexivity | lia].
Qed.

Lemma submitStar_accepts_for_300000_seconds_witness :
  handed_block
    (answer (await (submitStar hex_codec accept_all (3600000 * 2) "A"
                      "A:1700000000:starRegistry" "sig" None
                      1700299999000 1700299999000) (new_Blockchain hex_codec 1700000000000))) = true
  /\ length (chain (await (submitStar hex_codec accept_all (3600000 * 2) "A"
                             "A:1700000000:starRegistry" "sig" None
                             1700299999000 1700299999000) (new_Blockchain hex_codec 1700000000000)))
     = S (length (chain (new_Blockchain hex_codec 1700000000000))).
Proof.
  apply (submitStar_accepts_for_300000_seconds hex_codec plain_decoder accept_all 2 (new_Blockchain hex_codec 1700000000000)
           "A" "A:1700000000:starRegistry" "sig" None 1700299999000 1700299999000
           1700000000 299999).
  - apply served_new.
  - reflexivity.
  - vm_compute. reflexivity.
  - vm_compute. reflexivity.
  - lia.
Defined.

(** X11. Where the local time is half an hour off a whole number of hours
    from UTC, the test on the minutes of the hour fails for every message
    issued less than 1500000 seconds before: the submission is rejected
    although the signature verifies. *)
Theorem submitStar_rejects_in_half_hour_zones
    (encodeData : Data -> string)
    (verify : string -> string -> string -> option bool) (k : Z) (w : World)
    (address message signature : string) (star : option Star) (now now' T e : Z) :
  microtasks w = [] ->
  verify message address signature = Some true ->
  parseInt_opt (split_colon message !! 1%nat) = Some T ->
  parseInt (seconds_string now) = Some (T + e) ->
  0 <= e < 1500000 ->
  answer (await (submitStar encodeData verify (3600000 * k + 1800000) address message
                   signature star now now') w)
  = Some (RejectedWith (ViewStr "Failed to Submit Star")).
Proof.
  intros Hq Hv HT Hnow He.
  destruct w as [c h A P Q Co D]. cbn [microtasks] in Hq. subst Q.
  rewrite (await_submitStar_rejected _ _ _ _ _ _ _ _ _ true _ _ _ _ _ _ Hv);
    [apply answer_snoc|].
  rewrite andb_true_r. unfold time_test. rewrite HT, Hnow.
  cbn [js_sub new_Date]. replace (T + e - T) with e by lia.
  replace (Z.abs e <=? 8640000000000000) with true by (symmetry; apply Z.leb_le; lia).
  cbn [getMinutes js_lt].
  replace (e + (3600000 * k + 1800000)) with (e + (60 * k + 30) * 60000) by lia.
  rewrite Z.div_add by lia.
  replace (e / 60000 + (60 * k + 30)) with (e / 60000 + 30 + k * 60) by lia.
  rewrite Z.mod_add by lia.
  assert (0 <= e / 60000 < 25).
  { split; [apply Z.div_pos; lia | apply Z.div_lt_upper_bound; lia]. }
  rewrite Z.mod_small by lia. apply Z.ltb_ge. lia.
Qed.

Lemma submitStar_rejects_in_half_hour_zones_witness :
  answer (await (submitStar hex_codec accept_all (3600000 * 5 + 1800000) "A"
                   "A:1700000000:starRegistry" "sig" None
                   1700000010000 1700000010000) one_star)
  = Some (RejectedWith (ViewStr "Failed to Submit Star")).
Proof.
  apply (submitStar_rejects_in_half_hour_zones hex_codec accept_all 5 one_star
           "A" "A:1700000000:starRegistry" "sig" None 1700000010000 1700000010000
           1700000000 10).
  - vm_compute. reflexivity.
  - reflexivity.
  - vm_compute. reflexivity.
  - vm_compute. reflexivity.
  - lia.
Defined.

(** X12. On a chain that is not empty the query by owner is never
    rejected, whatever the decoding of the records gives: the caller is
    handed, in the order of the chain, one entry for each record whose
    decoded message starts with the address, and nothing else; the ledger is
    unchanged. *)
Theorem getStars_lists_exactly_the_owners_stars
    (getBData : Block -> Settled Decoded) (w : World) (address : string) :
  microtasks w = [] ->
  (0 < length (chain w))%nat ->
  answer (await (getStarsByWalletAddress getBData address) w)
  = Some (ResolvedWith (ViewArray (star_entries getBData address (chain w))))
  /\ (forall e,
        In e (star_entries getBData address (chain w))
        <-> exists b message star,
              In b (chain w)
              /\ getBData b = Resolves (DObject (Some message) star)
              /\ owner_of message = address
              /\ e = StarEntry address star)
  /\ chain (await (getStarsByWalletAddress getBData address) w) = chain w.
Proof.
  intros Hq Hlen. destruct w as [c h A P Q Co D]. simpl in Hq, Hlen. subst Q.
  rewrite await_getStars by (destruct c; [simpl in Hlen; lia | discriminate]).
  rewrite answer_snoc. cbn [chain]. split; [reflexivity|]. split; [|reflexivity].
  intros e. unfold star_entries. rewrite in_flat_map. split.
  - intros [b [Hb He]]. unfold star_entry in He.
    destruct (getBData b) as [[|[message|] star]|] eqn:E; try contradiction.
    destruct (String.eqb (owner_of message) address) eqn:Eo; [|contradiction].
    destruct He as [<-|[]]. apply String.eqb_eq in Eo.
    exists b, message, star. repeat split; assumption.
  - intros [b [message [star [Hb [E [Ho ->]]]]]]. exists b. split; [assumption|].
    unfold star_entry. rewrite E, Ho, String.eqb_refl. now left.
Qed.

Lemma getStars_lists_exactly_the_owners_stars_witness :
  answer (await (getStarsByWalletAddress plain_decoder "A") stars_world)
  = Some (ResolvedWith (ViewArray (star_entries plain_decoder "A" (chain stars_world))))
  /\ (forall e,
        In e (star_entries plain_decoder "A" (chain stars_world))
        <-> exists b message star,
              In b (chain stars_world)
              /\ plain_decoder b = Resolves (DObject (Some message) star)
              /\ owner_of message = "A"
              /\ e = StarEntry "A" star)
  /\ chain (await (getStarsByWalletAddress plain_decoder "A") stars_world)
     = chain stars_world.
Proof.
  apply (getStars_lists_exactly_the_owners_stars plain_decoder stars_world "A").
  - reflexivity.
  - simpl. lia.
Defined.

(** X13. On an empty chain [validateChain] resolves with the single finding
    "No Block Present on the Chain.", and the query by owner is rejected
    with "Failed.". *)
Theorem empty_chain_answers (w : World) :
  microtasks w = [] ->
  chain w = [] ->
  answer (await validateChain w) = Some (ResolvedWith (ViewArray [empty_entry]))
  /\ forall getBData address,
       answer (await (getStarsByWalletAddress getBData address) w)
       = Some (RejectedWith (ViewStr "Failed.")).
Proof.
  intros Hq Hc. destruct w as [c h A P Q Co D]. simpl in Hq, Hc. subst Q c. split.
  - now rewrite await_validateChain, answer_snoc.
  - intros getBData address. now rewrite await_getStars_empty, answer_snoc.
Qed.

Definition no_ledger : World := mkWorld [] (-1) [] [] [] [] [].

Lemma empty_chain_answers_witness :
  answer (await validateChain no_ledger) = Some (ResolvedWith (ViewArray [empty_entry]))
  /\ forall getBData address,
       answer (await (getStarsByWalletAddress getBData address) no_ledger)
       = Some (RejectedWith (ViewStr "Failed.")).
Proof. apply (empty_chain_answers no_ledger); reflexivity. Defined.

(** The printed clock reading holds no colon. *)
Lemma no_colon_string_of_uint d : no_colon (NilEmpty.string_of_uint d) = true.
Proof. induction d; simpl; auto. Qed.

Lemma no_colon_Z_toString n : no_colon (Z_toString n) = true.
Proof.
  unfold Z_toString, NilZero.string_of_int, NilZero.string_of_uint.
  destruct (Z.to_int n) as [d|d]; destruct d; try reflexivity;
    cbn [no_colon]; rewrite ?no_colon_string_of_uint; reflexivity.
Qed.

Lemma no_colon_substring s : forall m, no_colon s = true -> no_colon (substring 0 m s) = true.
Proof.
  induction s as [|c r IH]; intros [|m] H; try reflexivity.
  cbn [substring no_colon] in *. apply andb_true_iff in H as [Hc Hr].
  rewrite Hc. now apply IH.
Qed.

Lemma no_colon_seconds_string now : no_colon (seconds_string now) = true.
Proof. unfold seconds_string, slice_0_neg. apply no_colon_substring, no_colon_Z_toString. Qed.

Lemma split_colon_challenge address now :
  no_colon address = true ->
  split_colon (challenge address now) = [address; seconds_string now; "starRegistry"].
Proof.
  intros Ha. unfold split_colon, challenge.
  change (address +:+ ":" +:+ seconds_string now +:+ ":starRegistry")
    with (address +:+ String ":" (seconds_string now +:+ String ":" "starRegistry")).
  rewrite (split_colon_aux_field _ _ _ Ha).
  rewrite (split_colon_aux_field _ _ _ (no_colon_seconds_string now)).
  reflexivity.
Qed.

(** X14. The message handed out by [requestMessageOwnershipVerification]
    for an address without a colon splits into the address, the clock
    reading in seconds and the tag: the query by owner files it under that
    address, and [submitStar] reads as its time the seconds it was issued
    at. *)
Theorem challenge_names_address_and_time (w : World) (address : string) (now : Z) :
  microtasks w = [] ->
  no_colon address = true ->
  exists message,
    answer (await (requestMessageOwnershipVerification address now) w)
    = Some (ResolvedWith (ViewStr message))
    /\ split_colon message = [address; seconds_string now; "starRegistry"]
    /\ owner_of message = address
    /\ parseInt_opt (split_colon message !! 1%nat) = parseInt (seconds_string now).
Proof.
  intros Hq Ha. destruct w as [c h A P Q Co D]. simpl in Hq. subst Q.
  exists (challenge address now).
  rewrite await_requestMessage, answer_snoc. split; [reflexivity|].
  unfold owner_of. rewrite (split_colon_challenge _ _ Ha). repeat split.
Qed.

Lemma challenge_names_address_and_time_witness :
  exists message,
    answer (await (requestMessageOwnershipVerification "1FzpnkhbAteDkU1wXDtd8kKizQhqWcsrWe"
                     1700000000123) one_star)
    = Some (ResolvedWith (ViewStr message))
    /\ split_colon message
       = ["1FzpnkhbAteDkU1wXDtd8kKizQhqWcsrWe"; seconds_string 1700000000123; "starRegistry"]
    /\ owner_of message = "1FzpnkhbAteDkU1wXDtd8kKizQhqWcsrWe"
    /\ parseInt_opt (split_colon message !! 1%nat) = parseInt (seconds_string 1700000000123).
Proof.
  apply (challenge_names_address_and_time one_star "1FzpnkhbAteDkU1wXDtd8kKizQhqWcsrWe"
           1700000000123).
  - vm_compute. reflexivity.
  - reflexivity.
Defined.

(** X15. The whole handshake, for callers that wait for each call, where
    the local time is a whole number of hours from UTC: the message
    requested for an address without a colon, submitted with a signature
    that verifies less than 300000 seconds after it was issued, gives a
    record whose star the query by owner then lists last under that
    address, provided the record decodes to the message and the star it was
    built from. *)
Theorem handshake_lists_star
    (encodeData : Data -> string) (getBData : Block -> Settled Decoded)
    (verify : string -> string -> string -> option bool) (k : Z) (w : World)
    (address signature : string) (star : option Star) (issued now now' T e : Z) :
  served encodeData getBData verify (3600000 * k) w ->
  no_colon address = true ->
  verify (challenge address issued) address signature = Some true ->
  parseInt (seconds_string issued) = Some T ->
  parseInt (seconds_string now) = Some (T + e) ->
  0 <= e < 300000 ->
  (forall tail,
      last (chain w) = Some tail ->
      getBData (linked tail
                  (new_Block encodeData (StarData (challenge address issued) signature star))
                  now')
      = Resolves (DObject (Some (challenge address issued)) star)) ->
  let w1 := await (requestMessageOwnershipVerification address issued) w in
  let w2 := await (submitStar encodeData verify (3600000 * k) address
                     (challenge address issued) signature star now now') w1 in
  answer w1 = Some (ResolvedWith (ViewStr (challenge address issued)))
  /\ answer (await (getStarsByWalletAddress getBData address) w2)
     = Some (ResolvedWith
               (ViewArray (star_entries getBData address (chain w)
                             ++ [StarEntry address star]))).
Proof.
  intros Hs Ha Hv HT Hnow He Hdec w1 w2. subst w2 w1.
  destruct (served_ok _ _ _ _ _ Hs) as [Hq Hne Hh Hpos Hlink].
  destruct w as [c h A P Q Co D]. simpl in *. subst Q.
  destruct (last_is_Some c Hne) as [tail Hlast].
  rewrite await_requestMessage, answer_snoc. split; [reflexivity|].
  assert (Ht : time_test (3600000 * k) (challenge address issued) now = true).
  { unfold time_test. rewrite (split_colon_challenge _ _ Ha).
    cbn [lookup list_lookup parseInt_opt]. rewrite HT, Hnow.
    now apply gate_open_for_300000_seconds. }
  rewrite (await_submitStar_accepted _ _ _ _ _ _ _ _ _ _ _ _ _ _ _ _ Hv Ht Hlast).
  rewrite await_getStars by (now destruct c).
  rewrite answer_snoc, star_entries_app. do 4 f_equal.
  unfold star_entries. cbn [flat_map]. unfold star_entry.
  rewrite (Hdec tail Hlast). unfold owner_of.
  rewrite (split_colon_challenge _ _ Ha). cbn [lookup list_lookup default].
  now rewrite String.eqb_refl.
Qed.

(** A codec that keeps the message itself as the body of the block. *)
Definition plain_codec (d : Data) : string :=
  match d with
  | GenesisData => "Genesis Block"
  | StarData message _ _ => message
  end.

Lemma handshake_lists_star_witness :
  let w := new_Blockchain plain_codec 1700000000000 in
  let w1 := await (requestMessageOwnershipVerification "A" 1700000100000) w in
  let w2 := await (submitStar plain_codec accept_all (3600000 * 1) "A"
                     (challenge "A" 1700000100000) "sig"
                     (Some (challenge "A" 1700000100000))
                     1700000399000 1700000399001) w1 in
  answer w1 = Some (ResolvedWith (ViewStr (challenge "A" 1700000100000)))
  /\ answer (await (getStarsByWalletAddress plain_decoder "A") w2)
     = Some (ResolvedWith
               (ViewArray (star_entries plain_decoder "A" (chain w)
                             ++ [StarEntry "A" (Some (challenge "A" 1700000100000))]))).
Proof.
  apply (handshake_lists_star plain_codec plain_decoder accept_all 1
           (new_Blockchain plain_codec 1700000000000) "A" "sig"
           (Some (challenge "A" 1700000100000))
           1700000100000 1700000399000 1700000399001 1700000100 299).
  - apply served_new.
  - reflexivity.
  - reflexivity.
  - vm_compute. reflexivity.
  - vm_compute. reflexivity.
  - lia.
  - intros tail Hlast. rewrite new_Blockchain_eq in Hlast. cbn in Hlast.
    injection Hlast as <-. vm_compute. reflexivity.
Defined.

(** ** Calls that overlap

    Callers need not wait: a method may be called while callbacks of
    earlier calls are still queued.  The steps of the whole program are the
    synchronous part of a call of a method, the registration of a caller's
    reaction, and the run of the first queued callback. *)

(** What a primitive leaves of the chain and of the height. *)
Definition same_ledger (w w' : World) : Prop :=
  chain w' = chain w /\ height w' = height w.

Lemma same_ledger_refl w : same_ledger w w.
Proof. split; reflexivity. Qed.

Lemma same_ledger_trans w1 w2 w3 :
  same_ledger w1 w2 -> same_ledger w2 w3 -> same_ledger w1 w3.
Proof. intros [H1 H2] [H3 H4]. split; congruence. Qed.

Lemma same_ledger_settle p st w : same_ledger w (settle p st w).
Proof. unfold settle. destruct (promises w !! p) as [[[] rs]|]; split; reflexivity. Qed.

Lemma same_ledger_then p j w : same_ledger w (then_ p j w).
Proof. unfold then_. destruct (promises w !! p) as [[[] rs]|]; split; reflexivity. Qed.

Lemma same_ledger_array_push a e w : same_ledger w (array_push a e w).
Proof. unfold array_push. destruct (arrays w !! a); split; reflexivity. Qed.

Ltac settle_same :=
  eapply same_ledger_trans; [| apply same_ledger_settle]; split; reflexivity.

Lemma same_ledger_validateChain w : same_ledger w (snd (validateChain w)).
Proof. destruct w as [c h A P Q Co D]. rewrite validateChain_eq. split; reflexivity. Qed.

Lemma same_ledger_getStars getBData address w :
  same_ledger w (snd (getStarsByWalletAddress getBData address w)).
Proof.
  destruct w as [c h A P Q Co D]. unfold getStarsByWalletAddress. world_simpl.
  destruct (0 <? length c)%nat.
  - rewrite getStars_forEach_eq. cbn [snd]. unfold resolve. settle_same.
  - cbn [snd]. unfold reject. settle_same.
Qed.

Lemma same_ledger_getBlockByHash hash w : same_ledger w (snd (getBlockByHash hash w)).
Proof.
  destruct w as [c h A P Q Co D]. unfold getBlockByHash. world_simpl.
  destruct (find _ c); cbn [snd]; unfold resolve, reject; settle_same.
Qed.

Lemma same_ledger_getBlockByHeight n w : same_ledger w (snd (getBlockByHeight n w)).
Proof.
  destruct w as [c h A P Q Co D]. unfold getBlockByHeight. world_simpl.
  destruct (head _); cbn [snd]; unfold resolve; settle_same.
Qed.

Lemma same_ledger_getChainHeight w : same_ledger w (snd (getChainHeight w)).
Proof.
  destruct w as [c h A P Q Co D]. unfold getChainHeight. world_simpl.
  cbn [snd]. unfold resolve. settle_same.
Qed.

Lemma same_ledger_requestMessage address now w :
  same_ledger w (snd (requestMessageOwnershipVerification address now w)).
Proof.
  destruct w as [c h A P Q Co D]. unfold requestMessageOwnershipVerification. world_simpl.
  cbn [snd]. unfold resolve. settle_same.
Qed.

(** The synchronous part of [_addBlock] writes on the empty chain only. *)
Lemma _addBlock_ledger block now w :
  same_ledger w (snd (_addBlock block now w))
  \/ (chain w = []
      /\ exists b, block = Some b
                   /\ chain (snd (_addBlock block now w)) = [stamped b now]
                   /\ height (snd (_addBlock block now w)) = 1).
Proof.
  destruct w as [c h A P Q Co D]. destruct block as [b|].
  - destruct (last c) as [t|] eqn:Hlast.
    + left. rewrite (_addBlock_linked _ _ _ _ _ _ _ _ _ _ Hlast). split; reflexivity.
    + apply last_None in Hlast. subst c. right. split; [reflexivity|].
      exists b. rewrite _addBlock_genesis. repeat split.
  - left. rewrite _addBlock_absent. split; reflexivity.
Qed.

Section Overlap.

Variable encodeData : Data -> string.
Variable getBData : Block -> Settled Decoded.
Variable verify : string -> string -> string -> option bool.
Variable LocalTZA : Z.

Inductive Call : Type :=
| CallInitializeChain (now : Z)
| CallGetChainHeight
| CallAddBlock (block : option Block) (now : Z)
| CallRequestMessage (address : string) (now : Z)
| CallSubmitStar (address message signature : string) (star : option Star) (now now' : Z)
| CallGetBlockByHash (hash : option string)
| CallGetBlockByHeight (n : Z)
| CallGetStars (address : string)
| CallValidateChain.

(** The synchronous part of a call; the promise goes to the caller. *)
Definition invoke (c : Call) (w : World) : World :=
  match c with
  | CallInitializeChain now => snd (initializeChain encodeData now w)
  | CallGetChainHeight => snd (getChainHeight w)
  | CallAddBlock block now => snd (_addBlock block now w)
  | CallRequestMessage address now => snd (requestMessageOwnershipVerification address now w)
  | CallSubmitStar address message signature star now now' =>
      snd (submitStar encodeData verify LocalTZA address message signature star now now' w)
  | CallGetBlockByHash hash => snd (getBlockByHash hash w)
  | CallGetBlockByHeight n => snd (getBlockByHeight n w)
  | CallGetStars address => snd (getStarsByWalletAddress getBData address w)
  | CallValidateChain => snd (validateChain w)
  end.

Inductive step : World -> World -> Prop :=
| step_invoke c w : step w (invoke c w)
| step_observe p w : step w (then_ p (Observe p) w)
| step_microtask j q w : microtasks w = j :: q -> step w (run_job j (set_microtasks q w)).

Inductive steps : World -> World -> Prop :=
| steps_refl w : steps w w
| steps_next w1 w2 w3 : steps w1 w2 -> step w2 w3 -> steps w1 w3.

(** The chain after a step: the chain before, with at most one more record
    at its end. *)
Definition grows (w w' : World) : Prop :=
  (chain w' = chain w /\ height w' = height w)
  \/ exists b, chain w' = chain w ++ [b] /\ height w' = Z.of_nat (length (chain w)) + 1.

Lemma grows_same w w' : same_ledger w w' -> grows w w'.
Proof. intros H. now left. Qed.

Lemma grows_then_same w1 w2 w3 : grows w1 w2 -> same_ledger w2 w3 -> grows w1 w3.
Proof.
  intros [[Hc Hh] | [b [Hc Hh]]] [Hc' Hh'].
  - left. split; congruence.
  - right. exists b. split; congruence.
Qed.

Lemma same_then_grows w1 w2 w3 : same_ledger w1 w2 -> grows w2 w3 -> grows w1 w3.
Proof.
  intros [Hc Hh] [[Hc' Hh'] | [b [Hc' Hh']]].
  - left. split; congruence.
  - right. exists b. rewrite Hc', Hh', Hc. split; reflexivity.
Qed.

(** The synchronous part of a call writes on the empty chain only. *)
Definition first_write (w w' : World) : Prop :=
  chain w = [] /\ exists b, chain w' = [b] /\ height w' = 1.

Lemma invoke_ledger c w : same_ledger w (invoke c w) \/ first_write w (invoke c w).
Proof.
  assert (Hadd : forall block now w0 w1,
             same_ledger w0 w1 ->
             same_ledger w0 (snd (_addBlock block now w1))
             \/ first_write w0 (snd (_addBlock block now w1))).
  { intros block now w0 w1 [Hc Hh].
    destruct (_addBlock_ledger block now w1) as [[Hc' Hh'] | [Hc' [b [_ [Hc'' Hh'']]]]].
    - left. split; congruence.
    - right. split; [congruence|]. exists (stamped b now). now split. }
  assert (Hnext : forall w0 w1 w2,
             same_ledger w0 w1 \/ first_write w0 w1 ->
             same_ledger w1 w2 ->
             same_ledger w0 w2 \/ first_write w0 w2).
  { intros w0 w1 w2 [[Hc Hh] | [Hc [b [Hc' Hh']]]] [Hc2 Hh2].
    - left. split; congruence.
    - right. split; [assumption|]. exists b. split; congruence. }
  destruct c as [now | | block now | address now | address message signature star now now'
                | hash | n | address | ]; cbn [invoke].
  - unfold initializeChain.
    destruct (new_promise w) as [result w1] eqn:E1.
    assert (H1 : same_ledger w w1)
      by (unfold new_promise in E1; injection E1 as _ <-; split; reflexivity).
    destruct (height w1 =? -1).
    + pose proof (Hadd (Some (new_Block encodeData GenesisData)) now w w1 H1) as G.
      destruct (_addBlock (Some (new_Block encodeData GenesisData)) now w1)
        as [[p o] w2] eqn:E2.
      cbn [snd] in *. apply (Hnext _ _ _ G), same_ledger_then.
    + cbn [snd]. left. apply (same_ledger_trans _ _ _ H1), same_ledger_settle.
  - left. apply same_ledger_getChainHeight.
  - apply Hadd, same_ledger_refl.
  - left. apply same_ledger_requestMessage.
  - unfold submitStar.
    destruct (new_promise w) as [p w1] eqn:E1.
    assert (H1 : same_ledger w w1)
      by (unfold new_promise in E1; injection E1 as _ <-; split; reflexivity).
    destruct (verify message address signature) as [verified|];
      [|cbn [snd]; now left].
    destruct (_ && verified).
    + pose proof (Hadd (Some (new_Block encodeData (StarData message signature star)))
                    now' w w1 H1) as G.
      destruct (_addBlock (Some (new_Block encodeData (StarData message signature star)))
                  now' w1) as [[p' o] w2] eqn:E2.
      cbn [snd] in *. apply (Hnext _ _ _ G), same_ledger_settle.
    + cbn [snd]. left. apply (same_ledger_trans _ _ _ H1), same_ledger_settle.
  - left. apply same_ledger_getBlockByHash.
  - left. apply same_ledger_getBlockByHeight.
  - left. apply same_ledger_getStars.
  - left. apply same_ledger_validateChain.
Qed.

Lemma invoke_grows c w : grows w (invoke c w).
Proof.
  destruct (invoke_ledger c w) as [H | [Hc [b [Hc' Hh']]]]; [now left|].
  right. exists b. rewrite Hc', Hh', Hc. split; reflexivity.
Qed.

Ltac same_steps :=
  repeat first
    [ apply same_ledger_refl
    | apply same_ledger_settle
    | apply same_ledger_array_push
    | (eapply same_ledger_trans; [| apply same_ledger_settle])
    | (split; reflexivity) ].

Lemma run_job_grows j w : grows w (run_job j w).
Proof.
  destruct j; cbn [run_job]; unfold resolve, reject.
  - destruct settled as [[]|]; cbn [negb]; apply grows_same; same_steps.
  - destruct (state_of d w); apply grows_same; same_steps.
  - destruct (state_of vp w); try solve [apply grows_same; same_steps].
    destruct (truthy v); [|solve [apply grows_same; same_steps]].
    unfold _appendBlockOntoTheChain. world_simpl.
    apply (grows_then_same _ (mkWorld (chain w ++ [block])
                                (Z.of_nat (length (chain w ++ [block])))
                                (arrays w) (promises w) (microtasks w)
                                (console w ++ [LogBlock block]) (delivered w)));
      [| same_steps].
    right. exists block. cbn [chain height]. split; [reflexivity|].
    rewrite length_app. cbn [length]. lia.
  - destruct (state_of d w); apply grows_same; same_steps.
  - destruct settled as [[|[message|] star]|]; try solve [apply grows_same; same_steps].
    destruct (String.eqb _ address); apply grows_same; same_steps.
  - destruct (state_of d w); apply grows_same; same_steps.
  - apply grows_same; same_steps.
  - destruct (state_of p w); apply grows_same; same_steps.
Qed.

Lemma step_grows w w' : step w w' -> grows w w'.
Proof.
  intros [c w0 | p w0 | j q w0 Hq].
  - apply invoke_grows.
  - apply grows_same, same_ledger_then.
  - apply (same_then_grows _ (set_microtasks q w0)); [split; reflexivity|].
    apply run_job_grows.
Qed.

Lemma steps_append w w' : steps w w' -> exists added, chain w' = chain w ++ added.
Proof.
  induction 1 as [w | w1 w2 w3 _ [added IH] Hstep].
  - exists []. now rewrite app_nil_r.
  - destruct (step_grows _ _ Hstep) as [[Hc _] | [b [Hc _]]].
    + exists added. congruence.
    + exists (added ++ [b]). rewrite Hc, IH. now rewrite app_assoc.
Qed.

(** The calls of the users of the class: [_addBlock], private by its name,
    is not theirs to call.  It is then handed only the blocks that
    [initializeChain] and [submitStar] have just created. *)
Definition public (c : Call) : bool :=
  match c with
  | CallAddBlock _ _ => false
  | _ => true
  end.

(** The users' calls, waited for or not, the reactions they register and
    the callbacks, in any order the microtask queue allows. *)
Inductive public_steps : World -> World -> Prop :=
| public_refl w : public_steps w w
| public_invoke c w1 w2 :
    public_steps w1 w2 -> public c = true -> public_steps w1 (invoke c w2)
| public_observe p w1 w2 :
    public_steps w1 w2 -> public_steps w1 (then_ p (Observe p) w2)
| public_microtask j q w1 w2 :
    public_steps w1 w2 -> microtasks w2 = j :: q ->
    public_steps w1 (run_job j (set_microtasks q w2)).

Lemma public_steps_drain w n : forall w', public_steps w w' -> public_steps w (drain n w').
Proof.
  induction n as [|n IH]; intros w' H; [assumption|].
  cbn [drain]. destruct (microtasks w') as [|j q] eqn:E; [assumption|].
  apply IH. now apply public_microtask.
Qed.

Lemma public_steps_run_microtasks w w' :
  public_steps w w' -> public_steps w (run_microtasks w').
Proof. apply public_steps_drain. Qed.

Lemma public_steps_steps w w' : public_steps w w' -> steps w w'.
Proof.
  induction 1 as [w | c w1 w2 _ IH _ | p w1 w2 _ IH | j q w1 w2 _ IH Hq].
  - apply steps_refl.
  - apply (steps_next _ _ _ IH). apply step_invoke.
  - apply (steps_next _ _ _ IH). apply step_observe.
  - apply (steps_next _ _ _ IH). now apply step_microtask.
Qed.

End Overlap.

(** X16. However the calls of the public methods, waited for or not, and the
    callbacks interleave after [new Blockchain()], the chain only grows at
    its end: the records it holds are never removed, replaced or
    reordered. *)
Theorem chain_only_grows
    (encodeData : Data -> string) (getBData : Block -> Settled Decoded)
    (verify : string -> string -> string -> option bool) (LocalTZA : Z)
    (now : Z) (w w' : World) :
  public_steps encodeData getBData verify LocalTZA (constructor encodeData now) w ->
  public_steps encodeData getBData verify LocalTZA w w' ->
  exists added, chain w' = chain w ++ added.
Proof.
  intros _ H. apply (steps_append encodeData getBData verify LocalTZA).
  now apply public_steps_steps.
Qed.

(** Two submissions and a query, none waited for, and the caller
    registering on the promise of the first submission. *)
Definition unwaited_calls (w : World) : World :=
  then_ (length (promises w))
    (Observe (length (promises w)))
    (invoke hex_codec plain_decoder accept_all 0 (CallGetBlockByHeight 1)
       (invoke hex_codec plain_decoder accept_all 0
          (CallSubmitStar "B" "B:1700000000:starRegistry" "sigB" None
             1700000061000 1700000061000)
          (invoke hex_codec plain_decoder accept_all 0
             (CallSubmitStar "A" "A:1700000000:starRegistry" "sigA" None
                1700000060000 1700000060000) w))).

Lemma public_steps_unwaited_calls w :
  public_steps hex_codec plain_decoder accept_all 0 w (unwaited_calls w).
Proof.
  unfold unwaited_calls.
  apply public_observe.
  apply public_invoke; [| reflexivity].
  apply public_invoke; [| reflexivity].
  apply public_invoke; [apply public_refl | reflexivity].
Qed.

Lemma chain_only_grows_witness :
  exists added,
    chain (unwaited_calls (run_microtasks (unwaited_calls (constructor hex_codec 1700000000000))))
    = chain (run_microtasks (unwaited_calls (constructor hex_codec 1700000000000))) ++ added.
Proof.
  apply (chain_only_grows hex_codec plain_decoder accept_all 0 1700000000000
           (run_microtasks (unwaited_calls (constructor hex_codec 1700000000000)))
           (unwaited_calls
              (run_microtasks (unwaited_calls (constructor hex_codec 1700000000000))))).
  - apply public_steps_run_microtasks, public_steps_unwaited_calls.
  - apply public_steps_unwaited_calls.
Defined.

(** ** No second genesis record, whatever overlaps *)

(** The blocks waiting in callbacks to be pushed have a position of 1 at
    least. *)
Definition job_ok (j : Job) : Prop :=
  match j with
  | AddBlockThen _ b _ _ => 1 <= BlockClass.height b
  | _ => True
  end.

Definition jobs_ok (w : World) : Prop :=
  Forall job_ok (microtasks w)
  /\ Forall (fun c => Forall job_ok (reactions c)) (promises w).

Lemma jobs_ok_fields w w' :
  microtasks w' = microtasks w -> promises w' = promises w -> jobs_ok w -> jobs_ok w'.
Proof. unfold jobs_ok. now intros -> ->. Qed.

Lemma jobs_ok_settle p st w : jobs_ok w -> jobs_ok (settle p st w).
Proof.
  intros [HQ HP]. unfold settle.
  destruct (promises w !! p) as [[[] rs]|] eqn:E; try (now split).
  split; cbn [microtasks promises set_microtasks set_promises].
  - apply Forall_app. split; [assumption|].
    apply (Forall_lookup_1 _ _ _ _ HP E).
  - apply Forall_insert; [assumption | constructor].
Qed.

Lemma jobs_ok_then p j w : job_ok j -> jobs_ok w -> jobs_ok (then_ p j w).
Proof.
  intros Hj [HQ HP]. unfold then_.
  destruct (promises w !! p) as [[[] rs]|] eqn:E; try (now split).
  - split; cbn [microtasks promises set_promises]; [assumption|].
    apply Forall_insert; [assumption|]. cbn [reactions].
    apply Forall_app. split; [apply (Forall_lookup_1 _ _ _ _ HP E) | now constructor].
  - split; cbn; [|assumption]. apply Forall_app. split; [assumption | now constructor].
  - split; cbn; [|assumption]. apply Forall_app. split; [assumption | now constructor].
Qed.

Lemma jobs_ok_enqueue j w : job_ok j -> jobs_ok w -> jobs_ok (enqueue j w).
Proof.
  intros Hj [HQ HP]. split; cbn; [|assumption].
  apply Forall_app. split; [assumption | now constructor].
Qed.

Lemma jobs_ok_new_promise w : jobs_ok w -> jobs_ok (snd (new_promise w)).
Proof.
  intros [HQ HP]. split; cbn; [assumption|].
  apply Forall_app. split; [assumption | repeat constructor].
Qed.

Lemma jobs_ok_array_push a e w : jobs_ok w -> jobs_ok (array_push a e w).
Proof. unfold array_push. now destruct (arrays w !! a). Qed.

Lemma jobs_ok_validateChain_forEach a blocks : forall previousHash w,
  jobs_ok w -> jobs_ok (validateChain_forEach a blocks previousHash w).
Proof.
  induction blocks as [|b r IH]; intros previousHash w H; [assumption|].
  cbn [validateChain_forEach]. unfold new_promise at 1.
  apply IH. destruct (negb _); [apply jobs_ok_array_push|];
    apply jobs_ok_then, jobs_ok_enqueue, (jobs_ok_new_promise w H); exact I.
Qed.

Lemma jobs_ok_validateChain w : jobs_ok w -> jobs_ok (snd (validateChain w)).
Proof.
  intros H. unfold validateChain. unfold new_array, new_promise at 1. cbn [snd].
  apply jobs_ok_settle.
  match goal with |- jobs_ok (if ?c then _ else _) => destruct c end.
  - apply jobs_ok_validateChain_forEach. apply (jobs_ok_new_promise (set_arrays _ w)).
    now apply (jobs_ok_fields w).
  - apply jobs_ok_array_push. apply (jobs_ok_new_promise (set_arrays _ w)).
    now apply (jobs_ok_fields w).
Qed.

Lemma jobs_ok_getStars_forEach getBData a outer address blocks : forall w,
  jobs_ok w -> jobs_ok (getStars_forEach getBData a outer address blocks w).
Proof.
  induction blocks as [|b r IH]; intros w H; [assumption|].
  cbn [getStars_forEach]. unfold new_promise at 1.
  apply IH. apply jobs_ok_then, jobs_ok_enqueue, (jobs_ok_new_promise w H); exact I.
Qed.

Lemma jobs_ok_getStars getBData address w :
  jobs_ok w -> jobs_ok (snd (getStarsByWalletAddress getBData address w)).
Proof.
  intros H. unfold getStarsByWalletAddress. unfold new_array, new_promise at 1.
  assert (H1 : jobs_ok (snd (new_promise (set_arrays (arrays w ++ [[]]) w))))
    by (apply jobs_ok_new_promise; now apply (jobs_ok_fields w)).
  match goal with |- jobs_ok (snd (if ?c then _ else _)) => destruct c end; cbn [snd].
  - apply jobs_ok_settle. now apply jobs_ok_getStars_forEach.
  - now apply jobs_ok_settle.
Qed.

(** The synchronous part of [_addBlock] queues a block that stands one
    position after the tail. *)
Lemma jobs_ok__addBlock block now w :
  (forall t, last (chain w) = Some t -> 0 <= BlockClass.height t) ->
  jobs_ok w -> jobs_ok (snd (_addBlock block now w)).
Proof.
  intros Ht H. unfold _addBlock. unfold new_promise at 1.
  pose proof (jobs_ok_new_promise w H) as H1. cbn [snd] in H1.
  set (w1 := set_promises (promises w ++ [mkPromise Pending []]) w) in *.
  change (chain w1) with (chain w).
  destruct block as [block|]; [|cbn [snd]; now apply jobs_ok_settle].
  destruct (0 <? length (chain w))%nat.
  - destruct (last (chain w)) as [t|] eqn:Hlast; [|exact H1].
    pose proof (jobs_ok_validateChain w1 H1) as H2.
    destruct (validateChain w1) as [vp w2]. cbn [snd] in H2.
    unfold new_promise at 1. cbn [snd].
    apply jobs_ok_then; [exact I|]. apply jobs_ok_then.
    + cbn [job_ok BlockClass.height BlockClass.set_previousBlockHash BlockClass.set_height].
      specialize (Ht t eq_refl). lia.
    + now apply (jobs_ok_new_promise w2).
  - unfold _appendGenesisBlock, _appendBlockOntoTheChain. cbn [truthy snd].
    apply jobs_ok_settle. now apply (jobs_ok_fields w1).
Qed.

Lemma jobs_ok_run_job j w : job_ok j -> jobs_ok w -> jobs_ok (run_job j w).
Proof.
  intros Hj H. destruct j; cbn [run_job]; unfold resolve, reject.
  - destruct settled as [[]|]; cbn [negb];
      repeat first [apply jobs_ok_settle | apply jobs_ok_array_push]; assumption.
  - destruct (state_of d w); try assumption. now apply jobs_ok_array_push.
  - destruct (state_of vp w); try assumption.
    + destruct (truthy v).
      * unfold _appendBlockOntoTheChain. world_simpl.
        do 2 apply jobs_ok_settle. now apply (jobs_ok_fields w).
      * now do 2 apply jobs_ok_settle.
    + now apply jobs_ok_settle.
  - destruct (state_of d w); try assumption. now apply jobs_ok_settle.
  - destruct settled as [[|[message|] star]|];
      try (now apply jobs_ok_settle).
    destruct (String.eqb _ address);
      repeat first [apply jobs_ok_settle | apply jobs_ok_array_push]; assumption.
  - destruct (state_of d w); try assumption. now apply jobs_ok_settle.
  - now apply jobs_ok_settle.
  - destruct (state_of p w); try assumption; now apply (jobs_ok_fields w).
Qed.

(** The ledger under overlapping calls: the height is the number of
    records, the chain starts with [g], the other records have a position
    of 1 at least, and so have the blocks still to be pushed. *)
Definition guarded (g : Block) (w : World) : Prop :=
  height w = Z.of_nat (length (chain w))
  /\ (exists rest, chain w = g :: rest
                   /\ Forall (fun b => 1 <= BlockClass.height b) rest)
  /\ jobs_ok w.

Lemma guarded_same g w w' :
  guarded g w -> same_ledger w w' -> jobs_ok w' -> guarded g w'.
Proof.
  intros [Hh [Hc _]] [Hc' Hh'] Hj. unfold guarded. rewrite Hc', Hh'.
  split; [assumption|]. split; assumption.
Qed.

Lemma guarded_tail g w t :
  BlockClass.height g = 0 -> guarded g w -> last (chain w) = Some t ->
  0 <= BlockClass.height t.
Proof.
  intros Hg [_ [[rest [Hc Hrest]] _]] Hlast. rewrite Hc in Hlast.
  rewrite last_cons in Hlast. destruct (last rest) as [x|] eqn:E.
  - injection Hlast as <-. rewrite last_lookup in E.
    pose proof (Forall_lookup_1 _ _ _ _ Hrest E). simpl in *. lia.
  - injection Hlast as <-. lia.
Qed.

Section Guarded.

Variable encodeData : Data -> string.
Variable getBData : Block -> Settled Decoded.
Variable verify : string -> string -> string -> option bool.
Variable LocalTZA : Z.

Lemma jobs_ok_invoke g c w :
  BlockClass.height g = 0 -> guarded g w ->
  jobs_ok (invoke encodeData getBData verify LocalTZA c w).
Proof.
  intros Hg G. pose proof G as [_ [_ H]].
  assert (Hadd : forall block now w1,
             same_ledger w w1 -> jobs_ok w1 -> jobs_ok (snd (_addBlock block now w1))).
  { intros block now w1 [Hc _] H1. apply jobs_ok__addBlock; [|assumption].
    intros t Ht. rewrite Hc in Ht. apply (guarded_tail g w t Hg G Ht). }
  destruct c as [now | | block now | address now | address message signature star now now'
                | hash | n | address | ]; cbn [invoke].
  - unfold initializeChain. unfold new_promise at 1.
    pose proof (jobs_ok_new_promise w H) as H1. cbn [snd] in H1.
    set (w1 := set_promises (promises w ++ [mkPromise Pending []]) w) in *.
    destruct (height w1 =? -1).
    + pose proof (Hadd (Some (new_Block encodeData GenesisData)) now w1
                    (conj eq_refl eq_refl) H1) as H2.
      destruct (_addBlock (Some (new_Block encodeData GenesisData)) now w1)
        as [[p o] w2].
      cbn [snd] in *. now apply jobs_ok_then.
    + cbn [snd]. now apply jobs_ok_settle.
  - unfold getChainHeight. unfold new_promise at 1. cbn [snd].
    apply jobs_ok_settle, (jobs_ok_new_promise w H).
  - apply Hadd; [apply same_ledger_refl | assumption].
  - unfold requestMessageOwnershipVerification. unfold new_promise at 1. cbn [snd].
    apply jobs_ok_settle, (jobs_ok_new_promise w H).
  - unfold submitStar. unfold new_promise at 1.
    pose proof (jobs_ok_new_promise w H) as H1. cbn [snd] in H1.
    set (w1 := set_promises (promises w ++ [mkPromise Pending []]) w) in *.
    destruct (verify message address signature) as [verified|]; [|exact H1].
    destruct (_ && verified).
    + pose proof (Hadd (Some (new_Block encodeData (StarData message signature star)))
                    now' w1 (conj eq_refl eq_refl) H1) as H2.
      destruct (_addBlock (Some (new_Block encodeData (StarData message signature star)))
                  now' w1) as [[p' o] w2].
      cbn [snd] in *. now apply jobs_ok_settle.
    + cbn [snd]. now apply jobs_ok_settle.
  - unfold getBlockByHash. unfold new_promise at 1.
    destruct (find _ _); cbn [snd]; apply jobs_ok_settle, (jobs_ok_new_promise w H).
  - unfold getBlockByHeight. unfold new_promise at 1.
    destruct (head _); cbn [snd]; apply jobs_ok_settle, (jobs_ok_new_promise w H).
  - now apply jobs_ok_getStars.
  - now apply jobs_ok_validateChain.
Qed.

Lemma guarded_step g w w' :
  BlockClass.height g = 0 -> guarded g w ->
  step encodeData getBData verify LocalTZA w w' -> guarded g w'.
Proof.
  intros Hg G Hstep. destruct Hstep as [c w | p w | j q w Hq].
  - pose proof (jobs_ok_invoke g c w Hg G) as Hj.
    destruct (invoke_ledger encodeData getBData verify LocalTZA c w)
      as [Hs | [Hc _]].
    + now apply (guarded_same g w).
    + destruct G as [_ [[rest [Hc' _]] _]]. rewrite Hc' in Hc. discriminate.
  - apply (guarded_same g w _ G (same_ledger_then _ _ _)).
    apply jobs_ok_then; [exact I | apply G].
  - destruct G as [Hh [[rest [Hc Hrest]] [HQ HP]]].
    rewrite Hq in HQ. inversion HQ as [|? ? Hj HQ']; subst.
    assert (Hpop : jobs_ok (set_microtasks q w)) by now split.
    pose proof (jobs_ok_run_job j _ Hj Hpop) as Hj'.
    destruct (run_job_grows j (set_microtasks q w)) as [[Hc' Hh'] | [b [Hc' Hh']]].
    + unfold guarded. rewrite Hc', Hh'. cbn [chain height set_microtasks].
      split; [assumption|]. split; [now exists rest | assumption].
    + unfold guarded. rewrite Hc', Hh'. cbn [chain height set_microtasks].
      split; [rewrite length_app; cbn [length]; lia|]. split; [|assumption].
      exists (rest ++ [b]). rewrite Hc. split; [reflexivity|].
      apply Forall_app. split; [assumption|]. constructor; [|constructor].
      (* the block pushed is the one of the job *)
      destruct j; cbn [run_job] in Hc'; unfold resolve, reject in Hc';
        cbn [job_ok] in Hj.
      all: try (exfalso;
                repeat match goal with
                       | H : context [match ?x with _ => _ end] |- _ => destruct x
                       end;
                repeat (rewrite ?(proj1 (same_ledger_settle _ _ _)),
                          ?(proj1 (same_ledger_array_push _ _ _)) in Hc');
                cbn [chain set_microtasks console_log deliver] in Hc';
                apply (f_equal (@length Block)) in Hc';
                rewrite length_app in Hc'; cbn [length] in Hc'; lia).
      destruct (state_of vp (set_microtasks q w)).
      * exfalso. cbn [chain set_microtasks] in Hc'.
        apply (f_equal (@length Block)) in Hc'.
        rewrite length_app in Hc'. cbn [length] in Hc'. lia.
      * destruct (truthy v).
        -- unfold _appendBlockOntoTheChain in Hc'.
           rewrite !(proj1 (same_ledger_settle _ _ _)) in Hc'.
           cbn [chain set_chain console_log set_microtasks] in Hc'.
           apply app_inj_tail in Hc' as [_ <-]. exact Hj.
        -- exfalso. rewrite !(proj1 (same_ledger_settle _ _ _)) in Hc'.
           cbn [chain set_microtasks] in Hc'.
           apply (f_equal (@length Block)) in Hc'.
           rewrite length_app in Hc'. cbn [length] in Hc'. lia.
      * exfalso. rewrite !(proj1 (same_ledger_settle _ _ _)) in Hc'.
        cbn [chain set_microtasks] in Hc'.
        apply (f_equal (@length Block)) in Hc'.
        rewrite length_app in Hc'. cbn [length] in Hc'. lia.
Qed.

Lemma guarded_constructor now :
  guarded (genesis encodeData now) (constructor encodeData now).
Proof.
  rewrite constructor_eq. repeat split.
  - exists []. split; [reflexivity | constructor].
  - repeat constructor.
  - repeat constructor.
Qed.

Lemma guarded_steps now w :
  steps encodeData getBData verify LocalTZA (constructor encodeData now) w ->
  guarded (genesis encodeData now) w.
Proof.
  intros H. remember (constructor encodeData now) as w0 eqn:E.
  induction H as [w | w1 w2 w3 _ IH Hstep].
  - subst. apply guarded_constructor.
  - apply (guarded_step _ w2); [reflexivity | now apply IH | assumption].
Qed.

End Guarded.

(** X17. However the calls of the public methods, waited for or not, and
    the callbacks interleave after [new Blockchain()], the genesis record
    stays the first record of the chain, every other record has a position
    of 1 at least, and the height is the number of records. *)
Theorem genesis_stays_first
    (encodeData : Data -> string) (getBData : Block -> Settled Decoded)
    (verify : string -> string -> string -> option bool) (LocalTZA : Z)
    (now : Z) (w : World) :
  public_steps encodeData getBData verify LocalTZA (constructor encodeData now) w ->
  height w = Z.of_nat (length (chain w))
  /\ exists rest,
       chain w = genesis encodeData now :: rest
       /\ Forall (fun b => 1 <= BlockClass.height b) rest.
Proof.
  intros H. apply public_steps_steps in H.
  destruct (guarded_steps _ _ _ _ _ _ H) as [Hh [Hc _]]. now split.
Qed.

Lemma genesis_stays_first_witness :
  height (unwaited_calls (constructor hex_codec 1700000000000))
  = Z.of_nat (length (chain (unwaited_calls (constructor hex_codec 1700000000000))))
  /\ exists rest,
       chain (unwaited_calls (constructor hex_codec 1700000000000))
       = genesis hex_codec 1700000000000 :: rest
       /\ Forall (fun b => 1 <= BlockClass.height b) rest.
Proof.
  apply (genesis_stays_first hex_codec plain_decoder accept_all 0 1700000000000
           (unwaited_calls (constructor hex_codec 1700000000000))).
  apply public_steps_unwaited_calls.
Defined.

(** ** Two calls of [_addBlock] that overlap *)

(** The callbacks of one call of [_addBlock], run in a store that holds the
    promises of other calls before ([P]) and after ([T]) its own; [blocks]
    is the chain the call has read, [c] the chain when the callbacks run. *)
Lemma run_addBlock_jobs blocks b rs L a c h A P T Q Co D :
  A !! a = Some L ->
  let d := (length P + 2 + length blocks)%nat in
  let fin := mkPromise (Fulfilled (VArr a)) [] in
  run_jobs (validate_thens a (S (S (length P))) blocks
              ++ [AddBlockThen (S (length P)) b (length P) d])
    (mkWorld c h A
       (P ++ mkPromise Pending rs :: fin
          :: map pending_on (validate_catches a (S (S (length P))) blocks)
          ++ pending_on (AddBlockCatch d (length P)) :: T)
       Q Co D)
  = mkWorld (c ++ [b]) (Z.of_nat (length (c ++ [b])))
      (<[a := L ++ altered_entries blocks]> A)
      (P ++ mkPromise (Fulfilled (VBlock b)) [] :: fin
         :: map (fun _ => done) blocks ++ done :: T)
      (Q ++ validate_catches a (S (S (length P))) blocks
         ++ rs ++ [AddBlockCatch d (length P)])
      (Co ++ [LogBlock b]) D.
Proof.
  intros HA d fin. set (pend := mkPromise Pending rs).
  assert (Hlen : length (P ++ [pend; fin]) = S (S (length P))) by solve_length.
  rewrite run_jobs_app.
  rewrite (app_cons_snoc P _ pend), (app_cons_snoc _ _ fin), <- (app_assoc P [pend] [fin]).
  cbn [app]. rewrite <- Hlen.
  rewrite (run_validate_thens _ _ _ _ _ _ _ _ _ _ _ HA). rewrite Hlen.
  cbn [run_jobs fold_left]. unfold run_job.
  rewrite (state_of_eq (S (length P)) (Fulfilled (VArr a)) []).
  2:{ cbn [promises]. rewrite <- app_assoc. cbn [app].
      rewrite (app_cons_snoc P _ pend). apply list_lookup_middle. solve_length. }
  cbn [truthy]. unfold _appendBlockOntoTheChain, resolve. world_simpl.
  rewrite <- app_assoc. cbn [app].
  rewrite (settle_pending _ _ rs) by apply lookup_middle.
  rewrite insert_middle.
  set (fb := mkPromise (Fulfilled (VBlock b)) []).
  rewrite (settle_pending d _ [AddBlockCatch d (length P)]).
  2:{ rewrite (app_cons_snoc P _ fb), (app_cons_snoc _ _ fin), app_assoc.
      apply list_lookup_middle. unfold d. solve_length. }
  rewrite (app_cons_snoc P _ fb), (app_cons_snoc _ _ fin), app_assoc.
  rewrite insert_at by (unfold d; solve_length).
  fold done. rewrite <- !app_assoc. reflexivity.
Qed.

(** The [.catch] callbacks of one call of [_addBlock] do nothing. *)
Lemma run_addBlock_catches blocks a x y c h A P T Q Co D :
  let d := (length P + 2 + length blocks)%nat in
  run_jobs (validate_catches a (S (S (length P))) blocks ++ [AddBlockCatch d (length P)])
    (mkWorld c h A (P ++ x :: y :: map (fun _ => done) blocks ++ done :: T) Q Co D)
  = mkWorld c h A (P ++ x :: y :: map (fun _ => done) blocks ++ done :: T) Q Co D.
Proof.
  intros d.
  assert (Hlen : length (P ++ [x; y]) = S (S (length P))) by solve_length.
  rewrite run_jobs_app.
  rewrite (app_cons_snoc P _ x), (app_cons_snoc _ _ y), <- (app_assoc P [x] [y]).
  cbn [app]. rewrite <- Hlen, run_validate_catches.
  cbn [run_jobs fold_left run_job].
  rewrite (state_of_eq d (Fulfilled VUndefined) []); [reflexivity|].
  cbn [promises]. rewrite app_assoc. apply list_lookup_middle. unfold d. solve_length.
Qed.

Lemma insert_two {X} (A : list X) (x y u v : X) :
  <[S (length A) := v]> (<[length A := u]> ((A ++ [x]) ++ [y])) = A ++ [u; v].
Proof.
  rewrite <- app_assoc. cbn [app].
  rewrite (insert_app_r_alt A) by lia. rewrite Nat.sub_diag. cbn [insert list_insert].
  rewrite (insert_app_r_alt A) by lia.
  replace (S (length A) - length A)%nat with 1%nat by lia. reflexivity.
Qed.

Ltac lengths :=
  repeat first
    [ rewrite length_app | rewrite length_cons | rewrite length_map
    | rewrite length_validate_catches | rewrite length_validate_thens ];
  cbn [length]; lia.

(** Two calls of [_addBlock], the second made when the first has returned
    and before any callback has run; then all the callbacks. *)
Definition overlapping_appends (block1 block2 : Block) (now1 now2 : Z) (w : World) : World :=
  run_microtasks
    (snd (_addBlock (Some block2) now2 (snd (_addBlock (Some block1) now1 w)))).

Lemma overlapping_appends_eq block1 block2 now1 now2 c previousBlock h A P Co D :
  last c = Some previousBlock ->
  let b1 := linked previousBlock block1 now1 in
  let b2 := linked previousBlock block2 now2 in
  overlapping_appends block1 block2 now1 now2 (mkWorld c h A P [] Co D)
  = mkWorld (c ++ [b1; b2]) (Z.of_nat (length c) + 2)
      (A ++ [findings c; findings c])
      (P ++ mkPromise (Fulfilled (VBlock b1)) []
         :: mkPromise (Fulfilled (VArr (length A))) []
         :: map (fun _ => done) c
         ++ done
         :: mkPromise (Fulfilled (VBlock b2)) []
         :: mkPromise (Fulfilled (VArr (S (length A)))) []
         :: map (fun _ => done) c ++ [done])
      [] (Co ++ [LogBlock b1; LogBlock b2]) D.
Proof.
  intros Hlast b1 b2. unfold overlapping_appends.
  rewrite (_addBlock_linked _ _ _ _ _ _ _ _ _ _ Hlast). cbn [snd app]. fold b1.
  rewrite (_addBlock_linked _ _ _ _ _ _ _ _ _ _ Hlast). cbn [snd]. fold b2.
  set (a := length A).
  set (L := link_entries c None).
  set (P1 := P ++ (mkPromise Pending []) :: (mkPromise (Fulfilled (VArr a)) [])
               :: map pending_on (validate_catches a (S (S (length P))) c)
               ++ [pending_on (AddBlockCatch (length P + 2 + length c)%nat (length P))]).
  assert (HP1 : length P1 = S (length P + 2 + length c)) by (unfold P1; lengths).
  assert (Ha' : length (A ++ [L]) = S a) by (unfold a; lengths).
  rewrite Ha'.
  set (P1' := P ++ (mkPromise (Fulfilled (VBlock b1)) []) :: (mkPromise (Fulfilled (VArr a)) []) :: map (fun _ => done) c ++ [done]).
  assert (HP1' : length P1' = length P1) by (unfold P1', P1; lengths).
  assert (Hfind : L ++ altered_entries c = findings c)
    by (destruct c; [discriminate | reflexivity]).
  set (T2 := (mkPromise Pending []) :: (mkPromise (Fulfilled (VArr (S a))) [])
               :: map pending_on (validate_catches (S a) (S (S (length P1))) c)
               ++ [pending_on (AddBlockCatch (length P1 + 2 + length c)%nat (length P1))]).
  set (jobs1 := validate_thens a (S (S (length P))) c
                  ++ [AddBlockThen (S (length P)) b1 (length P) (length P + 2 + length c)%nat]).
  set (jobs2 := validate_thens (S a) (S (S (length P1))) c
                  ++ [AddBlockThen (S (length P1)) b2 (length P1) (length P1 + 2 + length c)%nat]).
  set (catches1 := validate_catches a (S (S (length P))) c
                     ++ [AddBlockCatch (length P + 2 + length c)%nat (length P)]).
  set (catches2 := validate_catches (S a) (S (S (length P1))) c
                     ++ [AddBlockCatch (length P1 + 2 + length c)%nat (length P1)]).
  match goal with |- run_microtasks ?w = ?w' =>
    assert (Hd : drain (length (jobs1 ++ jobs2) + length (catches1 ++ catches2)) w = w')
  end.
  { change (([] ++ validate_thens a (S (S (length P))) c
               ++ [AddBlockThen (S (length P)) b1 (length P) (length P + 2 + length c)%nat])
              ++ validate_thens (S a) (S (S (length P1))) c
              ++ [AddBlockThen (S (length P1)) b2 (length P1) (length P1 + 2 + length c)%nat])
      with (jobs1 ++ jobs2).
    rewrite drain_add, drain_all, run_jobs_app.
    (* the callbacks of the first call *)
    assert (E1 : P1 ++ T2
                 = P ++ (mkPromise Pending []) :: (mkPromise (Fulfilled (VArr a)) [])
                     :: map pending_on (validate_catches a (S (S (length P))) c)
                     ++ pending_on (AddBlockCatch (length P + 2 + length c)%nat (length P)) :: T2).
    { unfold P1. rewrite <- app_assoc. cbn [app]. now rewrite <- app_assoc. }
    change (P1 ++ (mkPromise Pending []) :: (mkPromise (Fulfilled (VArr (S a))) [])
              :: map pending_on (validate_catches (S a) (S (S (length P1))) c)
              ++ [pending_on (AddBlockCatch (length P1 + 2 + length c)%nat (length P1))])
      with (P1 ++ T2).
    rewrite E1. unfold jobs1.
    rewrite (run_addBlock_jobs c b1 [] L a c h ((A ++ [L]) ++ [L]) P T2 [] Co D).
    2:{ apply lookup_app_l_Some, lookup_middle. }
    (* the callbacks of the second call *)
    assert (E2 : P ++ (mkPromise (Fulfilled (VBlock b1)) []) :: (mkPromise (Fulfilled (VArr a)) []) :: map (fun _ => done) c ++ done :: T2
                 = P1' ++ (mkPromise Pending []) :: (mkPromise (Fulfilled (VArr (S a))) [])
                     :: map pending_on (validate_catches (S a) (S (S (length P1'))) c)
                     ++ pending_on (AddBlockCatch (length P1' + 2 + length c) (length P1'))
                     :: []).
    { rewrite HP1'. unfold P1', T2. rewrite <- !app_assoc. cbn [app].
      now rewrite <- !app_assoc. }
    rewrite E2. unfold jobs2. rewrite <- HP1'.
    rewrite (run_addBlock_jobs c b2 [] L (S a) (c ++ [b1])).
    2:{ rewrite list_lookup_insert_ne by (unfold a; lia).
        rewrite <- Ha'. apply lookup_middle. }
    (* the [.catch] callbacks of both *)
    cbn [app].
    change (validate_catches a (S (S (length P))) c ++ [AddBlockCatch (length P + 2 + length c)%nat (length P)])
      with catches1.
    rewrite HP1'.
    change (validate_catches (S a) (S (S (length P1))) c
              ++ [AddBlockCatch (length P1 + 2 + length c) (length P1)])
      with catches2.
    rewrite drain_all, run_jobs_app.
    unfold P1' at 1. rewrite <- (app_assoc P). cbn [app].
    rewrite <- (app_assoc (map _ c)). cbn [app].
    unfold catches1.
    rewrite (run_addBlock_catches c a (mkPromise (Fulfilled (VBlock b1)) []) (mkPromise (Fulfilled (VArr a)) [])).
    assert (E3 : P ++ (mkPromise (Fulfilled (VBlock b1)) []) :: (mkPromise (Fulfilled (VArr a)) []) :: map (fun _ => done) c
                   ++ done :: (mkPromise (Fulfilled (VBlock b2)) []) :: (mkPromise (Fulfilled (VArr (S a))) []) :: map (fun _ => done) c ++ [done]
                 = P1' ++ (mkPromise (Fulfilled (VBlock b2)) []) :: (mkPromise (Fulfilled (VArr (S a))) []) :: map (fun _ => done) c ++ done :: []).
    { unfold P1'. rewrite <- !app_assoc. cbn [app]. now rewrite <- !app_assoc. }
    rewrite E3. unfold catches2. rewrite <- HP1'.
    rewrite (run_addBlock_catches c (S a) (mkPromise (Fulfilled (VBlock b2)) []) (mkPromise (Fulfilled (VArr (S a))) [])).
    rewrite <- E3.
    f_equal.
    - now rewrite <- app_assoc.
    - rewrite !length_app. cbn [length]. lia.
    - rewrite Hfind. unfold a. apply insert_two.
    - now rewrite <- app_assoc. }
  erewrite run_microtasks_eq; [exact Hd | now rewrite Hd].
Qed.

(** X18. Two calls of [_addBlock] of which the second is made before the
    callbacks of the first have run both read the same tail: both blocks
    are pushed, with the same position and the same previous digest, that
    of the former tail, and the height counts both. *)
Theorem overlapping_appends_share_position
    (w : World) (block1 block2 previousBlock : Block) (now1 now2 : Z) :
  microtasks w = [] ->
  last (chain w) = Some previousBlock ->
  exists b1 b2,
    chain (overlapping_appends block1 block2 now1 now2 w) = chain w ++ [b1; b2]
    /\ height (overlapping_appends block1 block2 now1 now2 w)
       = Z.of_nat (length (chain w)) + 2
    /\ BlockClass.height b1 = BlockClass.height previousBlock + 1
    /\ BlockClass.height b2 = BlockClass.height previousBlock + 1
    /\ BlockClass.previousBlockHash b1 = BlockClass.hash previousBlock
    /\ BlockClass.previousBlockHash b2 = BlockClass.hash previousBlock
    /\ BlockClass.body b1 = BlockClass.body block1
    /\ BlockClass.body b2 = BlockClass.body block2.
Proof.
  intros Hq Hlast. destruct w as [c h A P Q Co D].
  cbn [microtasks chain] in Hq, Hlast. subst Q.
  exists (linked previousBlock block1 now1), (linked previousBlock block2 now2).
  rewrite (overlapping_appends_eq _ _ _ _ _ _ _ _ _ _ _ Hlast).
  cbn [chain height]. split; [reflexivity|]. split; [reflexivity|].
  split; [reflexivity|]. split; [reflexivity|]. split; [reflexivity|].
  split; [reflexivity|]. split; reflexivity.
Qed.

Lemma overlapping_appends_share_position_witness :
  exists b1 b2,
    chain (overlapping_appends (star_block 0 "A:1:starRegistry")
             (star_block 0 "B:2:starRegistry") 1700000001000 1700000002000
             (new_Blockchain hex_codec 1700000000000))
    = chain (new_Blockchain hex_codec 1700000000000) ++ [b1; b2]
    /\ height (overlapping_appends (star_block 0 "A:1:starRegistry")
                 (star_block 0 "B:2:starRegistry") 1700000001000 1700000002000
                 (new_Blockchain hex_codec 1700000000000))
       = Z.of_nat (length (chain (new_Blockchain hex_codec 1700000000000))) + 2
    /\ BlockClass.height b1 = BlockClass.height (genesis hex_codec 1700000000000) + 1
    /\ BlockClass.height b2 = BlockClass.height (genesis hex_codec 1700000000000) + 1
    /\ BlockClass.previousBlockHash b1 = BlockClass.hash (genesis hex_codec 1700000000000)
    /\ BlockClass.previousBlockHash b2 = BlockClass.hash (genesis hex_codec 1700000000000)
    /\ BlockClass.body b1 = BlockClass.body (star_block 0 "A:1:starRegistry")
    /\ BlockClass.body b2 = BlockClass.body (star_block 0 "B:2:starRegistry").
Proof.
  apply (overlapping_appends_share_position (new_Blockchain hex_codec 1700000000000)
           (star_block 0 "A:1:starRegistry") (star_block 0 "B:2:starRegistry")
           (genesis hex_codec 1700000000000) 1700000001000 1700000002000).
  - vm_compute. reflexivity.
  - vm_compute. reflexivity.
Defined.

Lemma filter_position_beyond (c : list Block) (n : Z) : forall k,
  (forall j b, c !! j = Some b -> BlockClass.height b = Z.of_nat (k + j)) ->
  Z.of_nat (k + length c) <= n ->
  List.filter (fun p => BlockClass.height p =? n) c = [].
Proof.
  induction c as [|x r IH]; intros k H Hn; [reflexivity|].
  cbn [List.filter]. rewrite (H 0%nat x eq_refl).
  cbn [length] in Hn.
  replace (Z.of_nat (k + 0) =? n) with false by (symmetry; apply Z.eqb_neq; lia).
  apply (IH (S k)).
  - intros j b Hj. rewrite (H (S j) b Hj). f_equal. lia.
  - lia.
Qed.

(** X19. After two overlapping calls of [_addBlock] on a ledger built by
    calls each waited for, the query by position finds the first of the two
    blocks only: it answers the first block at the position both have, and
    null at the next position. *)
Theorem overlapping_appends_hide_second
    (encodeData : Data -> string) (getBData : Block -> Settled Decoded)
    (verify : string -> string -> string -> option bool) (LocalTZA : Z) (w : World)
    (block1 block2 : Block) (now1 now2 : Z) :
  served encodeData getBData verify LocalTZA w ->
  exists b1 b2,
    chain (overlapping_appends block1 block2 now1 now2 w) = chain w ++ [b1; b2]
    /\ BlockClass.height b2 = Z.of_nat (length (chain w))
    /\ answer (await (getBlockByHeight (Z.of_nat (length (chain w))))
                 (overlapping_appends block1 block2 now1 now2 w))
       = Some (ResolvedWith (ViewBlock b1))
    /\ answer (await (getBlockByHeight (Z.of_nat (length (chain w)) + 1))
                 (overlapping_appends block1 block2 now1 now2 w))
       = Some (ResolvedWith ViewNull).
Proof.
  intros Hs. destruct (served_ok _ _ _ _ _ Hs) as [Hq Hne _ Hpos _].
  destruct w as [c h A P Q Co D]. cbn [microtasks chain] in Hq, Hne, Hpos. subst Q.
  destruct (last_is_Some c Hne) as [previousBlock Hlast].
  assert (Hprev : BlockClass.height previousBlock + 1 = Z.of_nat (length c)).
  { rewrite last_lookup in Hlast. rewrite (Hpos _ _ Hlast).
    destruct c; [contradiction | cbn [length Nat.pred]; lia]. }
  exists (linked previousBlock block1 now1), (linked previousBlock block2 now2).
  rewrite (overlapping_appends_eq _ _ _ _ _ _ _ _ _ _ _ Hlast).
  cbn [chain]. split; [reflexivity|]. split; [exact Hprev|].
  rewrite !await_getBlockByHeight, !List.filter_app.
  rewrite (filter_position_beyond c (Z.of_nat (length c)) 0 Hpos) by (cbn; lia).
  rewrite (filter_position_beyond c (Z.of_nat (length c) + 1) 0 Hpos) by (cbn; lia).
  cbn [app List.filter linked BlockClass.height BlockClass.set_previousBlockHash
         BlockClass.set_height].
  rewrite Hprev, Z.eqb_refl.
  replace (Z.of_nat (length c) =? Z.of_nat (length c) + 1) with false
    by (symmetry; apply Z.eqb_neq; lia).
  cbn [head]. split; apply answer_snoc.
Qed.

Lemma overlapping_appends_hide_second_witness :
  exists b1 b2,
    chain (overlapping_appends (star_block 0 "A:1:starRegistry")
             (star_block 0 "B:2:starRegistry") 1700000001000 1700000002000
             (new_Blockchain hex_codec 1700000000000))
    = chain (new_Blockchain hex_codec 1700000000000) ++ [b1; b2]
    /\ BlockClass.height b2
       = Z.of_nat (length (chain (new_Blockchain hex_codec 1700000000000)))
    /\ answer (await (getBlockByHeight
                        (Z.of_nat (length (chain (new_Blockchain hex_codec 1700000000000)))))
                 (overlapping_appends (star_block 0 "A:1:starRegistry")
                    (star_block 0 "B:2:starRegistry") 1700000001000 1700000002000
                    (new_Blockchain hex_codec 1700000000000)))
       = Some (ResolvedWith (ViewBlock b1))
    /\ answer (await (getBlockByHeight
                        (Z.of_nat (length (chain (new_Blockchain hex_codec 1700000000000)))
                         + 1))
                 (overlapping_appends (star_block 0 "A:1:starRegistry")
                    (star_block 0 "B:2:starRegistry") 1700000001000 1700000002000
                    (new_Blockchain hex_codec 1700000000000)))
       = Some (ResolvedWith ViewNull).
Proof.
  apply (overlapping_appends_hide_second hex_codec plain_decoder accept_all 0
           (new_Blockchain hex_codec 1700000000000)
           (star_block 0 "A:1:starRegistry") (star_block 0 "B:2:starRegistry")
           1700000001000 1700000002000).
  apply served_new.
Defined.

(** ** A block that the chain holds, handed to [_addBlock] again *)

Lemma _addBlock_held_new block now w :
  _addBlock_held [] block now w = _addBlock (Some block) now w.
Proof. destruct w as [c h A P Q Co D]. reflexivity. Qed.

Lemma length_foldr_insert {X} (x : X) (held : list nat) (l : list X) :
  length (foldr (fun i c => <[i := x]> c) l held) = length l.
Proof.
  induction held as [|i r IH]; [reflexivity|].
  cbn [foldr]. rewrite length_insert. exact IH.
Qed.

Lemma _addBlock_held_eq held block now c previousBlock h A P Q Co D :
  last (foldr (fun i c => <[i := stamped block now]> c) c held) = Some previousBlock ->
  let b := linked previousBlock block now in
  let c' := foldr (fun i c => <[i := b]> c)
              (foldr (fun i c => <[i := stamped block now]> c) c held) held in
  let d := (length P + 2 + length c')%nat in
  _addBlock_held held block now (mkWorld c h A P Q Co D)
  = ((length P, Some b),
     mkWorld c' h (A ++ [link_entries c' None])
       (P ++ mkPromise Pending []
          :: mkPromise (Fulfilled (VArr (length A))) []
          :: map pending_on (validate_catches (length A) (S (S (length P))) c')
          ++ [pending_on (AddBlockCatch d (length P))])
       (Q ++ validate_thens (length A) (S (S (length P))) c'
          ++ [AddBlockThen (S (length P)) b (length P) d]) Co D).
Proof.
  intros Hlast b c' d.
  assert (Hc : (0 <? length (foldr (fun i c => <[i := stamped block now]> c) c held))%nat
               = true).
  { destruct (foldr _ c held); [discriminate | reflexivity]. }
  assert (Hne : c' <> []).
  { unfold c'. intros E. apply (f_equal length) in E.
    rewrite length_foldr_insert in E.
    destruct (foldr _ c held); discriminate. }
  unfold _addBlock_held, write_held. world_simpl.
  fold (stamped block now). rewrite Hc, Hlast.
  fold (linked previousBlock block now). fold b. fold c'.
  rewrite validateChain_eq. world_simpl.
  assert (Hd : length ((P ++ [mkPromise Pending []])
                 ++ mkPromise (Fulfilled (VArr (length A))) []
                 :: map pending_on
                      (validate_catches (length A) (S (length (P ++ [mkPromise Pending []]))) c'))
               = d) by (unfold d; solve_length).
  rewrite Hd.
  assert (HP : length (P ++ [mkPromise Pending []]) = S (length P)) by solve_length.
  rewrite HP.
  rewrite (then_settled (S (length P)) _ (Fulfilled (VArr (length A))) []);
    [| apply lookup_app_l_Some; rewrite <- HP; apply lookup_middle | discriminate].
  rewrite (then_pending d _ []) by (apply list_lookup_middle; unfold d; solve_length).
  rewrite insert_at by (unfold d; solve_length).
  destruct c' as [|x r]; [contradiction|].
  f_equal. f_equal.
  - now rewrite <- !app_assoc.
  - now rewrite <- app_assoc.
Qed.

Lemma append_held_eq held block now c previousBlock h A P Co D :
  last (foldr (fun i c => <[i := stamped block now]> c) c held) = Some previousBlock ->
  let b := linked previousBlock block now in
  let c' := foldr (fun i c => <[i := b]> c)
              (foldr (fun i c => <[i := stamped block now]> c) c held) held in
  append_held held block now (mkWorld c h A P [] Co D)
  = mkWorld (c' ++ [b]) (Z.of_nat (length (c' ++ [b]))) (A ++ [findings c'])
      (P ++ mkPromise (Fulfilled (VBlock b)) []
         :: mkPromise (Fulfilled (VArr (length A))) []
         :: map (fun _ => done) c' ++ [done]) []
      (Co ++ [LogBlock b]) (D ++ [ResolvedWith (ViewBlock b)]).
Proof.
  intros Hlast b c'.
  assert (Hne : c' <> []).
  { unfold c'. intros E. apply (f_equal length) in E.
    rewrite length_foldr_insert in E.
    destruct (foldr _ c held); discriminate. }
  unfold append_held, await.
  rewrite (_addBlock_held_eq _ _ _ _ _ _ _ _ _ _ _ Hlast). fold b. fold c'.
  clearbody c'. clear Hlast.
  set (d := (length P + 2 + length c')%nat).
  set (a := length A).
  set (fin := mkPromise (Fulfilled (VArr a)) []).
  rewrite (then_pending _ _ []) by apply lookup_middle.
  rewrite insert_middle. cbn [app]. fold (pending_on (Observe (length P))).
  set (obs := pending_on (Observe (length P))).
  set (thens := validate_thens a (S (S (length P))) c').
  set (catches := validate_catches a (S (S (length P))) c').
  assert (Hfind : link_entries c' None ++ altered_entries c' = findings c')
    by (destruct c'; [contradiction | reflexivity]).
  assert (Hlen : length (P ++ [obs; fin]) = S (S (length P))) by solve_length.
  assert (Hpre : forall X : list Promise, P ++ obs :: fin :: X = (P ++ [obs; fin]) ++ X)
    by (intros X; now rewrite <- app_assoc).
  match goal with |- run_microtasks ?w = ?w' =>
    assert (Hd : drain
                   (length (thens ++ [AddBlockThen (S (length P)) b (length P) d])
                    + length (catches ++ [Observe (length P); AddBlockCatch d (length P)]))
                   w = w')
  end.
  { rewrite drain_add, drain_all, run_jobs_app. subst thens catches.
    rewrite Hpre, <- Hlen.
    rewrite (run_validate_thens _ _ _ _ _ _ _ _ _ _ _ (lookup_middle A [] _)).
    rewrite insert_middle, Hfind, Hlen. cbn [app].
    (* the reaction on the promise of validateChain *)
    cbn [run_jobs fold_left]. unfold run_job at 1.
    rewrite (state_of_eq (S (length P)) (Fulfilled (VArr a)) []).
    2:{ cbn [promises]. rewrite <- app_assoc. cbn [app].
        rewrite (app_cons_snoc P _ obs).
        apply list_lookup_middle. solve_length. }
    cbn [truthy]. unfold _appendBlockOntoTheChain, resolve. world_simpl.
    rewrite <- app_assoc. cbn [app].
    rewrite (settle_pending _ _ [Observe (length P)]) by apply lookup_middle.
    rewrite insert_middle.
    rewrite (settle_pending d _ [AddBlockCatch d (length P)]).
    2:{ rewrite (app_cons_snoc P _ (mkPromise (Fulfilled (VBlock b)) [])).
        rewrite (app_cons_snoc _ _ fin), app_assoc.
        apply list_lookup_middle. unfold d. solve_length. }
    rewrite (app_cons_snoc P _ (mkPromise (Fulfilled (VBlock b)) [])).
    rewrite (app_cons_snoc _ _ fin), app_assoc.
    rewrite insert_at by (unfold d; solve_length).
    fold done.
    (* the remaining callbacks *)
    rewrite <- !app_assoc. cbn [app].
    rewrite drain_all, run_jobs_app.
    rewrite (app_cons_snoc P _ (mkPromise (Fulfilled (VBlock b)) [])).
    rewrite (app_cons_snoc _ _ fin).
    assert (Hlen' : length ((P ++ [mkPromise (Fulfilled (VBlock b)) []]) ++ [fin])
                    = S (S (length P))) by solve_length.
    rewrite <- Hlen', run_validate_catches.
    cbn [run_jobs fold_left run_job].
    rewrite (state_of_eq (length P) (Fulfilled (VBlock b)) []).
    2:{ cbn [promises]. rewrite <- !app_assoc. cbn [app]. apply lookup_middle. }
    world_simpl. cbn [view].
    rewrite (state_of_eq d (Fulfilled VUndefined) []).
    2:{ cbn [promises]. rewrite app_assoc.
        apply list_lookup_middle. unfold d. solve_length. }
    rewrite <- !app_assoc. reflexivity. }
  erewrite run_microtasks_eq; [exact Hd | now rewrite Hd].
Qed.

(** X20. A block that the chain holds, handed to [_addBlock] again on a
    ledger built through the public methods: the stored record is rewritten
    in place and the same object is pushed a second time.  The record at
    index [i] and the new last record are then equal, with the new time and
    digest and with the position of a new record, so that index [i] no
    longer holds position [i]; and when the object was the tail, it names
    its own digest as the previous one. *)
Theorem held_block_rewritten_in_place
    (encodeData : Data -> string) (getBData : Block -> Settled Decoded)
    (verify : string -> string -> string -> option bool) (LocalTZA : Z) (w : World)
    (i : nat) (b : Block) (now : Z) :
  offered encodeData getBData verify LocalTZA w ->
  chain w !! i = Some b ->
  exists b',
    chain (append_held [i] b now w) = <[i := b']> (chain w) ++ [b']
    /\ height (append_held [i] b now w) = Z.of_nat (length (chain w)) + 1
    /\ answer (append_held [i] b now w) = Some (ResolvedWith (ViewBlock b'))
    /\ BlockClass.body b' = BlockClass.body b
    /\ BlockClass.time b' = TimeStr (seconds_string now)
    /\ BlockClass.hash b'
       = Some (SHA256 (JSON_stringify
                         (BlockClass.set_time (TimeStr (seconds_string now)) b)))
    /\ BlockClass.height b' = Z.of_nat (length (chain w))
    /\ (S i = length (chain w) ->
        BlockClass.previousBlockHash b' = BlockClass.hash b')
    /\ (forall tail, (S i < length (chain w))%nat -> last (chain w) = Some tail ->
        BlockClass.previousBlockHash b' = BlockClass.hash tail).
Proof.
  intros Hs Hi. destruct (offered_ok _ _ _ _ _ Hs) as [Hq Hne Hh Hpos Hlink].
  destruct w as [c h A P Q Co D]. cbn [microtasks chain height] in *. subst Q.
  pose proof (lookup_lt_Some _ _ _ Hi) as Hlt.
  assert (Hlast : exists t,
             last (foldr (fun i c => <[i := stamped b now]> c) c [i]) = Some t
             /\ BlockClass.height t + 1 = Z.of_nat (length c)
             /\ (S i = length c -> t = stamped b now)
             /\ (forall tail, (S i < length c)%nat -> last c = Some tail -> t = tail)).
  { cbn [foldr]. rewrite last_lookup, length_insert.
    destruct (decide (i = pred (length c))) as [E | E].
    - exists (stamped b now). rewrite E at 1.
      rewrite list_lookup_insert_eq by lia.
      split; [reflexivity|]. split.
      + cbn [stamped BlockClass.height BlockClass.set_hash BlockClass.set_time].
        rewrite (Hpos _ _ Hi). lia.
      + split; [reflexivity|]. intros tail Hlt'. lia.
    - rewrite list_lookup_insert_ne by assumption.
      destruct (c !! pred (length c)) as [t|] eqn:Et.
      + exists t. split; [reflexivity|]. split.
        * rewrite (Hpos _ _ Et). lia.
        * split; [intros; lia|]. intros tail _ Htail.
          rewrite last_lookup, Et in Htail. now injection Htail.
      + apply lookup_ge_None in Et. lia. }
  destruct Hlast as [t [Hlast [Ht [Hself Hother]]]].
  exists (linked t b now).
  rewrite (append_held_eq _ _ _ _ _ _ _ _ _ _ Hlast).
  cbn [foldr chain height]. rewrite list_insert_insert_eq, answer_snoc.
  split; [reflexivity|]. split.
  { rewrite length_app, length_insert. cbn [length]. lia. }
  split; [reflexivity|]. split; [reflexivity|]. split; [reflexivity|].
  split; [reflexivity|]. split.
  { cbn [linked BlockClass.height BlockClass.set_previousBlockHash BlockClass.set_height].
    exact Ht. }
  split.
  - intros E. rewrite (Hself E). reflexivity.
  - intros tail Hlt' Htail. rewrite (Hother tail Hlt' Htail). reflexivity.
Qed.

(** The star of [one_star], fetched and handed to [_addBlock]. *)
Lemma held_block_rewritten_in_place_witness :
  exists b',
    chain (append_held [1%nat]
             (linked (genesis hex_codec 1700000000000)
                (new_Block hex_codec
                   (StarData "A:1700000000:starRegistry" "sig" (Some "[68,16]")))
                1700000060000)
             1700000120000 one_star)
    = <[1%nat := b']> (chain one_star) ++ [b']
    /\ height (append_held [1%nat]
                 (linked (genesis hex_codec 1700000000000)
                    (new_Block hex_codec
                       (StarData "A:1700000000:starRegistry" "sig" (Some "[68,16]")))
                    1700000060000)
                 1700000120000 one_star)
       = Z.of_nat (length (chain one_star)) + 1
    /\ answer (append_held [1%nat]
                 (linked (genesis hex_codec 1700000000000)
                    (new_Block hex_codec
                       (StarData "A:1700000000:starRegistry" "sig" (Some "[68,16]")))
                    1700000060000)
                 1700000120000 one_star)
       = Some (ResolvedWith (ViewBlock b'))
    /\ BlockClass.body b'
       = BlockClass.body
           (linked (genesis hex_codec 1700000000000)
              (new_Block hex_codec
                 (StarData "A:1700000000:starRegistry" "sig" (Some "[68,16]")))
              1700000060000)
    /\ BlockClass.time b' = TimeStr (seconds_string 1700000120000)
    /\ BlockClass.hash b'
       = Some (SHA256 (JSON_stringify
                         (BlockClass.set_time (TimeStr (seconds_string 1700000120000))
                            (linked (genesis hex_codec 1700000000000)
                               (new_Block hex_codec
                                  (StarData "A:1700000000:starRegistry" "sig"
                                     (Some "[68,16]")))
                               1700000060000))))
    /\ BlockClass.height b' = Z.of_nat (length (chain one_star))
    /\ (2%nat = length (chain one_star) ->
        BlockClass.previousBlockHash b' = BlockClass.hash b')
    /\ (forall tail, (2 < length (chain one_star))%nat -> last (chain one_star) = Some tail ->
        BlockClass.previousBlockHash b' = BlockClass.hash tail).
Proof.
  apply (held_block_rewritten_in_place hex_codec plain_decoder accept_all 0 one_star
           1%nat
           (linked (genesis hex_codec 1700000000000)
              (new_Block hex_codec
                 (StarData "A:1700000000:starRegistry" "sig" (Some "[68,16]")))
              1700000060000)
           1700000120000).
  - unfold one_star. apply offered_submitStar, offered_new.
  - vm_compute. reflexivity.
Defined.

(** The ledger of the witness: the genesis record, and twice the rewritten
    star, at position 2, naming its own digest. *)
Example held_star_appended_again :
  map (fun r => (BlockClass.height r,
                 option_string_eqb (BlockClass.previousBlockHash r) (BlockClass.hash r)))
    (chain (append_held [1%nat]
              (linked (genesis hex_codec 1700000000000)
                 (new_Block hex_codec
                    (StarData "A:1700000000:starRegistry" "sig" (Some "[68,16]")))
                 1700000060000)
              1700000120000 one_star))
  = [(0, false); (2, true); (2, true)].
Proof. vm_compute. reflexivity. Qed.
